(** * trollimage.image: masked-array images, mode conversion, enhancement

    A shallow embedding of [trollimage/image.py].  An [Image] is a list of
    masked 2-D channels with a mode string, an optional fill value and an
    optional palette.  Methods that mutate [self] become functions from the
    image before the call to the image after it; a Python exception becomes
    [Raise].

    Floating-point numbers and the numpy kernels the module calls
    ([**], [np.log], [np.round], [np.interp], [np.percentile], ...) are not
    part of the repository: they are the fields of the class [Float64], and
    every structural theorem holds for any interpretation of them.  Claims
    about numeric values are proved for the exact rational interpretation
    [exactQ], and are claims about exact arithmetic. *)

From Stdlib Require Import List String Ascii Bool Arith ZArith QArith Qround Qabs Qfield Lia Lqa.
Import ListNotations.

Set Implicit Arguments.

(** ** Exceptions and results *)

Inductive exn : Type :=
| TypeError
| ValueError
| RuntimeError
| IndexError
| AttributeError
| ZeroDivisionError
| OverflowError
| UnboundLocalError
| RecursionError.

Inductive result (A : Type) : Type :=
| Ok (a : A)
| Raise (e : exn).

Arguments Ok {A} a.
Arguments Raise {A} e.

Definition bind {A B : Type} (r : result A) (k : A -> result B) : result B :=
  match r with
  | Ok a => k a
  | Raise e => Raise e
  end.

Declare Scope result_scope.
Delimit Scope result_scope with result.
Notation "x <- r ;; k" := (bind r (fun x => k))
  (at level 61, r at next level, right associativity) : result_scope.
Notation "r ;;; k" := (bind r (fun _ => k))
  (at level 61, right associativity) : result_scope.
Open Scope result_scope.

(** [for x in xs: acc = body(acc, x)], stopping at the first exception. *)
Fixpoint for_each {A S : Type} (xs : list A) (body : S -> A -> result S) (s : S)
  : result S :=
  match xs with
  | [] => Ok s
  | x :: xs' => s' <- body s x ;; for_each xs' body s'
  end.

(** ** Python sequences *)

Fixpoint zip_with {A B C : Type} (f : A -> B -> C) (xs : list A) (ys : list B)
  : list C :=
  match xs, ys with
  | x :: xs', y :: ys' => f x y :: zip_with f xs' ys'
  | _, _ => []
  end.

(** [xs[i]] for a non-negative [i]. *)
Definition getitem {A : Type} (xs : list A) (i : nat) : result A :=
  match nth_error xs i with
  | Some x => Ok x
  | None => Raise IndexError
  end.

(** [xs[i]] for a Python integer: a negative [i] counts from the end. *)
Definition getitem_int {A : Type} (xs : list A) (i : Z) : result A :=
  if (0 <=? i)%Z then getitem xs (Z.to_nat i)
  else if (- Z.of_nat (List.length xs) <=? i)%Z
       then getitem xs (Z.to_nat (Z.of_nat (List.length xs) + i))
       else Raise IndexError.

(** [xs[i] = v] for [i] in range. *)
Fixpoint setitem {A : Type} (xs : list A) (i : nat) (v : A) : list A :=
  match xs, i with
  | [], _ => []
  | _ :: xs', O => v :: xs'
  | x :: xs', S i' => x :: setitem xs' i' v
  end.

(** [xs[:-1]] *)
Definition drop_last {A : Type} (xs : list A) : list A := removelast xs.

(** [xs[-1:]]: the last element as a list, [[]] for an empty list. *)
Definition last_slice {A : Type} (xs : list A) : list A :=
  skipn (List.length xs - 1) xs.

(** ** Mode strings *)

Open Scope string_scope.
Open Scope list_scope.

Definition modes : list string :=
  ["L"; "LA"; "RGB"; "RGBA"; "YCbCr"; "YCbCrA"; "P"; "PA"].

Definition mode_in (m : string) (ms : list string) : bool :=
  existsb (String.eqb m) ms.

(** [mode.endswith("A")] *)
Fixpoint endswith_A (m : string) : bool :=
  match m with
  | EmptyString => false
  | String c EmptyString => Ascii.eqb c "A"%char
  | String _ m' => endswith_A m'
  end.

(** [mode[:-1]] *)
Fixpoint strip_last (m : string) : string :=
  match m with
  | EmptyString => EmptyString
  | String _ EmptyString => EmptyString
  | String c m' => String c (strip_last m')
  end.

Definition is_upper (c : ascii) : bool :=
  let n := nat_of_ascii c in (65 <=? n)%nat && (n <=? 90)%nat.

(** [len(re.findall("[A-Z]", mode))]: the channel count a mode implies. *)
Fixpoint count_upper (m : string) : nat :=
  match m with
  | EmptyString => 0
  | String c m' => (if is_upper c then 1 else 0) + count_upper m'
  end.

(** ** Floating-point numbers and numpy kernels *)

Class Float64 (F : Type) : Type := {
  (** a numeric literal, or a Python integer used as a float *)
  lit : Q -> F;
  fadd : F -> F -> F;
  fsub : F -> F -> F;
  fmul : F -> F -> F;
  (** numpy's true division: no exception on a zero divisor *)
  fdiv : F -> F -> F;
  (** [x ** y] *)
  fpow : F -> F -> F;
  (** [np.log] *)
  flog : F -> F;
  fabs : F -> F;
  feqb : F -> F -> bool;
  fltb : F -> F -> bool;
  (** [np.round]: to the nearest integer, ties to even *)
  fround : F -> F;
  (** the cast [astype(np.uint8)] of an integral float *)
  to_uint8 : F -> Z;
  (** Python's [int(x)]: truncation, an exception on nan and inf *)
  py_int : F -> result Z;
  (** [float(np.ma.masked)] *)
  nan : F;
  (** [np.interp(x, xp, fp)] on flat arrays *)
  interp : list F -> list F -> list F -> list F;
  (** [np.percentile(a, q)] for a list [q] of percentages *)
  percentile : list F -> list F -> list F;
  (** [a.min()] and [a.max()] of a non-empty flat array *)
  amin : list F -> F;
  amax : list F -> F
}.

(** Python's float division [x / y]: [ZeroDivisionError] on a zero divisor. *)
Definition py_div {F} `{Float64 F} (x y : F) : result F :=
  if feqb y (lit 0) then Raise ZeroDivisionError else Ok (fdiv x y).

(** [x.clip(lo, hi)] on one element. *)
Definition clip1 {F} `{Float64 F} (lo hi x : F) : F :=
  if fltb x lo then lo else if fltb hi x then hi else x.

(** ** Masked arrays *)

Module ma.

(** A 2-D masked array: shape [(rows, columns)], and the value grid and
    the mask grid in row-major order.  [mask] holds [true] where the value
    is missing. *)
Record MaskedArray (A : Type) : Type := array {
  shape : nat * nat;
  data : list A;
  mask : list bool
}.

Arguments array {A} shape data mask.

Definition size {A} (a : MaskedArray A) : nat := fst (shape a) * snd (shape a).

(** [np.ma.array(values, mask=m)] for [values] of the shape of [like]. *)
Definition with_data {A B} (like : MaskedArray A) (values : list B) (m : list bool)
  : MaskedArray B :=
  array (shape like) values m.

(** [np.ma.ones(shape)], [np.ma.zeros(shape)]: nothing masked. *)
Definition full {A} (sh : nat * nat) (v : A) : MaskedArray A :=
  array sh (repeat v (fst sh * snd sh)) (repeat false (fst sh * snd sh)).

(** [np.ma.mask_or(m1, m2)] *)
Definition mask_or (m1 m2 : list bool) : list bool := zip_with orb m1 m2.

(** [np.logical_and(m1, m2)] *)
Definition logical_and (m1 m2 : list bool) : list bool := zip_with andb m1 m2.

Definition choose {A} (cond : list bool) (xs ys : list A) : list A :=
  zip_with (fun (c : bool) (xy : A * A) => if c then fst xy else snd xy)
           cond (combine xs ys).

(** [np.ma.where(cond, x, y)] for a plain boolean [cond]: values and masks
    are both taken from [x] where [cond] holds and from [y] elsewhere. *)
Definition where_ {A} (cond : list bool) (x y : MaskedArray A) : MaskedArray A :=
  array (shape y) (choose cond (data x) (data y)) (choose cond (mask x) (mask y)).

(** [a.mask = m] *)
Definition set_mask {A} (a : MaskedArray A) (m : list bool) : MaskedArray A :=
  array (shape a) (data a) m.

(** [a[i, j]] at the flat position [k]: [None] stands for the constant
    [np.ma.masked] that numpy returns for a masked element. *)
Definition item {A} (a : MaskedArray A) (k : nat) : result (option A) :=
  match nth_error (data a) k, nth_error (mask a) k with
  | Some v, Some true => Ok None
  | Some v, _ => Ok (Some v)
  | None, _ => Raise IndexError
  end.

(** [a[i, j]] *)
Definition item2 {A} (a : MaskedArray A) (i j : nat) : result (option A) :=
  if (i <? fst (shape a))%nat && (j <? snd (shape a))%nat
  then item a (i * snd (shape a) + j)
  else Raise IndexError.

(** [a[i, j] = v] *)
Definition setitem2 {A} (a : MaskedArray A) (i j : nat) (v : A)
  : result (MaskedArray A) :=
  if (i <? fst (shape a))%nat && (j <? snd (shape a))%nat
  then Ok (array (shape a) (setitem (data a) (i * snd (shape a) + j) v) (mask a))
  else Raise IndexError.

(** [a.compressed()]: the valid values. *)
Definition compressed {A} (a : MaskedArray A) : list A :=
  map fst (filter (fun vm => negb (snd vm)) (combine (data a) (mask a))).

(** [np.ma.count_masked(a)] *)
Definition count_masked {A} (a : MaskedArray A) : nat :=
  List.length (filter (fun b => b) (mask a)).

(** [a.mask.all()] *)
Definition mask_all {A} (a : MaskedArray A) : bool := forallb (fun b => b) (mask a).

(** Elementwise arithmetic of two masked arrays: the result is masked
    where either operand is, and [numpy.ma] puts the data of the first
    operand back there. *)
Definition map2 {A} (f : A -> A -> A) (x y : MaskedArray A) : MaskedArray A :=
  let m := mask_or (mask x) (mask y) in
  array (shape x) (choose m (data x) (zip_with f (data x) (data y))) m.

(** [s op x] for a scalar [s] on the left: the scalar is the first
    operand, and the masked elements of the result hold it. *)
Definition scalar_first {A} (f : A -> A -> A) (s : A) (x : MaskedArray A)
  : MaskedArray A :=
  array (shape x)
        (zip_with (fun (b : bool) v => if b then s else f s v) (mask x) (data x))
        (mask x).

(** [x op s] for a scalar [s] on the right: the masked elements keep
    their data. *)
Definition scalar_second {A} (f : A -> A -> A) (x : MaskedArray A) (s : A)
  : MaskedArray A :=
  array (shape x)
        (zip_with (fun (b : bool) v => if b then v else f v s) (mask x) (data x))
        (mask x).

(** Elementwise arithmetic with a scalar: the mask is kept. *)
Definition map1 {A B} (f : A -> B) (x : MaskedArray A) : MaskedArray B :=
  array (shape x) (map f (data x)) (mask x).

End ma.

(** Python's arithmetic operators are duck-typed: [rgb2ycbcr] and
    [ycbcr2rgb] are applied to channels and to the scalars of a fill value
    alike.  [Arith F T] is what they need of an operand type [T]. *)
Class Arith (F T : Type) : Type := {
  (** [s * x] *)
  smul : F -> T -> T;
  (** [x / s] *)
  sdiv : T -> F -> T;
  (** [x + y] *)
  add : T -> T -> T;
  (** [x - y] *)
  sub : T -> T -> T
}.

#[export] Instance scalar_arith {F} `{Float64 F} : Arith F F := {
  smul := fmul;
  sdiv := fdiv;
  add := fadd;
  sub := fsub
}.

#[export] Instance array_arith {F} `{Float64 F} : Arith F (ma.MaskedArray F) := {
  smul s x := ma.scalar_first fmul s x;
  sdiv x s := ma.scalar_second fdiv x s;
  add := ma.map2 fadd;
  sub := ma.map2 fsub
}.

(** ** Colour-space functions *)

Section Colour.

Context {F : Type} `{Float64 F} {T : Type} `{Arith F T}.

Definition kb_ : F := lit (114 # 1000).
Definition kr_ : F := lit (299 # 1000).

(** The divisors below are expressions in the constants [kb_] and [kr_]
    only. *)
Definition ycbcr2rgb (y__ cb_ cr_ : T) : T * T * T :=
  let r__ := add (sdiv (smul (lit 2) cr_) (fsub (lit 1) kr_)) y__ in
  let b__ := add (sdiv (smul (lit 2) cb_) (fsub (lit 1) kb_)) y__ in
  let g__ := sdiv (sub (sub y__ (smul kr_ r__)) (smul kb_ b__))
                  (fsub (fsub (lit 1) kr_) kb_) in
  (r__, g__, b__).

Definition rgb2ycbcr (r__ g__ b__ : T) : T * T * T :=
  let y__ := add (add (smul kr_ r__) (smul (fsub (fsub (lit 1) kr_) kb_) g__))
                 (smul kb_ b__) in
  let cb_ := smul (fdiv (lit 1) (fmul (lit 2) (fsub (lit 1) kb_))) (sub b__ y__) in
  let cr_ := smul (fdiv (lit 1) (fmul (lit 2) (fsub (lit 1) kr_))) (sub r__ y__) in
  (y__, cb_, cr_).

End Colour.

(** ** The image *)

Record Image (F : Type) : Type := mkImage {
  channels : list (ma.MaskedArray F);
  mode : string;
  width : nat;
  height : nat;
  fill_value : option (list F);
  (** a palette entry is a tuple of elements read from the channels; [None]
      is [np.ma.masked] *)
  palette : option (list (list (option F)));
  shape : nat * nat;
  _secondary_mode : string
}.

Arguments mkImage {F}.

Section Setters.

Context {F : Type}.

Definition set_channels (self : Image F) (chans : list (ma.MaskedArray F)) : Image F :=
  mkImage chans (mode self) (width self) (height self) (fill_value self)
          (palette self) (shape self) (_secondary_mode self).

Definition set_mode (self : Image F) (m : string) : Image F :=
  mkImage (channels self) m (width self) (height self) (fill_value self)
          (palette self) (shape self) (_secondary_mode self).

Definition set_fill_value (self : Image F) (fv : option (list F)) : Image F :=
  mkImage (channels self) (mode self) (width self) (height self) fv
          (palette self) (shape self) (_secondary_mode self).

Definition set_palette (self : Image F) (p : option (list (list (option F)))) : Image F :=
  mkImage (channels self) (mode self) (width self) (height self) (fill_value self)
          p (shape self) (_secondary_mode self).

Definition set_secondary_mode (self : Image F) (m : string) : Image F :=
  mkImage (channels self) (mode self) (width self) (height self) (fill_value self)
          (palette self) (shape self) m.

Definition shape_eqb (s t : nat * nat) : bool :=
  (fst s =? fst t)%nat && (snd s =? snd t)%nat.

Definition no_channels (self : Image F) : bool :=
  match channels self with [] => true | _ => false end.

(** [Image.is_empty] *)
Definition is_empty (self : Image F) : result bool :=
  if (no_channels self && negb (shape_eqb (shape self) (0, 0)%nat))
     || (negb (no_channels self) && shape_eqb (shape self) (0, 0)%nat)
  then Raise RuntimeError
  else Ok (no_channels self && shape_eqb (shape self) (0, 0)%nat).

(** [Image._check_modes] *)
Definition _check_modes (self : Image F) (ms : list string) : result unit :=
  if mode_in (mode self) ms then Ok tt else Raise ValueError.

(** [opt is not None] guarding an update of the fill value. *)
Definition update_fill (self : Image F) (f : list F -> result (list F))
  : result (Image F) :=
  match fill_value self with
  | None => Ok self
  | Some fv => fv' <- f fv ;; Ok (set_fill_value self (Some fv'))
  end.

End Setters.

(** ** Mode conversion *)

Section Convert.

Context {F : Type} `{Float64 F}.

Definition first3 {A} (xs : list A) : result (A * A * A) :=
  x0 <- getitem xs 0 ;; x1 <- getitem xs 1 ;; x2 <- getitem xs 2 ;;
  Ok (x0, x1, x2).

(** [xs[0:3] = (a, b, c)] *)
Definition set_first3 {A} (xs : list A) (t : A * A * A) : list A :=
  let '(a, b, c) := t in a :: b :: c :: skipn 3 xs.

(** [Image._rgb2ycbcr] *)
Definition _rgb2ycbcr (self : Image F) (mode : string) : result (Image F) :=
  _check_modes self ["RGB"; "RGBA"] ;;;
  c <- first3 (channels self) ;;
  let '(c0, c1, c2) := c in
  let '(y, cb, cr) := rgb2ycbcr c0 c1 c2 in
  let self := set_channels self
                (setitem (setitem (setitem (channels self) 0 y) 1 cb) 2 cr) in
  self <- update_fill self (fun fv =>
            f <- first3 fv ;;
            let '(f0, f1, f2) := f in
            Ok (set_first3 fv (rgb2ycbcr f0 f1 f2))) ;;
  Ok (set_mode self mode).

(** [Image._ycbcr2rgb] *)
Definition _ycbcr2rgb (self : Image F) (mode : string) : result (Image F) :=
  _check_modes self ["YCbCr"; "YCbCrA"] ;;;
  c <- first3 (channels self) ;;
  let '(c0, c1, c2) := c in
  let '(r, g, b) := ycbcr2rgb c0 c1 c2 in
  let self := set_channels self
                (setitem (setitem (setitem (channels self) 0 r) 1 g) 2 b) in
  self <- update_fill self (fun fv =>
            f <- first3 fv ;;
            let '(f0, f1, f2) := f in
            Ok (set_first3 fv (ycbcr2rgb f0 f1 f2))) ;;
  Ok (set_mode self mode).

(** [palette[idx] == current_col] on one component: [masked] is equal to
    itself only. *)
Definition component_eqb (x y : option F) : bool :=
  match x, y with
  | None, None => true
  | Some a, Some b => feqb a b
  | _, _ => false
  end.

Fixpoint tuple_eqb (p q : list (option F)) : bool :=
  match p, q with
  | [], [] => true
  | x :: p', y :: q' => component_eqb x y && tuple_eqb p' q'
  | _, _ => false
  end.

(** [next(idx for idx in range(len(palette)) if palette[idx] == col)]:
    [None] is [StopIteration]. *)
Fixpoint find_colour (pal : list (list (option F))) (col : list (option F))
  : option nat :=
  match pal with
  | [] => None
  | entry :: pal' =>
      if tuple_eqb entry col then Some 0%nat
      else option_map S (find_colour pal' col)
  end.

(** The local variables of [_to_p] that its loops update. *)
Record quantizer : Type := mkQuantizer {
  q_palette : list (list (option F));
  q_idx : option nat;
  q_color_nb : nat;
  q_new_chn : ma.MaskedArray F
}.

(** The [try: next(...) except StopIteration: ...] statement.  The value
    of [next(...)] is not assigned: when the colour is found, [idx] keeps
    the value it had. *)
Definition register_colour (st : quantizer) (col : list (option F)) : quantizer :=
  match find_colour (q_palette st) col with
  | Some _ => st
  | None => mkQuantizer (q_palette st ++ [col]) (Some (q_color_nb st))
                        (S (q_color_nb st)) (q_new_chn st)
  end.

Definition read_idx (st : quantizer) : result nat :=
  match q_idx st with
  | Some idx => Ok idx
  | None => Raise UnboundLocalError
  end.

Definition of_nat (n : nat) : F := lit (inject_Z (Z.of_nat n)).

(** The body of the loop over [i] and [j]. *)
Definition quantize_pixel (chans : list (ma.MaskedArray F)) (i j : nat)
           (st : quantizer) : result quantizer :=
  current_col <- for_each chans
                   (fun acc chn => v <- ma.item2 chn i j ;; Ok (acc ++ [v])) [] ;;
  let st := register_colour st current_col in
  idx <- read_idx st ;;
  new_chn <- ma.setitem2 (q_new_chn st) i j (of_nat idx) ;;
  Ok (mkQuantizer (q_palette st) (q_idx st) (q_color_nb st) new_chn).

(** [Image._to_p] *)
Definition _to_p (self : Image F) (mode_ : string) : result (Image F) :=
  let alpha_mode := endswith_A (mode self) in
  let chans := if alpha_mode then drop_last (channels self) else channels self in
  alpha <- (if alpha_mode
            then a <- getitem_int (channels self) (-1) ;; Ok (Some a)
            else Ok None) ;;
  let self := set_secondary_mode self
                (if alpha_mode then strip_last (mode self) else mode self) in
  c0 <- getitem chans 0 ;;
  let selfmask := fold_left (fun m chn => ma.mask_or m (ma.mask chn))
                            (tl chans) (ma.mask c0) in
  let st := mkQuantizer [] None 0 (ma.full (shape self) (lit 0)) in
  st <- for_each (seq 0 (height self))
          (fun st i => for_each (seq 0 (width self))
                         (fun st j => quantize_pixel chans i j st) st) st ;;
  r <- match fill_value self with
       | None => Ok (st, None)
       | Some fv =>
           fill_alpha <- (if alpha_mode
                          then a <- getitem_int fv (-1) ;; Ok [a]
                          else Ok []) ;;
           let current_col :=
             map Some (if alpha_mode then drop_last fv else fv) in
           let st := register_colour st current_col in
           idx <- read_idx st ;;
           Ok (st, Some (of_nat idx :: fill_alpha))
       end ;;
  let '(st, fv) := r in
  let new_chn := ma.set_mask (q_new_chn st) selfmask in
  Ok (mkImage (match alpha with None => [new_chn] | Some a => [new_chn; a] end)
              mode_ (width self) (height self) fv (Some (q_palette st))
              (shape self) (_secondary_mode self)).

(** [cdfs[i][j] = palette[j][i]]: storing [np.ma.masked] in a float array
    stores nan. *)
Definition to_float (x : option F) : F :=
  match x with Some v => v | None => nan end.

(** [np.arange(n)] *)
Definition arange (n : nat) : list F := map of_nat (seq 0 n).

(** [Image._from_p]; [convert] is the method it ends by calling. *)
Definition _from_p (convert : Image F -> string -> result (Image F))
           (self : Image F) (mode_ : string) : result (Image F) :=
  _check_modes self ["P"; "PA"] ;;;
  alpha <- (if endswith_A (mode self)
            then a <- getitem_int (channels self) (-1) ;; Ok (Some a)
            else Ok None) ;;
  color_chan <- getitem (channels self) 0 ;;
  pal <- match palette self with Some p => Ok p | None => Raise TypeError end ;;
  entry0 <- getitem pal 0 ;;
  chans <- for_each (seq 0 (List.length entry0))
             (fun chans i =>
                cdf <- for_each pal
                         (fun cdf entry => v <- getitem entry i ;;
                                           Ok (cdf ++ [to_float v])) [] ;;
                let new_chn :=
                  ma.with_data color_chan
                    (interp (ma.data color_chan) (arange (List.length pal)) cdf)
                    (ma.mask color_chan) in
                Ok (chans ++ [new_chn])) [] ;;
  self <- update_fill self (fun fv =>
            match alpha with
            | Some _ =>
                fill_alpha <- getitem_int fv (-1) ;;
                fill0 <- getitem fv 0 ;;
                index <- py_int fill0 ;;
                entry <- getitem_int pal index ;;
                Ok (map to_float entry ++ [fill_alpha])
            | None =>
                fill0 <- getitem fv 0 ;;
                index <- py_int fill0 ;;
                entry <- getitem_int pal index ;;
                Ok (map to_float entry)
            end) ;;
  let self := set_channels (set_mode self (_secondary_mode self)) chans in
  let self := match alpha with
              | Some a => set_mode (set_channels self (channels self ++ [a]))
                                   (mode self ++ "A")%string
              | None => self
              end in
  convert self mode_.

(** [Image._l2rgb] *)
Definition _l2rgb (self : Image F) (mode_ : string) : result (Image F) :=
  _check_modes self ["L"; "LA"] ;;;
  c0 <- getitem (channels self) 0 ;;
  let chans := channels self ++ [c0] ++ [c0] in
  let self := set_channels self chans in
  let self := set_fill_value self
                (option_map (fun fv => firstn 1 fv ++ firstn 1 fv ++ firstn 1 fv
                                       ++ skipn 1 fv) (fill_value self)) in
  self <- (if mode self =? "LA"
           then c1 <- getitem chans 1 ;;
                c3 <- getitem chans 3 ;;
                Ok (set_channels self (setitem (setitem chans 1 c3) 3 c1))
           else Ok self) ;;
  Ok (set_mode self mode_).

(** [Image._rgb2l] *)
Definition _rgb2l (self : Image F) (mode_ : string) : result (Image F) :=
  _check_modes self ["RGB"; "RGBA"] ;;;
  c <- first3 (channels self) ;;
  let '(r__, g__, b__) := c in
  let y__ := add (add (smul kr_ r__) (smul (fsub (fsub (lit 1) kr_) kb_) g__))
                 (smul kb_ b__) in
  self <- update_fill self (fun fv =>
            f <- first3 fv ;;
            let '(f0, f1, f2) := f in
            Ok (fst (fst (rgb2ycbcr f0 f1 f2)) :: skipn 3 fv)) ;;
  Ok (set_mode (set_channels self (y__ :: skipn 3 (channels self))) mode_).

(** [Image._ycbcr2l] *)
Definition _ycbcr2l (self : Image F) (mode_ : string) : result (Image F) :=
  _check_modes self ["YCbCr"; "YCbCrA"] ;;;
  c0 <- getitem (channels self) 0 ;;
  let self := set_channels self (c0 :: skipn 3 (channels self)) in
  self <- update_fill self (fun fv =>
            f0 <- getitem fv 0 ;; Ok (f0 :: skipn 3 fv)) ;;
  Ok (set_mode self mode_).

(** [Image._l2ycbcr]: the two chroma channels are one array of zeros
    carrying the mask of the luminance. *)
Definition _l2ycbcr (self : Image F) (mode_ : string) : result (Image F) :=
  _check_modes self ["L"; "LA"] ;;;
  luma <- getitem (channels self) 0 ;;
  let zeros := ma.set_mask (ma.full (ma.shape luma) (lit 0)) (ma.mask luma) in
  let self := set_channels self (luma :: zeros :: zeros :: skipn 1 (channels self)) in
  self <- update_fill self (fun fv =>
            f0 <- getitem fv 0 ;; Ok (f0 :: lit 0 :: lit 0 :: skipn 1 fv)) ;;
  Ok (set_mode self mode_).

(** The methods the transition table of [convert] dispatches to. *)
Inductive method : Type :=
| m_rgb2ycbcr | m_rgb2l | m_to_p | m_ycbcr2rgb | m_ycbcr2l
| m_l2rgb | m_l2ycbcr | m_from_p.

(** The dictionary [cases] of [convert]. *)
Definition cases : list (string * list (string * method)) :=
  [ ("RGB",    [("YCbCr", m_rgb2ycbcr); ("L", m_rgb2l); ("P", m_to_p)]);
    ("RGBA",   [("YCbCrA", m_rgb2ycbcr); ("LA", m_rgb2l); ("PA", m_to_p)]);
    ("YCbCr",  [("RGB", m_ycbcr2rgb); ("L", m_ycbcr2l); ("P", m_to_p)]);
    ("YCbCrA", [("RGBA", m_ycbcr2rgb); ("LA", m_ycbcr2l); ("PA", m_to_p)]);
    ("L",      [("RGB", m_l2rgb); ("YCbCr", m_l2ycbcr); ("P", m_to_p)]);
    ("LA",     [("RGBA", m_l2rgb); ("YCbCrA", m_l2ycbcr); ("PA", m_to_p)]);
    ("P",      [("RGB", m_from_p); ("YCbCr", m_from_p); ("L", m_from_p)]);
    ("PA",     [("RGBA", m_from_p); ("YCbCrA", m_from_p); ("LA", m_from_p)]) ].

(** [d[key]]: [None] is [KeyError]. *)
Fixpoint lookup {V} (d : list (string * V)) (key : string) : option V :=
  match d with
  | [] => None
  | (k, v) :: d' => if k =? key then Some v else lookup d' key
  end.

Definition call (convert : Image F -> string -> result (Image F)) (m : method)
  : Image F -> string -> result (Image F) :=
  match m with
  | m_rgb2ycbcr => _rgb2ycbcr
  | m_rgb2l => _rgb2l
  | m_to_p => _to_p
  | m_ycbcr2rgb => _ycbcr2rgb
  | m_ycbcr2l => _ycbcr2l
  | m_l2rgb => _l2rgb
  | m_l2ycbcr => _l2ycbcr
  | m_from_p => _from_p convert
  end.

(** [Image.convert], with the depth of recursion bounded by [fuel]. *)
Fixpoint convert_fuel (fuel : nat) (self : Image F) (mode_ : string)
  : result (Image F) :=
  match fuel with
  | O => Raise RecursionError
  | S fuel' =>
      if mode_ =? mode self then Ok self
      else if negb (mode_in mode_ modes) then Raise ValueError
      else
        empty <- is_empty self ;;
        if empty then Ok (set_mode self mode_)
        else if mode_ =? (mode self ++ "A")%string then
          c0 <- getitem (channels self) 0 ;;
          let self := set_channels self
                        (channels self ++ [ma.full (ma.shape c0) (lit 1)]) in
          let self := set_fill_value self
                        (option_map (fun fv => fv ++ [lit 1]) (fill_value self)) in
          Ok (set_mode self mode_)
        else if (mode_ ++ "A")%string =? mode self then
          let self := set_channels self (drop_last (channels self)) in
          let self := set_fill_value self
                        (option_map (@drop_last F) (fill_value self)) in
          Ok (set_mode self mode_)
        else if endswith_A mode_ && negb (endswith_A (mode self)) then
          self <- convert_fuel fuel' self (mode self ++ "A")%string ;;
          convert_fuel fuel' self mode_
        else if endswith_A (mode self) && negb (endswith_A mode_) then
          self <- convert_fuel fuel' self (strip_last (mode self)) ;;
          convert_fuel fuel' self mode_
        else
          match lookup cases (mode self) with
          | None => Raise ValueError
          | Some row =>
              match lookup row mode_ with
              | None => Raise ValueError
              | Some m => call (convert_fuel fuel') m self mode_
              end
          end
  end.

(** Python's default recursion limit. *)
Definition recursion_limit : nat := 1000.

Definition convert (self : Image F) (mode_ : string) : result (Image F) :=
  convert_fuel recursion_limit self mode_.

End Convert.

(** ** Enhancement *)

(** Keyword arguments: a dictionary from names to Python values. *)
Inductive kwvalue (F : Type) : Type :=
| KNone
| KNum (v : F)
| KSeq (l : list F).

Arguments KNone {F}.
Arguments KNum {F} v.
Arguments KSeq {F} l.

Definition kwargs (F : Type) : Type := list (string * kwvalue F).

(** [d.update(kw)]: the entries of [kw] come first and [lookup] returns the
    first entry of a key. *)
Definition update {F} (d kw : kwargs F) : kwargs F := kw ++ d.

(** A call [f(ch_nb, **kw)] raises [TypeError] unless every keyword is a
    parameter of [f] not bound otherwise. *)
Definition accepts {F} (parameters : list string) (kw : kwargs F) : bool :=
  forallb (fun kv => mode_in (fst kv) parameters) kw.

Definition keyword {F} (kw : kwargs F) (name : string) (default : kwvalue F)
  : kwvalue F :=
  match lookup kw name with Some v => v | None => default end.

(** The argument of [Image.gamma]. *)
Inductive gamma_arg (F : Type) : Type :=
| GNum (g : F)
| GSeq (l : list F)   (* a list or a tuple *)
| GSet (l : list F).

Arguments GNum {F} g.
Arguments GSeq {F} l.
Arguments GSet {F} l.

(** The argument of [Image.stretch]. *)
Inductive stretch_arg (F : Type) : Type :=
| SSeq (l : list F)   (* a list or a tuple *)
| SStr (s : string)
| SOther.

Arguments SSeq {F} l.
Arguments SStr {F} s.
Arguments SOther {F}.

(** The argument of [Image.invert]. *)
Inductive invert_arg : Type :=
| IBool (b : bool)
| ISeq (l : list bool).   (* a list or a tuple, read for truth *)

Section Enhance.

Context {F : Type} `{Float64 F}.

(** The module [numexpr] when it can be imported, [None] otherwise:
    [ne d g] is the element that
    [ne.evaluate("data ** (1.0 / gamma)")] computes from an element [d] of
    [data] and [gamma = g]. *)
Variable ne : option (F -> F -> F).

(** [self.channels[i] = f(self.channels[i])] *)
Definition update_channel (self : Image F) (i : nat)
           (f : ma.MaskedArray F -> result (ma.MaskedArray F)) : result (Image F) :=
  chn <- getitem (channels self) i ;;
  chn' <- f chn ;;
  Ok (set_channels self (setitem (channels self) i chn')).

(** [chn >= 0] on one element: it is false of [nan]. *)
Definition not_negative (v : F) : bool := fltb (lit 0) v || feqb v (lit 0).

(** The last branch of the loop of [Image.gamma], for a channel that is
    not a masked array but a plain [ndarray], given by its values:
    [np.where(chn >= 0, chn ** (1.0 / gamma), chn)].  The quotient is
    Python's, whatever [ne] is. *)
Definition gamma_ndarray (gamma_ : F) (values : list F) : result (list F) :=
  e <- py_div (lit 1) gamma_ ;;
  Ok (map (fun v => if not_negative v then fpow v e else v) values).

(** One round of the loop of [Image.gamma] on a channel that is a masked
    array, as every channel of an [Image] is here: the constructor,
    [convert], [putalpha] and the other methods build masked arrays.
    [gamma_ndarray] is the branch for the other channels. *)
Definition gamma_channel (gamma_list : list (gamma_arg F)) (self : Image F) (i : nat)
  : result (Image F) :=
  g <- getitem gamma_list i ;;
  gamma_ <- match g with GNum v => Ok v | _ => Raise TypeError end ;;
  if fltb gamma_ (lit 0) then Raise ValueError
  else if feqb gamma_ (lit 1) then Ok self
  else
    update_channel self i (fun chn =>
      match ne with
      | Some evaluate =>
          Ok (ma.with_data chn (map (fun d => evaluate d gamma_) (ma.data chn))
                           (ma.mask chn))
      | None =>
          e <- py_div (lit 1) gamma_ ;;
          Ok (ma.with_data chn (map (fun d => fpow d e) (ma.data chn)) (ma.mask chn))
      end).

(** [Image.gamma] *)
Definition gamma (self : Image F) (g : gamma_arg F) : result (Image F) :=
  let n := List.length (channels self) in
  let bad_length := match g with
                    | GSeq l | GSet l => negb (List.length l =? n)%nat
                    | GNum _ => false
                    end in
  if bad_length then Raise ValueError
  else
    let gamma_list := match g with
                      | GSeq l => map GNum l
                      | _ => repeat g n
                      end in
    for_each (seq 0 n) (gamma_channel gamma_list) self.

Definition valid_min (chn : ma.MaskedArray F) : option F :=
  match ma.compressed chn with [] => None | vs => Some (amin vs) end.

Definition valid_max (chn : ma.MaskedArray F) : option F :=
  match ma.compressed chn with [] => None | vs => Some (amax vs) end.

(** [chn.min() == chn.max()], false when the comparison is masked. *)
Definition min_eq_max (chn : ma.MaskedArray F) : bool :=
  match valid_min chn, valid_max chn with
  | Some lo, Some hi => feqb lo hi
  | _, _ => false
  end.

Definition all_masked (chn : ma.MaskedArray F) : bool :=
  (ma.size chn =? ma.count_masked chn)%nat.

Definition subscript (v : kwvalue F) (i : nat) : result F :=
  match v with
  | KSeq l => getitem l i
  | _ => Raise TypeError
  end.

(** [Image.stretch_linear] *)
Definition stretch_linear (self : Image F) (ch_nb : nat) (cutoffs : kwvalue F)
  : result (Image F) :=
  update_channel self ch_nb (fun arr =>
    if all_masked arr || min_eq_max arr then Ok arr
    else
      let carr := ma.compressed arr in
      c0 <- subscript cutoffs 0 ;;
      c1 <- subscript cutoffs 1 ;;
      match percentile carr [fmul c0 (lit 100); fsub (lit 100) (fmul c1 (lit 100))] with
      | [left_; right_] =>
          let delta_x := fsub right_ left_ in
          if fltb (lit 0) delta_x
          then Ok (ma.with_data arr
                     (map (fun v => fdiv (fsub v left_) delta_x) (ma.data arr))
                     (ma.mask arr))
          else Ok arr
      | _ => Raise ValueError
      end).

(** [res[~res.mask] = values]: the valid positions receive [values] in
    order; [np.ma.empty_like] leaves the other positions undetermined, and
    they keep their old value here. *)
Fixpoint scatter (old : list F) (m : list bool) (values : list F) : list F :=
  match old, m with
  | d :: old', true :: m' => d :: scatter old' m' values
  | d :: old', false :: m' =>
      match values with
      | v :: values' => v :: scatter old' m' values'
      | [] => d :: scatter old' m' []
      end
  | _, _ => []
  end.

(** [Image.stretch_hist_equalize] *)
Definition stretch_hist_equalize (self : Image F) (ch_nb : nat) : result (Image F) :=
  update_channel self ch_nb (fun arr =>
    if all_masked arr then Ok arr
    else
      let carr := ma.compressed arr in
      let cdf := map (fun k => lit (inject_Z (Z.of_nat k) / 2048)) (seq 0 2048) in
      let bins := percentile carr (map (fun c => fmul c (lit 100)) cdf) in
      Ok (ma.with_data arr (scatter (ma.data arr) (ma.mask arr) (interp carr bins cdf))
                       (ma.mask arr))).

(** [Image.stretch_logarithmic]; [np.log] of a masked array also masks
    the elements that are not positive. *)
Definition stretch_logarithmic (self : Image F) (ch_nb : nat) (factor : kwvalue F)
  : result (Image F) :=
  update_channel self ch_nb (fun arr =>
    if all_masked arr || min_eq_max arr then Ok arr
    else
      match factor, valid_min arr, valid_max arr with
      | KNum factor, Some lo, Some hi =>
          let b__ := fdiv (fsub (lit 1) (lit 0)) (flog factor) in
          let c__ := lit 0 in
          slope <- py_div (fsub factor (lit 1)) (fsub hi lo) ;;
          let scaled := map (fun v => fadd (lit 1) (fmul (fsub v lo) slope))
                            (ma.data arr) in
          Ok (ma.with_data arr
                (map (fun x => fadd c__ (fmul b__ (flog x))) scaled)
                (ma.mask_or (ma.mask arr)
                   (map (fun x => fltb x (lit 0) || feqb x (lit 0)) scaled)))
      | _, _, _ => Raise TypeError
      end).

(** [min_stretch] or [max_stretch] after its two tests: [None] is
    [np.ma.masked], the minimum of a channel with no valid value. *)
Definition bound (given : kwvalue F) (own : option F) (ch_nb : nat)
  : result (option F) :=
  match given with
  | KNone => Ok own
  | KNum v => Ok (Some v)
  | KSeq l => v <- getitem l ch_nb ;; Ok (Some v)
  end.

(** [Image.crude_stretch] *)
Definition crude_stretch (self : Image F) (ch_nb : nat)
           (min_stretch max_stretch : kwvalue F) : result (Image F) :=
  update_channel self ch_nb (fun chn =>
    lo <- bound min_stretch (valid_min chn) ch_nb ;;
    hi <- bound max_stretch (valid_max chn) ch_nb ;;
    match lo, hi with
    | Some lo, Some hi =>
        if negb (ma.mask_all chn) && fltb (lit 0) (fabs (fsub hi lo))
        then Ok (ma.with_data chn
                   (map (fun v => fdiv (fsub v lo) (fsub hi lo)) (ma.data chn))
                   (ma.mask chn))
        else Ok chn
    | _, _ => Ok chn
    end).

Definition str_in (s : string) (names : list string) : bool := mode_in s names.

(** [Image.stretch] *)
Definition stretch (self : Image F) (stretch_ : stretch_arg F) (kw : kwargs F)
  : result (Image F) :=
  let ch_len := (List.length (channels self)
                 - (if endswith_A (mode self) then 1 else 0))%nat in
  let each (f : Image F -> nat -> result (Image F)) :=
    for_each (seq 0 ch_len) f self in
  match stretch_ with
  | SSeq l =>
      if (List.length l =? 2)%nat
      then each (fun self i =>
                   if accepts [] kw then stretch_linear self i (KSeq l)
                   else Raise TypeError)
      else Raise ValueError
  | SStr s =>
      if s =? "linear" then
        each (fun self i =>
                if accepts ["cutoffs"] kw
                then stretch_linear self i
                       (keyword kw "cutoffs" (KSeq [lit (5 # 1000); lit (5 # 1000)]))
                else Raise TypeError)
      else if s =? "histogram" then
        each (fun self i =>
                if accepts [] kw then stretch_hist_equalize self i
                else Raise TypeError)
      else if str_in s ["crude"; "crude-stretch"] then
        each (fun self i =>
                if accepts ["min_stretch"; "max_stretch"] kw
                then crude_stretch self i (keyword kw "min_stretch" KNone)
                                   (keyword kw "max_stretch" KNone)
                else Raise TypeError)
      else if str_in s ["log"; "logarithmic"] then
        each (fun self i =>
                if accepts ["factor"] kw
                then stretch_logarithmic self i (keyword kw "factor" (KNum (lit 100)))
                else Raise TypeError)
      else if s =? "no" then Ok self
      else Raise ValueError
  | SOther => Raise TypeError
  end.

(** [1 - chn]: the masked elements of the result hold the first operand,
    [1]. *)
Definition inverted (chn : ma.MaskedArray F) : ma.MaskedArray F :=
  ma.scalar_first fsub (lit 1) chn.

(** [Image.invert] *)
Definition invert (self : Image F) (invert_ : invert_arg) : result (Image F) :=
  match invert_ with
  | ISeq l =>
      if negb (List.length (channels self) =? List.length l)%nat
      then Raise ValueError
      else Ok (set_channels self
                 (zip_with (fun chn (b : bool) => if b then inverted chn else chn)
                           (channels self) l))
  | IBool true => Ok (set_channels self (map inverted (channels self)))
  | IBool false => Ok self
  end.

(** [Image.enhance]; [stretch_parameters] is [None] or a dictionary. *)
Definition enhance (self : Image F) (inverse : invert_arg) (gamma_ : gamma_arg F)
           (stretch_ : stretch_arg F) (stretch_parameters : option (kwargs F))
           (kw : kwargs F) : result (Image F) :=
  self <- invert self inverse ;;
  let stretch_parameters :=
    match stretch_parameters with None => [] | Some d => d end in
  let stretch_parameters := update stretch_parameters kw in
  self <- stretch self stretch_ stretch_parameters ;;
  gamma self gamma_.

End Enhance.

(** ** Finalization and merging *)

Section Finalize.

Context {F : Type} `{Float64 F}.

Fixpoint map_result {A B} (f : A -> result B) (xs : list A) : result (list B) :=
  match xs with
  | [] => Ok []
  | x :: xs' => y <- f x ;; ys <- map_result f xs' ;; Ok (y :: ys)
  end.

(** [np.iinfo(np.uint8).max] *)
Definition uint8_max : F := lit 255.

(** One element of a finalized channel. *)
Definition final_value (v : F) : Z :=
  to_uint8 (fround (fmul (clip1 (lit 0) (lit 1) v) uint8_max)).

(** One entry of the finalized fill value. *)
Definition final_fill (col : F) : result Z := py_int (fmul col uint8_max).

(** [Image._finalize] for the default [dtype=np.uint8]: the image after
    the call, and the pair the method returns. *)
Definition _finalize (self : Image F)
  : result (Image F * (list (ma.MaskedArray Z) * option (list Z))) :=
  self <- (if mode self =? "P" then convert self "RGB" else Ok self) ;;
  self <- (if mode self =? "PA" then convert self "RGBA" else Ok self) ;;
  let chans := map (ma.map1 final_value) (channels self) in
  fv <- match fill_value self with
        | Some fv => l <- map_result final_fill fv ;; Ok (Some l)
        | None => Ok None
        end ;;
  Ok (self, (chans, fv)).

(** One round of the second loop of [Image.merge]. *)
Definition merge_channel (selfmask : list bool) (mine theirs : ma.MaskedArray F)
  : ma.MaskedArray F :=
  ma.set_mask (ma.where_ selfmask theirs mine)
              (ma.logical_and selfmask (ma.mask theirs)).

(** [for i in range(len(self.channels))]: [img.channels[i]] raises
    [IndexError] when [img] has fewer channels. *)
Fixpoint merge_channels (selfmask : list bool) (mine theirs : list (ma.MaskedArray F))
  : result (list (ma.MaskedArray F)) :=
  match mine with
  | [] => Ok []
  | c :: mine' =>
      match theirs with
      | [] => Raise IndexError
      | o :: theirs' =>
          rest <- merge_channels selfmask mine' theirs' ;;
          Ok (merge_channel selfmask c o :: rest)
      end
  end.

(** The mask [selfmask] that [Image.merge] computes. *)
Definition merge_mask (c0 : ma.MaskedArray F) (rest : list (ma.MaskedArray F))
  : list bool :=
  fold_left (fun m chn => ma.mask_or m (ma.mask chn)) rest (ma.mask c0).

(** [Image.merge] *)
Definition merge (self img : Image F) : result (Image F) :=
  empty <- is_empty self ;;
  if empty then Raise ValueError
  else if negb (mode self =? mode img) then Raise ValueError
  else
    c0 <- getitem (channels self) 0 ;;
    let selfmask := merge_mask c0 (tl (channels self)) in
    chans <- merge_channels selfmask (channels self) (channels img) ;;
    Ok (set_channels self chans).

End Finalize.

(** ** Construction *)

(** What a caller passes as a channel. *)
Inductive array_like (F : Type) : Type :=
| Masked (a : ma.MaskedArray F)               (* a masked array *)
| Plain (sh : nat * nat) (values : list F)    (* an ndarray, or nested lists *)
| NotArray.                                   (* anything else *)

Arguments Masked {F} a.
Arguments Plain {F} sh values.
Arguments NotArray {F}.

(** The argument [channels]: [CArray NotArray] is an object that is none of
    tuple, set, list and array. *)
Inductive channels_arg (F : Type) : Type :=
| CNone
| CSeq (l : list (array_like F))   (* a list or a tuple *)
| CSet (n : nat)                   (* a set of [n] elements *)
| CArray (a : array_like F).

Arguments CNone {F}.
Arguments CSeq {F} l.
Arguments CSet {F} n.
Arguments CArray {F} a.

(** A number, or a list or tuple of such values: the argument
    [color_range]. *)
#[warnings="-register-all"]
Inductive pyvalue (F : Type) : Type :=
| Num (v : F)
| Seq (items : list (pyvalue F)).

Arguments Num {F} v.
Arguments Seq {F} items.

(** The argument [fill_value]. *)
Inductive fill_arg (F : Type) : Type :=
| FNone
| FSeq (l : list F)   (* a tuple, a list or a set *)
| FScalar (v : F).

Arguments FNone {F}.
Arguments FSeq {F} l.
Arguments FScalar {F} v.

Section Init.

Context {F : Type} `{Float64 F}.

Definition is_seq (v : pyvalue F) : bool :=
  match v with Seq _ => true | Num _ => false end.

(** [_is_pair] *)
Definition _is_pair (item : pyvalue F) : bool :=
  match item with
  | Seq [a; b] => negb (is_seq a) && negb (is_seq b)
  | _ => false
  end.

(** [_is_list_of_pairs]: iterating over a number raises [TypeError]. *)
Definition _is_list_of_pairs (the_list : pyvalue F) : result bool :=
  match the_list with
  | Seq l => Ok (forallb _is_pair l)
  | Num _ => Raise TypeError
  end.

(** [len(v)] *)
Definition len (v : pyvalue F) : result nat :=
  match v with
  | Seq l => Ok (List.length l)
  | Num _ => Raise TypeError
  end.

(** [v[i]] *)
Definition index (v : pyvalue F) (i : nat) : result (pyvalue F) :=
  match v with
  | Seq l => getitem l i
  | Num _ => Raise TypeError
  end.

Definition array_shape (a : array_like F) : result (nat * nat) :=
  match a with
  | Masked m => Ok (ma.shape m)
  | Plain sh _ => Ok sh
  | NotArray => Raise AttributeError
  end.

(** [Image._add_channel] for numbers [color_min] and [color_max]: the
    new channel. *)
Definition _add_channel (chn : array_like F) (color_min color_max : F)
  : result (ma.MaskedArray F) :=
  let scale := map (fun v => fdiv (fmul (fsub v color_min) (lit 1))
                                  (fsub color_max color_min)) in
  match chn with
  | Masked m => Ok (ma.array (ma.shape m) (scale (ma.data m)) (ma.mask m))
  | Plain sh values =>
      Ok (ma.array sh (scale values) (repeat false (List.length values)))
  | NotArray => Raise TypeError
  end.

(** [Image._add_channel] for the bounds read from [color_range], which
    may be pairs when a single array is given together with a list of
    pairs: subtracting a pair from the array fails unless it broadcasts
    along two columns or one, and then the difference of the two pairs
    fails. *)
Definition add_channel_ranged (chn : array_like F) (color_min color_max : pyvalue F)
  : result (ma.MaskedArray F) :=
  match color_min, color_max with
  | Num lo, Num hi => _add_channel chn lo hi
  | Seq items, _ =>
      sh <- array_shape chn ;;
      if (snd sh =? List.length items)%nat || (snd sh =? 1)%nat
         || (List.length items =? 1)%nat
      then Raise TypeError else Raise ValueError
  | Num _, Seq _ => Raise TypeError
  end.

(** The three tests of [color_range] in [__init__]. *)
Definition check_color_range (color_range : option (pyvalue F))
           (len_channels : option nat) (mode_ : string) : result unit :=
  match color_range with
  | None => Ok tt
  | Some cr =>
      bad <- (if _is_pair cr then Ok false
              else lp <- _is_list_of_pairs cr ;; Ok (negb lp)) ;;
      if bad then Raise ValueError
      else
        lp <- _is_list_of_pairs cr ;;
        n <- len cr ;;
        if lp && match len_channels with
                 | None => true
                 | Some k => negb (n =? k)%nat
                 end
        then Raise ValueError
        else if ((mode_ =? "L") || (mode_ =? "P")) && negb (_is_pair cr)
                && negb (n =? count_upper mode_)%nat
        then Raise ValueError
        else Ok tt
  end.

(** One round of the loop over [enumerate(channels)]: the channels so
    far and [self.shape]. *)
Definition init_channel (color_range : option (pyvalue F))
           (st : list (ma.MaskedArray F) * option (nat * nat))
           (ichn : nat * array_like F)
  : result (list (ma.MaskedArray F) * option (nat * nat)) :=
  let '(i, chn) := ichn in
  new <- match color_range with
         | Some cr =>
             item <- index cr i ;;
             color_min <- index item 0 ;;
             color_max <- index item 1 ;;
             add_channel_ranged chn color_min color_max
         | None => _add_channel chn (lit 0) (lit 1)
         end ;;
  let chans := fst st ++ [new] in
  first <- getitem chans 0 ;;
  if shape_eqb (ma.shape new) (ma.shape first)
  then Ok (chans, Some (ma.shape new))
  else Raise ValueError.

Definition is_array (a : array_like F) : bool :=
  match a with NotArray => false | _ => true end.

(** [Image.__init__]; the argument [copy] has no effect on the result. *)
Definition __init__ (channels_ : channels_arg F) (mode_ : string)
           (color_range : option (pyvalue F)) (fill_value_ : fill_arg F)
           (palette_ : option (list (list (option F)))) : result (Image F) :=
  (match channels_ with CArray NotArray => Raise TypeError | _ => Ok tt end) ;;;
  (match channels_ with
   | CSeq l => if negb (List.length l =? count_upper mode_)%nat
               then Raise ValueError else Ok tt
   | _ => Ok tt
   end) ;;;
  (if negb (mode_in mode_ modes) then Raise ValueError else Ok tt) ;;;
  len_channels <- match channels_ with
                  | CNone => Ok None
                  | CSeq l => Ok (Some (List.length l))
                  | CSet n => Ok (Some n)
                  | CArray a => Ok (match array_shape a with
                                    | Ok sh => Some (fst sh)
                                    | Raise _ => None
                                    end)
                  end ;;
  check_color_range color_range len_channels mode_ ;;;
  let fv := match fill_value_ with
            | FSeq l => Some l
            | FScalar v => Some [v]
            | FNone => None
            end in
  match channels_ with
  | CSeq l =>
      if forallb is_array l then
        st <- for_each (combine (seq 0 (List.length l)) l)
                (init_channel color_range) ([], None) ;;
        match snd st with
        | Some sh => Ok (mkImage (fst st) mode_ (snd sh) (fst sh) fv palette_ sh "RGB")
        | None => Raise TypeError
        end
      else Raise ValueError
  | CNone => Ok (mkImage [] mode_ 0 0 fv palette_ (0, 0)%nat "RGB")
  | CSet _ => Raise AttributeError
  | CArray chn =>
      sh <- array_shape chn ;;
      new <- match color_range with
             | Some cr =>
                 color_min <- index cr 0 ;;
                 color_max <- index cr 1 ;;
                 add_channel_ranged chn color_min color_max
             | None => _add_channel chn (lit 0) (lit 1)
             end ;;
      Ok (mkImage [new] mode_ (snd sh) (fst sh) fv palette_ sh "RGB")
  end.

End Init.

(** ** Exact rational arithmetic *)

Module exact.

Open Scope Q_scope.

Definition ltb (x y : Q) : bool := negb (Qle_bool y x).

(** Truncation towards zero. *)
Definition trunc (x : Q) : Z := if ltb x 0 then Qceiling x else Qfloor x.

(** Rounding to the nearest integer, ties to the even one. *)
Definition round_half_even (x : Q) : Z :=
  let f := Qfloor x in
  let r := x - inject_Z f in
  if ltb r (1 # 2) then f
  else if ltb (1 # 2) r then (f + 1)%Z
  else if Z.even f then f else (f + 1)%Z.

(** [x ** y] for an integer [y]: the power of a rational is not rational
    at other exponents, where this is the power at the floor of [y]. *)
Definition pow_integral (x y : Q) : Q := Qpower x (Qfloor y).

(** [np.interp] at one abscissa [x], to the right of the knot [(x0, y0)]. *)
Fixpoint interp_from (x x0 y0 : Q) (xp fp : list Q) : Q :=
  match xp, fp with
  | x1 :: xp', y1 :: fp' =>
      if Qle_bool x1 x then interp_from x x1 y1 xp' fp'
      else if Qeq_bool x x0 then y0
      else (y1 - y0) / (x1 - x0) * (x - x0) + y0
  | _, _ => y0
  end.

(** [np.interp] at one abscissa, for increasing knots [xp]: the value at
    the first or last knot outside of them, the knot's value at a knot and
    the linear interpolation between two knots. *)
Definition interp1 (xp fp : list Q) (x : Q) : Q :=
  match xp, fp with
  | x0 :: xp', y0 :: fp' => if Qle_bool x x0 then y0 else interp_from x x0 y0 xp' fp'
  | _, _ => 0
  end.

Fixpoint insert (x : Q) (xs : list Q) : list Q :=
  match xs with
  | [] => [x]
  | y :: xs' => if Qle_bool x y then x :: xs else y :: insert x xs'
  end.

Definition sort (xs : list Q) : list Q := fold_right insert [] xs.

(** [np.percentile] at one percentage [q], by linear interpolation
    between the two nearest ranks of the sorted values. *)
Definition percentile1 (a : list Q) (q : Q) : Q :=
  let s := sort a in
  let rank := q / 100 * inject_Z (Z.of_nat (List.length s - 1)) in
  let j := Z.to_nat (Qfloor rank) in
  let g := rank - inject_Z (Qfloor rank) in
  let lo := nth j s 0 in
  let hi := nth (Nat.min (S j) (List.length s - 1)) s 0 in
  lo + g * (hi - lo).

Definition minimum (xs : list Q) : Q :=
  match xs with
  | [] => 0
  | x :: xs' => fold_left (fun m v => if ltb v m then v else m) xs' x
  end.

Definition maximum (xs : list Q) : Q :=
  match xs with
  | [] => 0
  | x :: xs' => fold_left (fun m v => if ltb m v then v else m) xs' x
  end.

End exact.

(** The interpretation of [Float64] in the rationals.  Every operation is
    exact where its result is rational: a sum or a product is not rounded
    to a double, so a theorem proved for [exactQ] is a theorem about exact
    arithmetic, and says so.  [**] and [np.log] leave the rationals and
    are parameters; a division by zero and [nan] have no rational value
    and are [0]: no theorem below is about a quotient whose divisor is
    zero. *)
Definition exactQ (pow : Q -> Q -> Q) (log : Q -> Q) : Float64 Q := {|
  lit := fun q => q;
  fadd := Qplus;
  fsub := Qminus;
  fmul := Qmult;
  fdiv := Qdiv;
  fpow := pow;
  flog := log;
  fabs := Qabs;
  feqb := Qeq_bool;
  fltb := exact.ltb;
  fround := fun x => inject_Z (exact.round_half_even x);
  to_uint8 := fun x => (exact.trunc x mod 256)%Z;
  py_int := fun x => Ok (exact.trunc x);
  nan := 0%Q;
  interp := fun x xp fp => map (exact.interp1 xp fp) x;
  percentile := fun a q => map (exact.percentile1 a) q;
  amin := exact.minimum;
  amax := exact.maximum
|}.

(** The instance used to evaluate the methods on concrete images: powers
    at integral exponents, and the logarithm at [1]. *)
Definition rationals : Float64 Q := exactQ exact.pow_integral (fun _ => 0%Q).

#[export] Existing Instance rationals.

(** ** Concrete images *)

Module example.

Open Scope Q_scope.

(** A channel of one pixel. *)
Definition px (v : Q) (m : bool) : ma.MaskedArray Q := ma.array (1, 1)%nat [v] [m].

(** [Image([L, A], "LA")] of one pixel: luminance 1/2, alpha masked. *)
Definition la_half : Image Q :=
  mkImage [px (1 # 2) false; px 1 true] "LA" 1 1 None None (1, 1)%nat "RGB".


(** [Image([[0, 1, 0]], "L")]: a row of three valid pixels. *)
Definition l_row : Image Q :=
  mkImage [ma.array (1, 3)%nat [0; 1; 0] [false; false; false]]
          "L" 3 1 None None (1, 3)%nat "RGB".

(** [Image([L, A], "LA")] of one pixel: luminance 1/2, alpha 1/4. *)
Definition la_quarter : Image Q :=
  mkImage [px (1 # 2) false; px (1 # 4) false] "LA" 1 1 None None (1, 1)%nat "RGB".

(** [Image([index], "P", palette=[(0, 0, 0), (1, 1, 1)])]: two pixels
    indexing black and white. *)
Definition p_pair : Image Q :=
  mkImage [ma.array (1, 2)%nat [0; 1] [false; false]] "P" 2 1 None
          (Some [[Some 0; Some 0; Some 0]; [Some 1; Some 1; Some 1]])
          (1, 2)%nat "RGB".

(** [Image([L, A], "LA", fill_value=(1/2, 2))] of one pixel: luminance
    1/2 and alpha 1. *)
Definition la_filled : Image Q :=
  mkImage [px (1 # 2) false; px 1 false] "LA" 1 1 (Some [1 # 2; 2]) None
          (1, 1)%nat "RGB".

(** [Image([R, G, B], "RGB")] of one pixel: pure red. *)
Definition rgb_red : Image Q :=
  mkImage [px 1 false; px 0 false; px 0 false] "RGB" 1 1 None None (1, 1)%nat "RGB".

End example.

(** ** Observations on images *)

Section Observations.

Context {F : Type}.



(** The value and the mask bit of channel [i] at position [k]. *)
Definition pixel (chans : list (ma.MaskedArray F)) (i k : nat) : option (F * bool) :=
  match nth_error chans i with
  | Some c =>
      match nth_error (ma.data c) k, nth_error (ma.mask c) k with
      | Some v, Some m => Some (v, m)
      | _, _ => None
      end
  | None => None
  end.

(** What [stretch] keeps of the image it is called on: the mode, the number
    of channels, and every channel from index [ch_len] on. *)
Definition stretch_frame (ch_len : nat) (self s : Image F) : Prop :=
  mode s = mode self /\
  List.length (channels s) = List.length (channels self) /\
  forall j, (ch_len <= j)%nat -> nth_error (channels s) j = nth_error (channels self) j.

End Observations.

Section EnhanceObservations.

Context {F : Type} `{Float64 F}.

(** The channel that [gamma] puts in the place of [chn] for an exponent
    [g] other than 1: [data ** (1.0 / g)] under the mask of [chn]. *)
Definition gamma_corrected (ne : option (F -> F -> F)) (g : F) (chn : ma.MaskedArray F)
  : ma.MaskedArray F :=
  ma.with_data chn
    (map (fun d => match ne with
                   | Some evaluate => evaluate d g
                   | None => fpow d (fdiv (lit 1) g)
                   end) (ma.data chn))
    (ma.mask chn).

(** The keyword arguments that [enhance] passes to [stretch]:
    [stretch_parameters], or an empty dictionary for [None], updated with
    the extra keywords of the call. *)
Definition stretch_keywords (stretch_parameters : option (kwargs F)) (kw : kwargs F)
  : kwargs F :=
  update (match stretch_parameters with None => [] | Some d => d end) kw.

(** The pipeline [enhance] is specified as: [invert], then [stretch], then
    [gamma], each on the image the previous call left. *)
Definition invert_stretch_gamma (ne : option (F -> F -> F)) (self : Image F)
           (inverse : invert_arg) (gamma_ : gamma_arg F) (stretch_ : stretch_arg F)
           (params : kwargs F) : result (Image F) :=
  inverted_image <- invert self inverse ;;
  stretched_image <- stretch inverted_image stretch_ params ;;
  gamma ne stretched_image gamma_.

End EnhanceObservations.

Section AlphaObservations.

Context {F : Type} `{Float64 F}.

(** [np.ma.ones] of the shape of the first channel: ones everywhere,
    nothing masked. *)
Definition ones_like_first (chans : list (ma.MaskedArray F)) : ma.MaskedArray F :=
  ma.full (match chans with c0 :: _ => ma.shape c0 | [] => (0, 0)%nat end) (lit 1).

(** [alpha] is a channel of the shape of [like] that is 1 everywhere
    and valid everywhere. *)
Definition ones_channel (like alpha : ma.MaskedArray F) : Prop :=
  ma.shape alpha = ma.shape like /\
  ma.data alpha = repeat (lit 1) (ma.size like) /\
  ma.mask alpha = repeat false (ma.size like).

(** The image with one more channel of ones, one more fill entry [1] and
    an "A" at the end of its mode: nothing else differs. *)
Definition alpha_added (self : Image F) : Image F :=
  mkImage (channels self ++ [ones_like_first (channels self)])
          (mode self ++ "A")%string (width self) (height self)
          (option_map (fun fv => fv ++ [lit 1]) (fill_value self))
          (palette self) (shape self) (_secondary_mode self).

(** The image without its last channel and its last fill entry, in mode
    [m]: nothing else differs. *)
Definition alpha_dropped (self : Image F) (m : string) : Image F :=
  mkImage (drop_last (channels self)) m (width self) (height self)
          (option_map (@drop_last F) (fill_value self))
          (palette self) (shape self) (_secondary_mode self).

End AlphaObservations.

Section Consistency.

Context {F : Type}.

(** The invariant of the data model: a recognised mode, as many channels
    as the mode has capital letters, a fill value (when there is one) of as
    many entries, and, in the indexed modes, palette entries of as many
    components as the mode the palette was derived from has channels. *)
Definition consistent (self : Image F) : Prop :=
  In (mode self) modes /\
  In (_secondary_mode self) ["L"; "RGB"; "YCbCr"] /\
  List.length (channels self) = count_upper (mode self) /\
  (forall fv, fill_value self = Some fv -> List.length fv = count_upper (mode self)) /\
  (mode_in (mode self) ["P"; "PA"] = true ->
   forall pal, palette self = Some pal ->
     Forall (fun entry : list (option F) =>
               List.length entry = count_upper (_secondary_mode self)) pal).

(** The shape of the facts proved of each conversion: the mode of the
    result, and the invariant under a side condition [ok]. *)
Definition sound_step (ok : Prop) (self self' : Image F) (m : string) : Prop :=
  mode self' = m /\ (consistent self -> In m modes -> ok -> consistent self').

(** Every entry of the palette under construction has [n] components. *)
Definition entries_of (n : nat) (st : @quantizer F) : Prop :=
  Forall (fun entry : list (option F) => List.length entry = n) (q_palette st).

(** The fill value that [__init__] stores. *)
Definition stored_fill (fv : fill_arg F) : option (list F) :=
  match fv with
  | FSeq l => Some l
  | FScalar v => Some [v]
  | FNone => None
  end.

End Consistency.

Module finalized.

Open Scope Q_scope.

(** [c] is [v] clipped to the interval from 0 to 1. *)
Definition clipped (v c : Q) : Prop :=
  (v < 0 -> c == 0) /\ (1 < v -> c == 1) /\ (0 <= v <= 1 -> c == v).

(** [z] is the integer nearest to [x], the even one when two integers are
    as near. *)
Definition nearest_even (x : Q) (z : Z) : Prop :=
  Qabs (x - inject_Z z) <= 1 # 2 /\
  (Qabs (x - inject_Z z) == 1 # 2 -> Z.even z = true).

(** [z] is [x] without its fractional part. *)
Definition truncated (x : Q) (z : Z) : Prop :=
  (0 <= x -> inject_Z z <= x /\ x < inject_Z z + 1) /\
  (x < 0 -> inject_Z z - 1 < x /\ x <= inject_Z z).

(** [round(clip(v, 0, 1) * 255)] as an unsigned byte. *)
Definition value (v : Q) (z : Z) : Prop :=
  (0 <= z <= 255)%Z /\ exists c, clipped v c /\ nearest_even (c * 255) z.

(** [int(col * 255)] *)
Definition fill (col : Q) (z : Z) : Prop := truncated (col * 255) z.

End finalized.

Section TableObservations.

Context {F : Type}.

(** The method that [convert] dispatches to when none of its earlier
    branches applies: [None] when one does, or when the table has no
    entry. *)
Definition dispatched (src dst : string) : option method :=
  if dst =? src then None
  else if negb (mode_in dst modes) then None
  else if dst =? (src ++ "A")%string then None
  else if (dst ++ "A")%string =? src then None
  else if endswith_A dst && negb (endswith_A src) then None
  else if endswith_A src && negb (endswith_A dst) then None
  else match lookup cases src with
       | Some row => lookup row dst
       | None => None
       end.

End TableObservations.

(** ** Clipping, alpha and resizing *)

Section Geometry.

Context {F : Type} `{Float64 F}.

(** [Image.clip]; [channels_] is a list or a tuple read for truth, or any
    other object, which stands for every channel. *)
Definition clip (self : Image F) (channels_ : invert_arg) : result (Image F) :=
  let n := List.length (channels self) in
  let flags := match channels_ with
               | ISeq l => l
               | IBool b => repeat b n
               end in
  for_each (seq 0 n)
    (fun self i =>
       flag <- getitem flags i ;;
       if flag
       then update_channel self i
              (fun chn => Ok (ma.map1 (clip1 (lit 0) (lit 1)) chn))
       else Ok self) self.

(** [xs[-1] = v] *)
Definition set_last {A} (xs : list A) (v : A) : result (list A) :=
  match xs with
  | [] => Raise IndexError
  | _ => Ok (drop_last xs ++ [v])
  end.

(** [Image.putalpha] for a 2-D masked array [alpha]. *)
Definition putalpha (self : Image F) (alpha : ma.MaskedArray F) : result (Image F) :=
  if negb ((fst (ma.shape alpha) =? 0)%nat && (fst (shape self) =? 0)%nat)
     && negb (shape_eqb (ma.shape alpha) (shape self))
  then Raise ValueError
  else
    self <- (if negb (endswith_A (mode self))
             then convert self (mode self ++ "A")%string
             else Ok self) ;;
    empty <- is_empty self ;;
    if negb empty
    then chans <- set_last (channels self) alpha ;; Ok (set_channels self chans)
    else Ok self.

(** The rows of a grid of [r] rows and [c] columns stored in row-major
    order. *)
Fixpoint rows {A} (r c : nat) (xs : list A) : list (list A) :=
  match r with
  | O => []
  | S r' => firstn c xs :: rows r' c (skipn c xs)
  end.

(** [np.repeat(xs, [k] * len(xs))]: every element [k] times in a row; a
    negative count is refused. *)
Definition repeat_each {A} (k : Z) (xs : list A) : result (list A) :=
  match xs with
  | [] => Ok []
  | _ => if (k <? 0)%Z then Raise ValueError
         else Ok (flat_map (fun x => repeat x (Z.to_nat k)) xs)
  end.

(** [xs[idxs]] for a list of integer indices. *)
Definition take {A} (idxs : list Z) (xs : list A) : result (list A) :=
  map_result (getitem_int xs) idxs.

(** [chn.repeat([k] * chn.shape[0], axis=0)] *)
Definition repeat_rows (k : Z) (chn : ma.MaskedArray F) : result (ma.MaskedArray F) :=
  let '(r, c) := ma.shape chn in
  d <- repeat_each k (rows r c (ma.data chn)) ;;
  m <- repeat_each k (rows r c (ma.mask chn)) ;;
  Ok (ma.array (r * Z.to_nat k, c)%nat (List.concat d) (List.concat m)).

(** [chn.repeat([k] * chn.shape[1], axis=1)] *)
Definition repeat_columns (k : Z) (chn : ma.MaskedArray F) : result (ma.MaskedArray F) :=
  let '(r, c) := ma.shape chn in
  repeat_each k (repeat tt c) ;;;
  d <- map_result (repeat_each k) (rows r c (ma.data chn)) ;;
  m <- map_result (repeat_each k) (rows r c (ma.mask chn)) ;;
  Ok (ma.array (r, c * Z.to_nat k)%nat (List.concat d) (List.concat m)).

(** [chn[idxs, :]] *)
Definition take_rows (idxs : list Z) (chn : ma.MaskedArray F) : result (ma.MaskedArray F) :=
  let '(r, c) := ma.shape chn in
  d <- take idxs (rows r c (ma.data chn)) ;;
  m <- take idxs (rows r c (ma.mask chn)) ;;
  Ok (ma.array (List.length idxs, c) (List.concat d) (List.concat m)).

(** [chn[:, idxs]]: the indices are checked against the number of
    columns, whatever the number of rows. *)
Definition take_columns (idxs : list Z) (chn : ma.MaskedArray F)
  : result (ma.MaskedArray F) :=
  let '(r, c) := ma.shape chn in
  take idxs (repeat tt c) ;;;
  d <- map_result (take idxs) (rows r c (ma.data chn)) ;;
  m <- map_result (take idxs) (rows r c (ma.mask chn)) ;;
  Ok (ma.array (r, List.length idxs) (List.concat d) (List.concat m)).

Definition of_int (z : Z) : F := lit (inject_Z z).

(** [int(x) != x] *)
Definition not_integral (x : F) : result bool :=
  z <- py_int x ;; Ok (negb (feqb (of_int z) x)).

(** The factor between a wanted size and the size the image has, and
    whether it is a zoom. *)
Definition resize_factor (wanted current : nat) : bool * result F :=
  let zoom := (current <=? wanted)%nat in
  (zoom,
   if zoom then py_div (fmul (of_nat wanted) (lit 1)) (of_nat current)
   else py_div (fmul (of_nat current) (lit 1)) (of_nat wanted)).

(** [[idx * factor for idx in range(int(size / factor))]] *)
Definition decimated (size : nat) (factor : Z) : result (list Z) :=
  q <- py_div (of_nat size) (of_int factor) ;;
  n <- py_int q ;;
  Ok (map (fun idx => (Z.of_nat idx * factor)%Z) (seq 0 (Z.to_nat n))).

(** One round of the loop of [Image.resize]. *)
Definition resize_channel (self : Image F) (zoom : bool * bool) (factor : Z * Z)
           (chn : ma.MaskedArray F) : result (ma.MaskedArray F) :=
  chn <- (if fst zoom then repeat_rows (fst factor) chn
          else idxs <- decimated (height self) (fst factor) ;; take_rows idxs chn) ;;
  if snd zoom then repeat_columns (snd factor) chn
  else idxs <- decimated (width self) (snd factor) ;; take_columns idxs chn.

(** [Image.resize] for a [shape_] of two non-negative integers. *)
Definition resize (self : Image F) (shape_ : nat * nat) : result (Image F) :=
  empty <- is_empty self ;;
  if empty then Raise ValueError
  else
    let '(zoom0, factor0) := resize_factor (fst shape_) (height self) in
    factor0 <- factor0 ;;
    let '(zoom1, factor1) := resize_factor (snd shape_) (width self) in
    factor1 <- factor1 ;;
    bad0 <- not_integral factor0 ;;
    bad <- (if bad0 then Ok true else not_integral factor1) ;;
    if bad then Raise ValueError
    else
      f0 <- py_int factor0 ;;
      f1 <- py_int factor1 ;;
      chans <- map_result (resize_channel self (zoom0, zoom1) (f0, f1)) (channels self) ;;
      c0 <- getitem chans 0 ;;
      Ok (mkImage chans (mode self) (snd (ma.shape c0)) (fst (ma.shape c0))
                  (fill_value self) (palette self) (ma.shape c0)
                  (_secondary_mode self)).

End Geometry.
(** ** Observations on clipping, alpha and resizing *)

Section GeometryObservations.

Context {F : Type} `{Float64 F}.

(** [np.ma.clip(chn, 0.0, 1.0)] *)
Definition clipped_channel (chn : ma.MaskedArray F) : ma.MaskedArray F :=
  ma.map1 (clip1 (lit 0) (lit 1)) chn.

(** The channels after [clip] with a flag for each of them. *)
Definition clip_each (chans : list (ma.MaskedArray F)) (flags : list bool)
  : list (ma.MaskedArray F) :=
  zip_with (fun chn (flag : bool) => if flag then clipped_channel chn else chn)
           chans flags.

End GeometryObservations.

Section ResizeObservations.

Context {F : Type}.

(** A channel is a grid of [h] rows and [w] columns when that is its
    shape and its values and its mask have [h * w] elements. *)
Definition grid (h w : nat) (chn : ma.MaskedArray F) : Prop :=
  ma.shape chn = (h, w) /\
  List.length (ma.data chn) = (h * w)%nat /\
  List.length (ma.mask chn) = (h * w)%nat.

(** An image of [h] rows and [w] columns: its height, width and shape say
    so, and every channel is such a grid. *)
Definition gridded (h w : nat) (self : Image F) : Prop :=
  height self = h /\ width self = w /\ shape self = (h, w) /\
  Forall (grid h w) (channels self).

(** Every element [k] times in a row. *)
Definition each_repeated {A} (k : nat) (xs : list A) : list A :=
  flat_map (fun x => repeat x k) xs.

(** A grid zoomed [k0] times along the rows and [k1] times along the
    columns: every row [k0] times, and in it every element [k1] times. *)
Definition zoomed_grid {A} (k0 k1 h w : nat) (xs : list A) : list A :=
  List.concat (map (each_repeated k1) (each_repeated k0 (rows h w xs))).

(** Every [k]-th element of a list, [n] of them, from the first on. *)
Fixpoint every {A} (k n : nat) (xs : list A) : list A :=
  match n with
  | O => []
  | S n' => firstn 1 xs ++ every k n' (skipn k xs)
  end.

(** A grid of [h * k0] rows and [w * k1] columns decimated to [h] rows
    and [w] columns: every [k0]-th row, and of it every [k1]-th element. *)
Definition decimated_grid {A} (k0 k1 h w : nat) (xs : list A) : list A :=
  List.concat (map (every k1 w) (every k0 h (rows (h * k0) (w * k1) xs))).

Definition decimated_channel (k0 k1 h w : nat) (chn : ma.MaskedArray F) : ma.MaskedArray F :=
  ma.array (h, w) (decimated_grid k0 k1 h w (ma.data chn))
           (decimated_grid k0 k1 h w (ma.mask chn)).

Definition zoomed (k0 k1 : nat) (chn : ma.MaskedArray F) : ma.MaskedArray F :=
  let '(h, w) := ma.shape chn in
  ma.array (h * k0, w * k1)%nat
           (zoomed_grid k0 k1 h w (ma.data chn))
           (zoomed_grid k0 k1 h w (ma.mask chn)).

End ResizeObservations.

Section Elements.

Context {F : Type}.

(** [self.channels[n][i, j]] *)
Definition element (self : Image F) (n i j : nat) : result (option F) :=
  chn <- getitem (channels self) n ;; ma.item2 chn i j.

End Elements.

(** ** Observations on conversions *)

Section ConversionObservations.

Context {A : Type}.

(** The call returned: it raised no exception. *)
Definition returns (r : result A) : bool :=
  match r with
  | Ok _ => true
  | Raise _ => false
  end.

End ConversionObservations.

(** The modes whose channels hold colour values: all but P and PA. *)
Definition direct_modes : list string :=
  ["L"; "LA"; "RGB"; "RGBA"; "YCbCr"; "YCbCrA"].

(** Images over the rationals compared as rationals: [1 # 2] and [2 # 4]
    are the same number. *)
Module same.

(** The same shape, the same mask and equal values. *)
Definition grid (c c' : ma.MaskedArray Q) : Prop :=
  ma.shape c' = ma.shape c /\ ma.mask c' = ma.mask c /\
  Forall2 Qeq (ma.data c) (ma.data c').

Definition fill (a b : option (list Q)) : Prop :=
  match a, b with
  | None, None => True
  | Some x, Some y => Forall2 Qeq x y
  | _, _ => False
  end.

(** What two masked arrays show is the same: the same shape, the same
    mask, and equal values where the mask is not set.  The data under the
    mask may differ. *)
Definition valid_grid (c c' : ma.MaskedArray Q) : Prop :=
  ma.shape c' = ma.shape c /\ ma.mask c' = ma.mask c /\
  List.length (ma.data c') = List.length (ma.data c) /\
  forall k v v',
    nth_error (ma.mask c) k = Some false ->
    nth_error (ma.data c) k = Some v -> nth_error (ma.data c') k = Some v' ->
    v == v'.

(** Two images that differ in the data under the masks of their channels
    and in the representation of their numbers only. *)
Definition valid_image (s s' : Image Q) : Prop :=
  mode s' = mode s /\ width s' = width s /\ height s' = height s /\
  palette s' = palette s /\ shape s' = shape s /\
  _secondary_mode s' = _secondary_mode s /\
  Forall2 valid_grid (channels s) (channels s') /\
  fill (fill_value s) (fill_value s').

End same.

Section StretchObservations.

Context {F : Type}.


End StretchObservations.

Section GammaObservations.

Context {F : Type} `{Float64 F}.

(** What [gamma] makes of a channel for the exponent [g]: the channel
    itself for 1, and its data raised to [1 / g] otherwise. *)
Definition gamma_of (ne : option (F -> F -> F)) (chn : ma.MaskedArray F) (g : F)
  : ma.MaskedArray F :=
  if feqb g (lit 1) then chn else gamma_corrected ne g chn.

(** An exponent that [gamma] accepts and can divide by: not negative and
    not zero. *)
Definition gamma_accepted (g : F) : Prop :=
  fltb g (lit 0) = false /\ feqb g (lit 0) = false.

End GammaObservations.

Section InitObservations.

Context {F : Type}.

(** An array given to the constructor whose values, and mask if it has
    one, have as many elements as its shape says. *)
Definition well_formed (a : array_like F) : Prop :=
  match a with
  | Masked m => List.length (ma.data m) = ma.size m /\ List.length (ma.mask m) = ma.size m
  | Plain sh values => List.length values = (fst sh * snd sh)%nat
  | NotArray => False
  end.

Definition well_formed_channels (c : channels_arg F) : Prop :=
  match c with
  | CSeq l => Forall well_formed l
  | CArray a => well_formed a
  | CNone | CSet _ => True
  end.

(** What the constructor makes of one array: a channel of its shape, with
    as many values and mask bits as the shape says when the array has. *)
Definition built_from (a : array_like F) (c : ma.MaskedArray F) : Prop :=
  array_shape a = Ok (ma.shape c) /\
  (well_formed a ->
   List.length (ma.data c) = ma.size c /\ List.length (ma.mask c) = ma.size c).

(** Height, width and shape of the image agree, and every channel has the
    shape of the image. *)
Definition shapes_agree (self : Image F) : Prop :=
  height self = fst (shape self) /\ width self = snd (shape self) /\
  Forall (fun c => ma.shape c = shape self) (channels self).

End InitObservations.

Section RangeObservations.

Context {F : Type}.

(** The values and the mask of an array given to the constructor: an
    array without a mask has no masked element. *)
Definition values_of (a : array_like F) : list F :=
  match a with
  | Masked m => ma.data m
  | Plain _ values => values
  | NotArray => []
  end.

Definition mask_of (a : array_like F) : list bool :=
  match a with
  | Masked m => ma.mask m
  | Plain _ values => repeat false (List.length values)
  | NotArray => []
  end.

(** The argument [color_range] as a list of pairs [(lo, hi)]. *)
Definition pairs (ranges : list (F * F)) : pyvalue F :=
  Seq (map (fun r => Seq [Num (fst r); Num (snd r)]) ranges).

End RangeObservations.

(** A value [v] of the range from [lo] to [hi] as it is stored: [v'] is
    [(v - lo) / (hi - lo)], which lies between 0 and 1 when [v] lies
    between [lo] and [hi]. *)
Definition normalised (r : Q * Q) (v v' : Q) : Prop :=
  (v' == (v - fst r) / (snd r - fst r))%Q /\
  (fst r < snd r -> fst r <= v <= snd r -> 0 <= v' <= 1)%Q.

Section PaletteObservations.

Context {F : Type} `{Float64 F}.

(** No two entries of the palette are equal colours. *)
Definition distinct_colours (pal : list (list (option F))) : Prop :=
  forall i j e1 e2, (i < j)%nat ->
    nth_error pal i = Some e1 -> nth_error pal j = Some e2 ->
    tuple_eqb e1 e2 = false.

(** Every value is an index into the palette. *)
Definition valid_indices (pal : list (list (option F))) (values : list F) : Prop :=
  Forall (fun v => exists k, v = of_nat k /\ (k < List.length pal)%nat) values.

(** The invariant of the loops of [_to_p] on an image of [h] rows and
    [w] columns with [n] colour channels. *)
Definition quantizing (h w n : nat) (st : quantizer) : Prop :=
  q_color_nb st = List.length (q_palette st) /\
  (q_palette st <> [] -> exists k, q_idx st = Some k /\ (k < List.length (q_palette st))%nat) /\
  distinct_colours (q_palette st) /\
  Forall (fun entry => List.length entry = n) (q_palette st) /\
  grid h w (q_new_chn st) /\
  Forall (fun v => exists k, v = of_nat k /\
                             (k = 0%nat \/ k < List.length (q_palette st))%nat)
         (ma.data (q_new_chn st)).

(** The channels that hold the colours, and the alpha channel if the
    mode has one. *)
Definition colour_channels (self : Image F) : list (ma.MaskedArray F) :=
  if endswith_A (mode self) then drop_last (channels self) else channels self.

Definition alpha_channel (self : Image F) : list (ma.MaskedArray F) :=
  if endswith_A (mode self) then last_slice (channels self) else [].

(** The element at the flat position [k] is masked in one of the
    channels. *)
Definition masked_in (chans : list (ma.MaskedArray F)) (k : nat) : bool :=
  existsb (fun chn => nth k (ma.mask chn) false) chans.

(** Component [i] of the palette entry [k], as a number. *)
Definition component (pal : list (list (option F))) (k i : nat) : F :=
  to_float (nth i (nth k pal []) None).

(** The mode that an indexed image was made from: its secondary mode,
    with alpha if the image has alpha. *)
Definition direct_mode (self : Image F) : string :=
  if endswith_A (mode self) then (_secondary_mode self ++ "A")%string
  else _secondary_mode self.

(** The mode without its alpha. *)
Definition colour_mode (m : string) : string :=
  if endswith_A m then strip_last m else m.

(** The mode of the indexed image made from an image of mode [m]. *)
Definition indexed_mode (m : string) : string :=
  if endswith_A m then "PA" else "P".

End PaletteObservations.

(** * Properties *)

Unset Implicit Arguments.

(** ** Sequences *)

Section Sequences.

Context {A B C : Type}.

Lemma zip_with_nth_error (f : A -> B -> C) (xs : list A) (ys : list B) (k : nat) :
  nth_error (zip_with f xs ys) k =
  match nth_error xs k, nth_error ys k with
  | Some x, Some y => Some (f x y)
  | _, _ => None
  end.
Proof.
  revert ys k; induction xs as [|x xs IH]; intros [|y ys] [|k]; simpl; trivial.
  destruct (nth_error xs k); trivial.
Qed.

Lemma zip_with_length (f : A -> B -> C) (xs : list A) (ys : list B) :
  List.length (zip_with f xs ys) = Nat.min (List.length xs) (List.length ys).
Proof.
  revert ys; induction xs as [|x xs IH]; intros [|y ys]; simpl; auto.
Qed.



Lemma setitem_length (xs : list A) (i : nat) (v : A) :
  List.length (setitem xs i v) = List.length xs.
Proof.
  revert i; induction xs as [|x xs IH]; intros [|i]; simpl; auto.
Qed.

Lemma setitem_other (xs : list A) (i j : nat) (v : A) :
  i <> j -> nth_error (setitem xs i v) j = nth_error xs j.
Proof.
  revert i j; induction xs as [|x xs IH]; intros [|i] [|j] Hij; simpl; auto.
  congruence.
Qed.

Lemma getitem_Ok (xs : list A) (i : nat) (x : A) :
  getitem xs i = Ok x <-> nth_error xs i = Some x.
Proof.
  unfold getitem. destruct (nth_error xs i); split; congruence.
Qed.

End Sequences.

Lemma bind_Ok {A B} (r : result A) (k : A -> result B) (b : B) :
  bind r k = Ok b -> exists a, r = Ok a /\ k a = Ok b.
Proof.
  destruct r as [a|e]; simpl; [eauto | discriminate].
Qed.

(** Splits an equation [x <- r ;; k = Ok b] of the context. *)
Ltac bind_inv H :=
  let a := fresh "a" in
  let Ha := fresh "Ha" in
  apply bind_Ok in H; destruct H as (a & Ha & H).

(** ** Merging *)

Section MergeProperties.

Context {F : Type} `{Float64 F}.






End MergeProperties.

Section MergeTheorem.

Context {F : Type} `{Float64 F}.


End MergeTheorem.



(** ** Palette quantization *)

(** C2 on a row of three pixels 0, 1, 0 in mode L: the third pixel finds
    its colour at entry 0 of the palette, but [_to_p] stores the index 1
    that the second pixel left in [idx], and the conversion back to L
    returns 0, 1, 1. *)
Theorem palette_round_trip_loses_a_repeated_colour :
  exists p back,
    convert (H := rationals) example.l_row "P" = Ok p /\
    palette p = Some [[Some 0]; [Some 1]] /\
    map (@ma.data Q) (channels p) = [[0; 1; 1]] /\
    convert (H := rationals) p "L" = Ok back /\
    map (@ma.data Q) (channels back) = [[0; 1; 1]] /\
    map (@ma.data Q) (channels example.l_row) = [[0; 1; 0]].
Proof.
  eexists. eexists.
  split; [vm_compute; reflexivity|].
  repeat split; vm_compute; reflexivity.
Qed.

(** ** Loops *)

Section Loops.

Context {A S : Type}.

Lemma for_each_app (xs ys : list A) (body : S -> A -> result S) (s : S) :
  for_each (xs ++ ys) body s = (s' <- for_each xs body s ;; for_each ys body s').
Proof.
  revert s; induction xs as [|x xs IH]; intros s; simpl; trivial.
  destruct (body s x); simpl; auto.
Qed.

(** A property kept by every round of a loop holds when the loop ends. *)
Lemma for_each_invariant (P : S -> Prop) (xs : list A) (body : S -> A -> result S) :
  (forall s x s', In x xs -> P s -> body s x = Ok s' -> P s') ->
  forall s s', P s -> for_each xs body s = Ok s' -> P s'.
Proof.
  induction xs as [|x xs IH]; intros Hbody s s' Hs Hrun; simpl in Hrun.
  - congruence.
  - bind_inv Hrun.
    apply (IH (fun s x s' Hin => Hbody s x s' (or_intror Hin)) a s'); trivial.
    apply (Hbody s x a); simpl; auto.
Qed.

End Loops.

(** ** Enhancement *)

Section EnhanceProperties.

Context {F : Type} `{Float64 F}.

Variable ne : option (F -> F -> F).

Lemma update_channel_frame (self self' : Image F) (i : nat)
      (f : ma.MaskedArray F -> result (ma.MaskedArray F)) :
  update_channel self i f = Ok self' ->
  mode self' = mode self /\
  List.length (channels self') = List.length (channels self) /\
  forall j, j <> i -> nth_error (channels self') j = nth_error (channels self) j.
Proof.
  unfold update_channel. intros Hu.
  bind_inv Hu. bind_inv Hu. injection Hu as <-.
  simpl. repeat split.
  - apply setitem_length.
  - intros j Hj. apply setitem_other. congruence.
Qed.

Lemma skipn_ext {A} (a : nat) (xs ys : list A) :
  (forall j, (a <= j)%nat -> nth_error xs j = nth_error ys j) ->
  skipn a xs = skipn a ys.
Proof.
  intros Hn. apply nth_error_ext. intros j.
  rewrite !nth_error_skipn. apply Hn. lia.
Qed.

Lemma stretch_frame_step (ch_len : nat) (self s s' : Image F) (i : nat)
      (f : ma.MaskedArray F -> result (ma.MaskedArray F)) :
  In i (seq 0 ch_len) -> stretch_frame ch_len self s ->
  update_channel s i f = Ok s' -> stretch_frame ch_len self s'.
Proof.
  intros Hin (Hm & Hl & Hn) Hu.
  apply in_seq in Hin.
  apply update_channel_frame in Hu as (Hm' & Hl' & Hn').
  repeat split; try congruence.
  intros j Hj. rewrite Hn'; [auto | lia].
Qed.

Lemma stretch_keeps_frame (self self' : Image F) (st : stretch_arg F) (kw : kwargs F) :
  stretch self st kw = Ok self' ->
  stretch_frame
    (List.length (channels self) - (if endswith_A (mode self) then 1 else 0)) self self'.
Proof.
  unfold stretch.
  set (ch_len := (List.length (channels self) - _)%nat).
  assert (Hinit : stretch_frame ch_len self self) by (repeat split).
  intros Hrun.
  destruct st as [l | s |].
  - destruct (List.length l =? 2)%nat; [|discriminate].
    revert Hrun. apply for_each_invariant; trivial.
    intros s x s' Hin Hs Hb.
    destruct (accepts [] kw); [|discriminate].
    eapply stretch_frame_step; eauto.
  - destruct (s =? "linear").
    { revert Hrun. apply for_each_invariant; trivial.
      intros s0 x s' Hin Hs Hb.
      destruct (accepts ["cutoffs"] kw); [|discriminate].
      eapply stretch_frame_step; eauto. }
    destruct (s =? "histogram").
    { revert Hrun. apply for_each_invariant; trivial.
      intros s0 x s' Hin Hs Hb.
      destruct (accepts [] kw); [|discriminate].
      eapply stretch_frame_step; eauto. }
    destruct (str_in s ["crude"; "crude-stretch"]).
    { revert Hrun. apply for_each_invariant; trivial.
      intros s0 x s' Hin Hs Hb.
      destruct (accepts ["min_stretch"; "max_stretch"] kw); [|discriminate].
      eapply stretch_frame_step; eauto. }
    destruct (str_in s ["log"; "logarithmic"]).
    { revert Hrun. apply for_each_invariant; trivial.
      intros s0 x s' Hin Hs Hb.
      destruct (accepts ["factor"] kw); [|discriminate].
      eapply stretch_frame_step; eauto. }
    destruct (s =? "no"); [|discriminate].
    injection Hrun as <-. trivial.
  - discriminate.
Qed.

Lemma setitem_app {A} (done todo : list A) (c v : A) :
  setitem (done ++ c :: todo) (List.length done) v = done ++ v :: todo.
Proof.
  induction done as [|d done IH]; simpl; [trivial | now rewrite IH].
Qed.

Lemma gamma_channel_corrects (g : F) (n : nat) (done todo : list (ma.MaskedArray F))
      (c : ma.MaskedArray F) (self self' : Image F) :
  feqb g (lit 1) = false ->
  channels self = done ++ c :: todo ->
  (List.length done < n)%nat ->
  gamma_channel ne (repeat (GNum g) n) self (List.length done) = Ok self' ->
  self' = set_channels self (done ++ gamma_corrected ne g c :: todo).
Proof.
  intros Hg Hc Hn. unfold gamma_channel, getitem.
  rewrite (nth_error_repeat (GNum g) Hn). cbn [bind].
  destruct (fltb g (lit 0)); [discriminate|].
  rewrite Hg. unfold update_channel, getitem.
  rewrite Hc, nth_error_app2, Nat.sub_diag by lia. cbn [nth_error bind].
  unfold gamma_corrected.
  destruct ne as [evaluate|]; cbn [bind].
  - rewrite setitem_app. congruence.
  - unfold py_div. destruct (feqb g (lit 0)); cbn [bind]; [discriminate|].
    rewrite setitem_app. congruence.
Qed.

Lemma gamma_rounds (g : F) (n : nat) (todo done : list (ma.MaskedArray F))
      (self self' : Image F) :
  feqb g (lit 1) = false ->
  channels self = done ++ todo ->
  (List.length done + List.length todo <= n)%nat ->
  for_each (seq (List.length done) (List.length todo))
           (gamma_channel ne (repeat (GNum g) n)) self = Ok self' ->
  self' = set_channels self (done ++ map (gamma_corrected ne g) todo).
Proof.
  intros Hg. revert done self.
  induction todo as [|c todo IH]; intros done self Hc Hn Hrun.
  - simpl in Hrun. injection Hrun as <-. simpl. rewrite <- Hc.
    destruct self; reflexivity.
  - simpl in Hn. cbn [List.length seq for_each] in Hrun. bind_inv Hrun.
    apply (gamma_channel_corrects g n done todo c self a Hg Hc) in Ha; [|lia].
    subst a.
    specialize (IH (done ++ [gamma_corrected ne g c])
                   (set_channels self (done ++ gamma_corrected ne g c :: todo))).
    rewrite length_app in IH. simpl in IH.
    replace (List.length done + 1)%nat with (S (List.length done)) in IH by lia.
    rewrite IH; trivial.
    + simpl. rewrite <- app_assoc. reflexivity.
    + rewrite <- app_assoc. reflexivity.
    + lia.
Qed.

Lemma gamma_one_is_identity (g : F) (self self' : Image F) :
  feqb g (lit 1) = true ->
  gamma ne self (GNum g) = Ok self' -> self' = self.
Proof.
  intros Hg. unfold gamma. cbn match. intros Hrun.
  symmetry. revert Hrun. apply (for_each_invariant (fun s => self = s)); trivial.
  intros s x s' _ -> Hb. unfold gamma_channel in Hb.
  bind_inv Hb. apply getitem_Ok, nth_error_In, repeat_spec in Ha. subst a.
  cbn [bind] in Hb.
  destruct (fltb g (lit 0)); [discriminate|].
  rewrite Hg in Hb. congruence.
Qed.

(** C3, as amended: [stretch] leaves the alpha channel alone and [gamma]
    does not.  For an image whose mode ends in "A", a call of [stretch]
    that returns keeps the mode and the number of channels and leaves the
    last channel as it was, values and mask.  A call of [gamma] with a
    number [g] that returns replaces every channel, the last one included,
    by its data raised to [1/g] under the same mask, and changes nothing
    when [g] is 1. *)
Theorem stretch_skips_alpha_and_gamma_does_not (self : Image F) :
  endswith_A (mode self) = true ->
  (forall st kw self',
      stretch self st kw = Ok self' ->
      mode self' = mode self /\
      List.length (channels self') = List.length (channels self) /\
      last_slice (channels self') = last_slice (channels self)) /\
  (forall g self',
      gamma ne self (GNum g) = Ok self' ->
      self' = if feqb g (lit 1) then self
              else set_channels self (map (gamma_corrected ne g) (channels self))).
Proof.
  intros Halpha. split.
  - intros st kw self' Hrun.
    apply stretch_keeps_frame in Hrun. rewrite Halpha in Hrun.
    destruct Hrun as (Hm & Hl & Hn). repeat split; trivial.
    unfold last_slice. rewrite Hl. now apply skipn_ext.
  - intros g self' Hrun.
    destruct (feqb g (lit 1)) eqn:Hg.
    + now apply (gamma_one_is_identity g).
    + unfold gamma in Hrun. cbn match in Hrun.
      now apply (gamma_rounds g (List.length (channels self)) (channels self) [] self self').
Qed.

End EnhanceProperties.

(** A run of the theorem above on a one-pixel image in mode LA. *)
Lemma stretch_and_gamma_witness :
  (forall st kw self',
      stretch (H := rationals) example.la_quarter st kw = Ok self' ->
      mode self' = mode example.la_quarter /\
      List.length (channels self') = List.length (channels example.la_quarter) /\
      last_slice (channels self') = last_slice (channels example.la_quarter)) /\
  (forall g self',
      gamma (H := rationals) None example.la_quarter (GNum g) = Ok self' ->
      self' = if feqb g (lit 1) then example.la_quarter
              else set_channels example.la_quarter
                     (map (gamma_corrected (H := rationals) None g)
                          (channels example.la_quarter))).
Proof.
  apply (stretch_skips_alpha_and_gamma_does_not (H := rationals) None example.la_quarter).
  reflexivity.
Defined.

(** C3 as stated fails for [gamma]: with the exponent 1/2 the alpha value
    1/4 of [la_quarter] becomes its square 1/16. *)
Lemma gamma_changes_the_alpha_channel :
  endswith_A (mode example.la_quarter) = true /\
  pixel (channels example.la_quarter) 1 0 = Some (1 # 4, false) /\
  exists res,
    gamma (H := rationals) None example.la_quarter (GNum (1 # 2)) = Ok res /\
    pixel (channels res) 1 0 = Some (1 # 16, false).
Proof.
  repeat split. eexists. split; vm_compute; reflexivity.
Qed.

Section EnhancePipeline.

Context {F : Type} `{Float64 F}.

Variable ne : option (F -> F -> F).

Lemma lookup_app {V} (d1 d2 : list (string * V)) (name : string) :
  lookup (d1 ++ d2) name =
  match lookup d1 name with Some v => Some v | None => lookup d2 name end.
Proof.
  induction d1 as [|[k v] d1 IH]; simpl; trivial.
  destruct (k =? name); trivial.
Qed.

(** C9: [enhance] is [invert], then [stretch], then [gamma]: the same
    image, or the same exception, as the three calls made in that order,
    for every image and all arguments.  [stretch] receives
    [stretch_parameters] overridden by the extra keywords. *)
Theorem enhance_is_invert_then_stretch_then_gamma
        (self : Image F) (inverse : invert_arg) (gamma_ : gamma_arg F)
        (stretch_ : stretch_arg F) (stretch_parameters : option (kwargs F))
        (kw : kwargs F) :
  enhance ne self inverse gamma_ stretch_ stretch_parameters kw =
  invert_stretch_gamma ne self inverse gamma_ stretch_
                       (stretch_keywords stretch_parameters kw) /\
  forall name,
    lookup (stretch_keywords stretch_parameters kw) name =
    match lookup kw name with
    | Some v => Some v
    | None => lookup (match stretch_parameters with None => [] | Some d => d end) name
    end.
Proof.
  split.
  - unfold enhance, invert_stretch_gamma, stretch_keywords.
    destruct (invert self inverse) as [inverted_image|e]; cbn [bind]; trivial.
  - intros name. unfold stretch_keywords, update. apply lookup_app.
Qed.

Lemma gamma_channel_runs (g : F) (n : nat) (done todo : list (ma.MaskedArray F))
      (c : ma.MaskedArray F) (self : Image F) :
  fltb g (lit 0) = false -> feqb g (lit 1) = false ->
  channels self = done ++ c :: todo ->
  (List.length done < n)%nat ->
  gamma_channel ne (repeat (GNum g) n) self (List.length done) =
  match ne with
  | None => if feqb g (lit 0) then Raise ZeroDivisionError
            else Ok (set_channels self (done ++ gamma_corrected ne g c :: todo))
  | Some _ => Ok (set_channels self (done ++ gamma_corrected ne g c :: todo))
  end.
Proof.
  intros Hlt Hg Hc Hn. unfold gamma_channel, getitem.
  rewrite (nth_error_repeat (GNum g) Hn). cbn [bind].
  rewrite Hlt, Hg. unfold update_channel, getitem.
  rewrite Hc, nth_error_app2, Nat.sub_diag by lia. cbn [nth_error bind].
  unfold gamma_corrected.
  destruct ne as [evaluate|]; cbn [bind].
  - now rewrite setitem_app.
  - unfold py_div. destruct (feqb g (lit 0)); cbn [bind]; trivial.
    now rewrite setitem_app.
Qed.

Lemma gamma_runs_with_numexpr (evaluate : F -> F -> F) (g : F) (n : nat)
      (todo done : list (ma.MaskedArray F)) (self : Image F) :
  ne = Some evaluate ->
  fltb g (lit 0) = false -> feqb g (lit 1) = false ->
  channels self = done ++ todo ->
  (List.length done + List.length todo <= n)%nat ->
  for_each (seq (List.length done) (List.length todo))
           (gamma_channel ne (repeat (GNum g) n)) self =
  Ok (set_channels self (done ++ map (gamma_corrected ne g) todo)).
Proof.
  intros Hne Hlt Hg. revert done self.
  induction todo as [|c todo IH]; intros done self Hc Hn.
  - simpl. rewrite <- Hc. destruct self; reflexivity.
  - simpl in Hn. cbn [List.length seq for_each].
    rewrite (gamma_channel_runs g n done todo c self Hlt Hg Hc) by lia.
    rewrite Hne at 1. cbn [bind].
    specialize (IH (done ++ [gamma_corrected ne g c])
                   (set_channels self (done ++ gamma_corrected ne g c :: todo))).
    rewrite length_app in IH. simpl in IH.
    replace (List.length done + 1)%nat with (S (List.length done)) in IH by lia.
    rewrite IH.
    + simpl. rewrite <- app_assoc. reflexivity.
    + rewrite <- app_assoc. reflexivity.
    + lia.
Qed.

End EnhancePipeline.

Section GammaZero.

Context {F : Type} `{Float64 F}.

(** C10, as amended: [gamma(0)] divides by zero in Python unless numexpr
    evaluates the expression.  Let [g] be a zero of the floats: equal to
    0, not below 0, not equal to 1.  On an image with at least one
    channel, whose channels are masked arrays, [gamma(g)] raises
    [ZeroDivisionError] when [ne] is [None]; when numexpr is there, the
    division is part of the expression numexpr evaluates, and the call
    returns, if [ne.evaluate] does, with every channel replaced.  On a
    channel that is a plain [ndarray] the branch of [gamma] for it raises
    [ZeroDivisionError] whatever [ne] is. *)
Theorem gamma_zero_divides_by_zero_without_numexpr (self : Image F) (g : F) :
  channels self <> [] ->
  feqb g (lit 0) = true -> fltb g (lit 0) = false -> feqb g (lit 1) = false ->
  gamma None self (GNum g) = Raise ZeroDivisionError /\
  (forall evaluate,
    gamma (Some evaluate) self (GNum g) =
    Ok (set_channels self (map (gamma_corrected (Some evaluate) g) (channels self)))) /\
  (forall values, gamma_ndarray g values = Raise ZeroDivisionError).
Proof.
  intros Hne H0 Hlt H1. split; [|split].
  - unfold gamma. cbn match.
    destruct (channels self) as [|c rest] eqn:Ec; [congruence|].
    cbn [List.length seq for_each].
    pose proof (gamma_channel_runs None g (S (List.length rest)) [] rest c self
                  Hlt H1 Ec) as E.
    cbn [List.length] in E. rewrite E by lia.
    rewrite H0. reflexivity.
  - intros evaluate. unfold gamma. cbn match.
    apply (gamma_runs_with_numexpr (Some evaluate) evaluate g
             (List.length (channels self)) (channels self) [] self);
      trivial.
  - intros values. unfold gamma_ndarray, py_div. now rewrite H0.
Qed.

End GammaZero.

(** A run of the theorem above: the exponent 0 on a one-pixel image. *)
Lemma gamma_zero_witness :
  gamma None example.la_quarter (GNum 0%Q) = Raise ZeroDivisionError /\
  (forall evaluate,
    gamma (Some evaluate) example.la_quarter (GNum 0%Q) =
    Ok (set_channels example.la_quarter
          (map (gamma_corrected (Some evaluate) 0%Q) (channels example.la_quarter)))) /\
  (forall values, gamma_ndarray 0%Q values = Raise ZeroDivisionError).
Proof.
  apply (gamma_zero_divides_by_zero_without_numexpr example.la_quarter 0%Q).
  - discriminate.
  - reflexivity.
  - reflexivity.
  - reflexivity.
Defined.

(** C10 as stated fails when numexpr can be imported: whatever
    [ne.evaluate] returns, [gamma(0)] returns an image. *)
Lemma gamma_zero_returns_with_numexpr :
  List.length (channels example.la_quarter) = 2%nat /\
  forall evaluate, exists res,
    gamma (Some evaluate) example.la_quarter (GNum 0%Q) = Ok res.
Proof.
  split; [reflexivity|].
  intros evaluate. eexists. vm_compute. reflexivity.
Qed.

(** ** Mode strings *)

Lemma length_append (a b : string) :
  String.length (a ++ b)%string = (String.length a + String.length b)%nat.
Proof.
  induction a as [|c a IH]; simpl; [trivial | now rewrite IH].
Qed.

Lemma append_A_differs (m : string) : (m ++ "A" =? m)%string = false.
Proof.
  apply String.eqb_neq. intros E.
  apply (f_equal String.length) in E. rewrite length_append in E. simpl in E. lia.
Qed.

Lemma append_AA_differs (m : string) : (m =? (m ++ "A") ++ "A")%string = false.
Proof.
  apply String.eqb_neq. intros E.
  apply (f_equal String.length) in E. rewrite !length_append in E. simpl in E. lia.
Qed.

Lemma mode_in_In (m : string) (ms : list string) : mode_in m ms = true <-> In m ms.
Proof.
  unfold mode_in. rewrite existsb_exists. split.
  - intros (x & Hin & E). apply String.eqb_eq in E. now subst.
  - intros Hin. exists m. split; trivial. apply String.eqb_refl.
Qed.

(** ** Adding and dropping alpha *)

Section AlphaProperties.

Context {F : Type} `{Float64 F}.

Lemma convert_fuel_unfold (fuel : nat) (self : Image F) (mode_ : string) :
  convert_fuel (S fuel) self mode_ =
  if mode_ =? mode self then Ok self
  else if negb (mode_in mode_ modes) then Raise ValueError
  else
    empty <- is_empty self ;;
    if empty then Ok (set_mode self mode_)
    else if mode_ =? (mode self ++ "A")%string then
      c0 <- getitem (channels self) 0 ;;
      let self := set_channels self
                    (channels self ++ [ma.full (ma.shape c0) (lit 1)]) in
      let self := set_fill_value self
                    (option_map (fun fv => fv ++ [lit 1]) (fill_value self)) in
      Ok (set_mode self mode_)
    else if (mode_ ++ "A")%string =? mode self then
      let self := set_channels self (drop_last (channels self)) in
      let self := set_fill_value self
                    (option_map (@drop_last F) (fill_value self)) in
      Ok (set_mode self mode_)
    else if endswith_A mode_ && negb (endswith_A (mode self)) then
      self <- convert_fuel fuel self (mode self ++ "A")%string ;;
      convert_fuel fuel self mode_
    else if endswith_A (mode self) && negb (endswith_A mode_) then
      self <- convert_fuel fuel self (strip_last (mode self)) ;;
      convert_fuel fuel self mode_
    else
      match lookup cases (mode self) with
      | None => Raise ValueError
      | Some row =>
          match lookup row mode_ with
          | None => Raise ValueError
          | Some m => call (convert_fuel fuel) m self mode_
          end
      end.
Proof. reflexivity. Qed.

Lemma nonempty_has_channel (self : Image F) :
  is_empty self = Ok false -> exists c0 rest, channels self = c0 :: rest.
Proof.
  unfold is_empty, no_channels.
  destruct (channels self) as [|c0 rest]; [|eauto].
  simpl. destruct (shape_eqb (shape self) (0, 0)%nat); discriminate.
Qed.

Lemma is_empty_channels (self other : Image F) :
  shape other = shape self ->
  channels self <> [] -> channels other <> [] ->
  is_empty self = Ok false -> is_empty other = Ok false.
Proof.
  unfold is_empty, no_channels. intros -> Hs Ho.
  destruct (channels self); [congruence|].
  destruct (channels other); [congruence|]. trivial.
Qed.

Lemma convert_adds_alpha (fuel : nat) (self : Image F) :
  is_empty self = Ok false ->
  mode_in (mode self ++ "A")%string modes = true ->
  convert_fuel (S fuel) self (mode self ++ "A")%string = Ok (alpha_added self).
Proof.
  intros Hne Hin. rewrite convert_fuel_unfold.
  rewrite append_A_differs, Hin, Hne. cbn [negb bind].
  rewrite String.eqb_refl.
  destruct (nonempty_has_channel self Hne) as (c0 & rest & Ec).
  unfold alpha_added, ones_like_first. rewrite Ec. reflexivity.
Qed.

Lemma convert_drops_alpha (fuel : nat) (self : Image F) (m : string) :
  is_empty self = Ok false ->
  mode self = (m ++ "A")%string ->
  mode_in m modes = true ->
  convert_fuel (S fuel) self m = Ok (alpha_dropped self m).
Proof.
  intros Hne Hm Hin. rewrite convert_fuel_unfold.
  rewrite Hm, String.eqb_sym, append_A_differs, Hin, Hne. cbn [negb bind].
  rewrite append_AA_differs, String.eqb_refl. reflexivity.
Qed.

Lemma drop_last_app {A} (xs : list A) (x : A) : drop_last (xs ++ [x]) = xs.
Proof. apply removelast_last. Qed.

Lemma alpha_dropped_added (self : Image F) :
  alpha_dropped (alpha_added self) (mode self) = self.
Proof.
  destruct self as [chans m w h fv pal sh sec].
  unfold alpha_dropped, alpha_added. cbn.
  rewrite drop_last_app. f_equal.
  destruct fv as [fv|]; cbn; [|trivial]. now rewrite drop_last_app.
Qed.

(** What [alpha_added] adds is a channel of ones of the shape of the
    first channel, nothing masked, and the fill entry 1; the rest of the
    image is as it was. *)
Lemma alpha_added_ones (self : Image F) (c0 : ma.MaskedArray F)
      (rest : list (ma.MaskedArray F)) :
  channels self = c0 :: rest ->
  exists alpha,
    channels (alpha_added self) = channels self ++ [alpha] /\
    ones_channel c0 alpha /\
    fill_value (alpha_added self) =
    option_map (fun fv => fv ++ [lit 1]) (fill_value self) /\
    width (alpha_added self) = width self /\
    height (alpha_added self) = height self /\
    shape (alpha_added self) = shape self /\
    palette (alpha_added self) = palette self /\
    _secondary_mode (alpha_added self) = _secondary_mode self.
Proof.
  intros Ec. exists (ones_like_first (channels self)).
  split; [reflexivity|]. split; [|repeat split].
  rewrite Ec. unfold ones_channel, ones_like_first, ma.full, ma.size.
  cbn [ma.shape ma.data ma.mask]. repeat split.
Qed.

(** C8: adding alpha and dropping it again.  On a non-empty image in a
    mode [m] without alpha, [convert(m + "A")] returns the image with one
    more channel, of the shape of the first one, 1 everywhere and nothing
    masked, and one more fill entry [1], and [convert(m)] then returns the
    image it started from.  On a non-empty image of at least two channels
    in mode [m + "A"], [convert(m)] drops the last channel and the last
    fill entry, and [convert(m + "A")] then puts such a channel of ones
    and a fill entry [1] in their place, the other channels and fill
    entries being the original ones. *)
Theorem alpha_is_added_and_dropped (self : Image F) (m : string) :
  In m ["L"; "RGB"; "YCbCr"; "P"] ->
  is_empty self = Ok false ->
  (mode self = m ->
   convert self (m ++ "A")%string = Ok (alpha_added self) /\
   convert (alpha_added self) m = Ok self /\
   exists c0 alpha,
     nth_error (channels self) 0 = Some c0 /\
     channels (alpha_added self) = channels self ++ [alpha] /\
     ones_channel c0 alpha /\
     fill_value (alpha_added self) =
     option_map (fun fv => fv ++ [lit 1]) (fill_value self) /\
     width (alpha_added self) = width self /\
     height (alpha_added self) = height self /\
     shape (alpha_added self) = shape self /\
     palette (alpha_added self) = palette self /\
     _secondary_mode (alpha_added self) = _secondary_mode self) /\
  (mode self = (m ++ "A")%string ->
   (2 <= List.length (channels self))%nat ->
   convert self m = Ok (alpha_dropped self m) /\
   convert (alpha_dropped self m) (m ++ "A")%string =
   Ok (alpha_added (alpha_dropped self m)) /\
   drop_last (channels (alpha_added (alpha_dropped self m))) = drop_last (channels self) /\
   option_map (@drop_last F) (fill_value (alpha_added (alpha_dropped self m))) =
   option_map (@drop_last F) (fill_value self) /\
   exists c0 alpha,
     nth_error (channels self) 0 = Some c0 /\
     channels (alpha_added (alpha_dropped self m)) =
     drop_last (channels self) ++ [alpha] /\
     ones_channel c0 alpha /\
     fill_value (alpha_added (alpha_dropped self m)) =
     option_map (fun fv => drop_last fv ++ [lit 1]) (fill_value self)).
Proof.
  intros Hm Hne.
  assert (Hin : mode_in m modes = true /\ mode_in (m ++ "A")%string modes = true).
  { simpl in Hm. decompose [or] Hm; subst; try contradiction; split; reflexivity. }
  destruct Hin as [Hin HinA].
  destruct (nonempty_has_channel self Hne) as (c0 & rest & Ec).
  unfold convert, recursion_limit. split.
  - intros E. subst m. split; [|split].
    + now apply convert_adds_alpha.
    + rewrite (convert_drops_alpha _ (alpha_added self) (mode self)); trivial.
      * now rewrite alpha_dropped_added.
      * apply (is_empty_channels self); trivial; try congruence.
        unfold alpha_added. cbn. now destruct (channels self).
    + destruct (alpha_added_ones self c0 rest Ec) as (alpha & Halpha).
      exists c0, alpha. split; [now rewrite Ec|]. exact Halpha.
  - intros E Hlen.
    assert (Hdropped : exists rest', drop_last (channels self) = c0 :: rest').
    { rewrite Ec in *. simpl in Hlen. destruct rest as [|c1 rest]; [simpl in Hlen; lia|].
      unfold drop_last. cbn [removelast]. eauto. }
    destruct Hdropped as (rest' & Ed).
    split; [now apply convert_drops_alpha|].
    assert (Hne' : is_empty (alpha_dropped self m) = Ok false).
    { apply (is_empty_channels self); trivial; try congruence.
      unfold alpha_dropped. cbn. rewrite Ed. discriminate. }
    split; [|split; [|split]].
    + apply (convert_adds_alpha _ (alpha_dropped self m)); trivial.
    + unfold alpha_added. cbn. now rewrite drop_last_app.
    + unfold alpha_added, alpha_dropped. cbn.
      destruct (fill_value self) as [fv|]; cbn; [|trivial]. now rewrite drop_last_app.
    + destruct (alpha_added_ones (alpha_dropped self m) c0 rest' Ed)
        as (alpha & Hc & Hones & Hfv & _).
      exists c0, alpha. split; [now rewrite Ec|]. split; [exact Hc|].
      split; [exact Hones|]. rewrite Hfv. unfold alpha_dropped. cbn.
      now destruct (fill_value self).
Qed.

End AlphaProperties.

(** A run of the theorem above: alpha added to a row in mode L and dropped
    again, and alpha dropped from a pixel in mode LA and added again. *)
Lemma alpha_witness :
  (convert example.l_row "LA" = Ok (alpha_added example.l_row) /\
   convert (alpha_added example.l_row) "L" = Ok example.l_row /\
   exists c0 alpha,
     nth_error (channels example.l_row) 0 = Some c0 /\
     channels (alpha_added example.l_row) = channels example.l_row ++ [alpha] /\
     ones_channel c0 alpha /\
     fill_value (alpha_added example.l_row) =
     option_map (fun fv => fv ++ [1%Q]) (fill_value example.l_row) /\
     width (alpha_added example.l_row) = width example.l_row /\
     height (alpha_added example.l_row) = height example.l_row /\
     shape (alpha_added example.l_row) = shape example.l_row /\
     palette (alpha_added example.l_row) = palette example.l_row /\
     _secondary_mode (alpha_added example.l_row) = _secondary_mode example.l_row) /\
  (convert example.la_quarter "L" = Ok (alpha_dropped example.la_quarter "L") /\
   convert (alpha_dropped example.la_quarter "L") "LA" =
   Ok (alpha_added (alpha_dropped example.la_quarter "L")) /\
   drop_last (channels (alpha_added (alpha_dropped example.la_quarter "L"))) =
   drop_last (channels example.la_quarter) /\
   option_map (@drop_last Q)
              (fill_value (alpha_added (alpha_dropped example.la_quarter "L"))) =
   option_map (@drop_last Q) (fill_value example.la_quarter) /\
   exists c0 alpha,
     nth_error (channels example.la_quarter) 0 = Some c0 /\
     channels (alpha_added (alpha_dropped example.la_quarter "L")) =
     drop_last (channels example.la_quarter) ++ [alpha] /\
     ones_channel c0 alpha /\
     fill_value (alpha_added (alpha_dropped example.la_quarter "L")) =
     option_map (fun fv => drop_last fv ++ [1%Q]) (fill_value example.la_quarter)).
Proof.
  split.
  - exact (proj1 (alpha_is_added_and_dropped example.l_row "L"
                    (or_introl eq_refl) eq_refl) eq_refl).
  - exact (proj2 (alpha_is_added_and_dropped example.la_quarter "L"
                    (or_introl eq_refl) eq_refl) eq_refl (le_n 2)).
Defined.

(** ** The mode after a conversion *)

Section ConvertMode.

Context {F : Type} `{Float64 F}.

Lemma update_fill_frame (self self' : Image F) (f : list F -> result (list F)) :
  update_fill self f = Ok self' ->
  channels self' = channels self /\ mode self' = mode self /\
  palette self' = palette self /\ shape self' = shape self /\
  width self' = width self /\ height self' = height self /\
  _secondary_mode self' = _secondary_mode self /\
  match fill_value self with
  | None => fill_value self' = None
  | Some fv => exists fv', f fv = Ok fv' /\ fill_value self' = Some fv'
  end.
Proof.
  unfold update_fill. destruct (fill_value self) as [fv|] eqn:E.
  - intros Hu. bind_inv Hu. injection Hu as <-. cbn. repeat split. eauto.
  - intros [= <-]. repeat split. trivial.
Qed.

End ConvertMode.

(** ** Consistency of the conversions *)

Section ListLengths.

Context {F : Type} `{Float64 F}.

Lemma count_upper_append (a b : string) :
  count_upper (a ++ b)%string = (count_upper a + count_upper b)%nat.
Proof.
  induction a as [|c a IH]; simpl; [trivial | rewrite IH; lia].
Qed.

Lemma drop_last_length {A} (xs : list A) :
  List.length (drop_last xs) = (List.length xs - 1)%nat.
Proof.
  unfold drop_last. induction xs as [|x [|y xs] IH]; simpl in *; trivial.
  rewrite IH. lia.
Qed.

Lemma first3_length {A} (xs : list A) (t : A * A * A) :
  first3 xs = Ok t -> (3 <= List.length xs)%nat.
Proof.
  destruct xs as [|a [|b [|c xs]]]; simpl; try discriminate. lia.
Qed.

Lemma set_first3_length {A} (xs : list A) (t : A * A * A) :
  (3 <= List.length xs)%nat -> List.length (set_first3 xs t) = List.length xs.
Proof.
  destruct t as [[a b] c]. intros Hl. unfold set_first3.
  cbn [List.length]. rewrite length_skipn. lia.
Qed.

Lemma getitem_length {A} (xs : list A) (i : nat) (x : A) :
  getitem xs i = Ok x -> (i < List.length xs)%nat.
Proof.
  intros E. apply getitem_Ok in E. apply nth_error_Some. congruence.
Qed.

Lemma modes_have_channels (m : string) : In m modes -> (1 <= count_upper m)%nat.
Proof.
  intros Hm. simpl in Hm. decompose [or] Hm; subst; try contradiction; simpl; lia.
Qed.

End ListLengths.

Lemma Ok_inj {A} (a b : A) : Ok a = Ok b -> a = b.
Proof. congruence. Qed.

Lemma Some_eq {A} (a b : A) : Some a = Some b -> a = b.
Proof. congruence. Qed.

(** Ends an inversion: the two sides of [Ok a = Ok b] are the same value. *)
Ltac returned H := first [apply Ok_inj in H | apply Some_eq in H]; subst.

Tactic Notation "bind_inv" hyp(H) "as" ident(a) ident(Ha) :=
  apply bind_Ok in H; destruct H as (a & Ha & H).

(** Reduces the projections of images built by the setters. *)
Ltac fields :=
  cbn [channels mode width height fill_value palette shape _secondary_mode
       set_channels set_mode set_fill_value set_palette set_secondary_mode] in *.

(** Lengths of the lists the conversions build. *)
Ltac lengths :=
  repeat first [ progress cbn [List.length]
               | rewrite length_skipn
               | rewrite length_app
               | rewrite setitem_length
               | rewrite length_firstn
               | rewrite drop_last_length
               | rewrite length_map ].

Section DirectSteps.

Context {F : Type} `{Float64 F}.

Lemma rgb2ycbcr_step (self self' : Image F) (m : string) :
  _rgb2ycbcr self m = Ok self' ->
  sound_step (count_upper m = count_upper (mode self) /\ mode_in m ["P"; "PA"] = false)
             self self' m.
Proof.
  unfold _rgb2ycbcr. intros Hr.
  bind_inv Hr as u Hu. bind_inv Hr as c Hc3. destruct c as [[c0 c1] c2].
  destruct (rgb2ycbcr c0 c1 c2) as [[y cb] cr].
  bind_inv Hr as s Hs. returned Hr.
  apply update_fill_frame in Hs as (Hc & Hm & Hp & _ & _ & _ & Hsec' & Hf).
  fields.
  split; [reflexivity|].
  intros (_ & Hsec & Hlen & Hfill & _) Hin [Hcount Hnp].
  unfold consistent. fields. rewrite Hc, Hsec', Hnp, !setitem_length.
  repeat split; trivial; try congruence.
  - intros fv Efv. destruct (fill_value self) as [fv0|]; [|congruence].
    destruct Hf as (fv' & Ef & Efv'). bind_inv Ef as f Hf3.
    destruct f as [[f0 f1] f2].
    returned Ef. apply first3_length in Hf3.
    rewrite Efv' in Efv. returned Efv.
    rewrite Hcount, <- (Hfill fv0 eq_refl).
    destruct fv0 as [|x0 [|x1 [|x2 fv0]]]; simpl in Hf3 |- *; lia.
Qed.

Lemma ycbcr2rgb_step (self self' : Image F) (m : string) :
  _ycbcr2rgb self m = Ok self' ->
  sound_step (count_upper m = count_upper (mode self) /\ mode_in m ["P"; "PA"] = false)
             self self' m.
Proof.
  unfold _ycbcr2rgb. intros Hr.
  bind_inv Hr as u Hu. bind_inv Hr as c Hc3. destruct c as [[c0 c1] c2].
  destruct (ycbcr2rgb c0 c1 c2) as [[r g] b].
  bind_inv Hr as s Hs. returned Hr.
  apply update_fill_frame in Hs as (Hc & Hm & Hp & _ & _ & _ & Hsec' & Hf).
  fields.
  split; [reflexivity|].
  intros (_ & Hsec & Hlen & Hfill & _) Hin [Hcount Hnp].
  unfold consistent. fields. rewrite Hc, Hsec', Hnp, !setitem_length.
  repeat split; trivial; try congruence.
  intros fv Efv. destruct (fill_value self) as [fv0|]; [|congruence].
  destruct Hf as (fv' & Ef & Efv'). bind_inv Ef as f Hf3.
  destruct f as [[f0 f1] f2].
  returned Ef. apply first3_length in Hf3.
  rewrite Efv' in Efv. returned Efv.
  rewrite Hcount, <- (Hfill fv0 eq_refl).
  destruct fv0 as [|x0 [|x1 [|x2 fv0]]]; simpl in Hf3 |- *; lia.
Qed.

Lemma rgb2l_step (self self' : Image F) (m : string) :
  _rgb2l self m = Ok self' ->
  sound_step ((count_upper m + 2)%nat = count_upper (mode self) /\
              mode_in m ["P"; "PA"] = false)
             self self' m.
Proof.
  unfold _rgb2l. intros Hr.
  bind_inv Hr as u Hu. bind_inv Hr as c Hc3. destruct c as [[r g] b].
  bind_inv Hr as s Hs. returned Hr.
  apply update_fill_frame in Hs as (Hc & Hm & Hp & _ & _ & _ & Hsec' & Hf).
  apply first3_length in Hc3.
  fields.
  split; [reflexivity|].
  intros (_ & Hsec & Hlen & Hfill & _) Hin [Hcount Hnp].
  unfold consistent. fields. rewrite Hc, Hsec', Hnp.
  repeat split; trivial; try congruence.
  - lengths. lia.
  - intros fv Efv. destruct (fill_value self) as [fv0|]; [|congruence].
    destruct Hf as (fv' & Ef & Efv'). bind_inv Ef as f Hf3.
    destruct f as [[f0 f1] f2].
    returned Ef. apply first3_length in Hf3.
    rewrite Efv' in Efv. returned Efv.
    specialize (Hfill fv0 eq_refl). lengths. lia.
Qed.

Lemma ycbcr2l_step (self self' : Image F) (m : string) :
  _ycbcr2l self m = Ok self' ->
  sound_step ((count_upper m + 2)%nat = count_upper (mode self) /\
              mode_in m ["P"; "PA"] = false)
             self self' m.
Proof.
  unfold _ycbcr2l. intros Hr.
  bind_inv Hr as u Hu. bind_inv Hr as c0 Hc0.
  bind_inv Hr as s Hs. returned Hr.
  apply update_fill_frame in Hs as (Hc & Hm & Hp & _ & _ & _ & Hsec' & Hf).
  fields.
  split; [reflexivity|].
  intros (Hmode & Hsec & Hlen & Hfill & _) Hin [Hcount Hnp].
  pose proof (modes_have_channels m Hin) as Hm1.
  unfold consistent. fields. rewrite Hc, Hsec', Hnp.
  repeat split; trivial; try congruence.
  - lengths. lia.
  - intros fv Efv. destruct (fill_value self) as [fv0|]; [|congruence].
    destruct Hf as (fv' & Ef & Efv'). bind_inv Ef as f0 Hf0.
    returned Ef.
    rewrite Efv' in Efv. returned Efv.
    specialize (Hfill fv0 eq_refl). lengths. lia.
Qed.

Lemma l2ycbcr_step (self self' : Image F) (m : string) :
  _l2ycbcr self m = Ok self' ->
  sound_step (count_upper m = (count_upper (mode self) + 2)%nat /\
              mode_in m ["P"; "PA"] = false)
             self self' m.
Proof.
  unfold _l2ycbcr. intros Hr.
  bind_inv Hr as u Hu. bind_inv Hr as luma Hluma.
  bind_inv Hr as s Hs. returned Hr.
  apply update_fill_frame in Hs as (Hc & Hm & Hp & _ & _ & _ & Hsec' & Hf).
  apply getitem_length in Hluma.
  fields.
  split; [reflexivity|].
  intros (Hmode & Hsec & Hlen & Hfill & _) Hin [Hcount Hnp].
  unfold consistent. fields. rewrite Hc, Hsec', Hnp.
  repeat split; trivial; try congruence.
  - lengths. lia.
  - intros fv Efv. destruct (fill_value self) as [fv0|]; [|congruence].
    destruct Hf as (fv' & Ef & Efv'). bind_inv Ef as f0 Hf0.
    returned Ef. apply getitem_length in Hf0.
    rewrite Efv' in Efv. returned Efv.
    specialize (Hfill fv0 eq_refl). lengths. lia.
Qed.

Lemma l2rgb_step (self self' : Image F) (m : string) :
  _l2rgb self m = Ok self' ->
  sound_step (count_upper m = (count_upper (mode self) + 2)%nat /\
              mode_in m ["P"; "PA"] = false)
             self self' m.
Proof.
  unfold _l2rgb. intros Hr.
  bind_inv Hr as u Hu. bind_inv Hr as c0 Hc0.
  bind_inv Hr as s Hs. returned Hr.
  split; [reflexivity|].
  intros (Hmode & Hsec & Hlen & Hfill & _) Hin [Hcount Hnp].
  assert (Hs' : channels s = channels self ++ [c0] ++ [c0] \/
                exists c1 c3, channels s =
                  setitem (setitem (channels self ++ [c0] ++ [c0]) 1 c3) 3 c1).
  { fields. destruct (mode self =? "LA").
    - bind_inv Hs as c1 Hc1. bind_inv Hs as c3 Hc3. injection Hs as <-.
      right. exists c1, c3. reflexivity.
    - injection Hs as <-. left. reflexivity. }
  assert (Hrest : fill_value s =
                  option_map (fun fv => firstn 1 fv ++ firstn 1 fv ++ firstn 1 fv
                                        ++ skipn 1 fv) (fill_value self) /\
                  palette s = palette self /\
                  _secondary_mode s = _secondary_mode self).
  { fields. destruct (mode self =? "LA").
    - bind_inv Hs as c1 Hc1. bind_inv Hs as c3 Hc3. injection Hs as <-.
      repeat split.
    - injection Hs as <-. repeat split. }
  destruct Hrest as (Hf & Hp & Hsec').
  unfold consistent. fields. rewrite Hsec', Hnp, Hf.
  repeat split; trivial; try congruence.
  - destruct Hs' as [-> | (c1 & c3 & ->)]; lengths; lia.
  - intros fv Efv. destruct (fill_value self) as [fv0|]; [|discriminate].
    cbn [option_map] in Efv. returned Efv. specialize (Hfill fv0 eq_refl).
    pose proof (modes_have_channels _ Hmode) as Hm1.
    lengths. lia.
Qed.

End DirectSteps.

Section PaletteSteps.

Context {F : Type} `{Float64 F}.

(** A loop that appends one element in each round adds as many elements
    as it has rounds. *)
Lemma for_each_appends {A B} (xs : list A) (body : list B -> A -> result (list B))
      (acc acc' : list B) :
  (forall acc x acc', body acc x = Ok acc' -> List.length acc' = S (List.length acc)) ->
  for_each xs body acc = Ok acc' ->
  List.length acc' = (List.length acc + List.length xs)%nat.
Proof.
  intros Hbody. revert acc.
  induction xs as [|x xs IH]; intros acc Hrun; simpl in Hrun.
  - returned Hrun. simpl. lia.
  - bind_inv Hrun as acc1 H1. apply Hbody in H1. apply IH in Hrun.
    simpl. lia.
Qed.

Lemma getitem_int_In {A} (xs : list A) (i : Z) (x : A) :
  getitem_int xs i = Ok x -> In x xs.
Proof.
  unfold getitem_int.
  destruct (0 <=? i)%Z; [|destruct (- Z.of_nat (List.length xs) <=? i)%Z];
    try discriminate; intros E; apply getitem_Ok in E; eapply nth_error_In; eauto.
Qed.

Lemma getitem_int_length {A} (xs : list A) (i : Z) (x : A) :
  getitem_int xs i = Ok x -> (1 <= List.length xs)%nat.
Proof.
  intros E. apply getitem_int_In in E. destruct xs; simpl in *; [contradiction | lia].
Qed.

(** Computes [endswith_A] at the mode strings of the goal. *)
Ltac eval_endswith :=
  repeat match goal with
         | |- context [endswith_A ?s] =>
             let v := eval vm_compute in (endswith_A s) in
             change (endswith_A s) with v
         end.

Lemma register_colour_entries (n : nat) (st : quantizer) (col : list (option F)) :
  entries_of n st -> List.length col = n -> entries_of n (register_colour st col).
Proof.
  unfold register_colour, entries_of. intros Hst Hcol.
  destruct (find_colour (q_palette st) col); trivial.
  cbn [q_palette]. apply Forall_app. split; trivial. constructor; trivial.
Qed.

Lemma quantize_pixel_entries (chans : list (ma.MaskedArray F)) (i j : nat)
      (st st' : quantizer) :
  entries_of (List.length chans) st ->
  quantize_pixel chans i j st = Ok st' ->
  entries_of (List.length chans) st'.
Proof.
  unfold quantize_pixel. intros Hst Hq.
  bind_inv Hq as col Hcol. bind_inv Hq as idx Hidx. bind_inv Hq as new Hnew.
  returned Hq. unfold entries_of. cbn [q_palette].
  apply register_colour_entries; trivial.
  apply for_each_appends in Hcol; [simpl in Hcol; trivial|].
  intros acc chn acc' Hb. bind_inv Hb as v Hv. returned Hb.
  rewrite length_app. simpl. lia.
Qed.

Lemma to_p_step (self self' : Image F) (m : string) :
  _to_p self m = Ok self' ->
  sound_step (m = (if endswith_A (mode self) then "PA" else "P") /\
              In (mode self) ["RGB"; "RGBA"; "YCbCr"; "YCbCrA"; "L"; "LA"])
             self self' m.
Proof.
  destruct self as [chans md w h fv pal sh sec].
  unfold _to_p. fields. intros Hr.
  bind_inv Hr as alpha Halpha. bind_inv Hr as c0 Hc0.
  bind_inv Hr as st Hst. bind_inv Hr as r Hfill. destruct r as [st' fv'].
  assert (Hfill' :
            (fv = None /\ st' = st /\ fv' = None) \/
            (exists fv0 fill_alpha idx,
                fv = Some fv0 /\
                st' = register_colour st
                        (map Some (if endswith_A md then drop_last fv0 else fv0)) /\
                fv' = Some (of_nat idx :: fill_alpha) /\
                List.length fill_alpha = if endswith_A md then 1%nat else 0%nat)).
  { destruct fv as [fv0|].
    - right. bind_inv Hfill as fill_alpha Hfa. bind_inv Hfill as idx Hidx.
      apply Ok_inj in Hfill. injection Hfill as <- <-.
      exists fv0, fill_alpha, idx. repeat split.
      destruct (endswith_A md).
      + bind_inv Hfa as a Ha. returned Hfa. reflexivity.
      + returned Hfa. reflexivity.
    - left. apply Ok_inj in Hfill. injection Hfill as <- <-. repeat split. }
  clear Hfill.
  assert (Halpha' : (endswith_A md = true /\ exists a, alpha = Some a) \/
                    (endswith_A md = false /\ alpha = None)).
  { destruct (endswith_A md).
    - bind_inv Halpha as a Ha. returned Halpha. left. eauto.
    - returned Halpha. right. auto. }
  clear Halpha.
  returned Hr. split; [reflexivity|].
  intros (_ & _ & Hlen & Hfv & _) Hin [Hm Hmd]. fields.
  set (colours := if endswith_A md then drop_last chans else chans) in *.
  assert (Hcol : List.length colours = count_upper (if endswith_A md then strip_last md else md) /\
                 In (if endswith_A md then strip_last md else md) ["L"; "RGB"; "YCbCr"] /\
                 (endswith_A md = true -> (2 <= count_upper md)%nat)).
  { subst colours.
    destruct Hmd as [E|[E|[E|[E|[E|[E|[]]]]]]]; subst md; eval_endswith; cbv beta iota;
      rewrite ?drop_last_length, Hlen; simpl; repeat split; auto 10;
      try discriminate; intros; lia. }
  destruct Hcol as (Hcol & Hsec & Hcount).
  assert (Hpal : entries_of (List.length colours) st).
  { revert Hst. apply for_each_invariant; [|constructor].
    intros s i s' _ Hs. apply for_each_invariant; trivial.
    intros s0 j s0' _ Hs0 Hq. now apply (quantize_pixel_entries colours i j s0). }
  unfold consistent. fields. repeat split; trivial.
  - subst m. destruct Halpha' as [(-> & a & ->) | (-> & ->)]; reflexivity.
  - subst m. intros fv0 Efv0.
    destruct Hfill' as [(_ & _ & ->) | (fv1 & fill_alpha & idx & _ & _ & -> & Hfa)];
      [discriminate|].
    returned Efv0. cbn [List.length]. rewrite Hfa.
    destruct (endswith_A md); reflexivity.
  - intros _ pal0 Epal. returned Epal.
    rewrite <- Hcol.
    destruct Hfill' as [(_ & -> & _) | (fv1 & fill_alpha & idx & -> & -> & _ & _)];
      trivial.
    apply register_colour_entries; trivial.
    rewrite length_map. specialize (Hfv fv1 eq_refl).
    subst colours.
    destruct (endswith_A md) eqn:Ea; rewrite ?drop_last_length; [|lia].
    specialize (Hcount eq_refl). lia.
Qed.

Lemma from_p_step (conv : Image F -> string -> result (Image F))
      (self self' : Image F) (m : string) :
  (forall s m' s', conv s m' = Ok s' -> mode s' = m' /\ (consistent s -> consistent s')) ->
  _from_p conv self m = Ok self' ->
  mode self' = m /\ (consistent self -> consistent self').
Proof.
  intros Hconv. unfold _from_p. intros Hr.
  bind_inv Hr as u Hu. bind_inv Hr as alpha Halpha. bind_inv Hr as color_chan Hcc.
  bind_inv Hr as pal Hpal. bind_inv Hr as entry0 He0. bind_inv Hr as chans Hchans.
  bind_inv Hr as s Hs.
  apply Hconv in Hr as [Hmode Hcons]. split; trivial.
  intros (Hmd & Hsec & Hlen & Hfv & Hentries). apply Hcons. clear Hcons Hconv.
  unfold _check_modes in Hu.
  destruct (mode_in (mode self) ["P"; "PA"]) eqn:Hp; [|discriminate].
  destruct (palette self) as [pal0|] eqn:Epal; [|discriminate]. returned Hpal.
  specialize (Hentries eq_refl pal eq_refl). rewrite Forall_forall in Hentries.
  assert (Halpha' : (endswith_A (mode self) = true /\ exists a, alpha = Some a) \/
                    (endswith_A (mode self) = false /\ alpha = None)).
  { destruct (endswith_A (mode self)).
    - bind_inv Halpha as a Ha. returned Halpha. left. eauto.
    - returned Halpha. right. auto. }
  clear Halpha.
  assert (Hn : List.length chans = count_upper (_secondary_mode self)).
  { apply for_each_appends in Hchans.
    - simpl in Hchans. rewrite Hchans, length_seq. apply Hentries.
      apply getitem_Ok in He0. eapply nth_error_In; eauto.
    - intros acc i acc' Hb. bind_inv Hb as cdf Hcdf. returned Hb.
      rewrite length_app. simpl. lia. }
  apply update_fill_frame in Hs as (Hc & Hm & Hp' & _ & _ & _ & Hsec' & Hf).
  assert (Hsm : In (_secondary_mode self) modes /\
                In (_secondary_mode self ++ "A")%string modes /\
                mode_in (_secondary_mode self) ["P"; "PA"] = false /\
                mode_in (_secondary_mode self ++ "A")%string ["P"; "PA"] = false).
  { destruct Hsec as [E|[E|[E|[]]]]; rewrite <- E; simpl; auto 10. }
  destruct Hsm as (Hs1 & Hs2 & Hs3 & Hs4).
  assert (Hfill : forall fv, fill_value s = Some fv ->
                  List.length fv = (count_upper (_secondary_mode self) +
                                    match alpha with Some _ => 1 | None => 0 end)%nat).
  { intros fv Efv. destruct (fill_value self) as [fv0|]; [|congruence].
    destruct Hf as (fv' & Ef & Efv'). rewrite Efv' in Efv. returned Efv.
    destruct alpha as [a|].
    - bind_inv Ef as fill_alpha Hfa. bind_inv Ef as fill0 Hf0.
      bind_inv Ef as index Hi. bind_inv Ef as entry Hentry. returned Ef.
      apply getitem_int_In in Hentry. rewrite length_app, length_map.
      rewrite (Hentries entry Hentry). reflexivity.
    - bind_inv Ef as fill0 Hf0.
      bind_inv Ef as index Hi. bind_inv Ef as entry Hentry. returned Ef.
      apply getitem_int_In in Hentry. rewrite length_map.
      rewrite (Hentries entry Hentry). lia. }
  unfold consistent.
  destruct alpha as [a|]; fields; rewrite ?Hsec', ?Hs3, ?Hs4, ?count_upper_append,
    ?length_app, ?Hn; simpl; repeat split; trivial; try discriminate;
    intros fv Efv; rewrite (Hfill fv Efv); lia.
Qed.

End PaletteSteps.

Section ConvertInvariant.

Context {F : Type} `{Float64 F}.

Lemma lookup_In {V} (d : list (string * V)) (key : string) (v : V) :
  lookup d key = Some v -> In (key, v) d.
Proof.
  induction d as [|[k x] d IH]; simpl; [discriminate|].
  destruct (k =? key) eqn:E.
  - apply String.eqb_eq in E. intros [= ->]. subst. auto.
  - auto.
Qed.

Lemma consistent_not_empty (self : Image F) :
  consistent self -> is_empty self <> Ok true.
Proof.
  intros (Hm & _ & Hlen & _) E. apply modes_have_channels in Hm.
  unfold is_empty, no_channels in E.
  destruct (channels self); simpl in *; [lia|].
  destruct (shape_eqb (shape self) (0, 0)%nat); discriminate.
Qed.

(** Closes the side condition of a step lemma once the modes are known. *)
Ltac side_condition Hmode :=
  rewrite <- Hmode; simpl; repeat split; auto 10.

(** One entry of the transition table: the method's step lemma. *)
Ltac table_entry Hr Hmode Hin lemma :=
  apply lemma in Hr as [? Hstep]; split; trivial;
  intros Hcons; apply Hstep; trivial; side_condition Hmode.

Lemma convert_fuel_sound (fuel : nat) (self self' : Image F) (m : string) :
  convert_fuel fuel self m = Ok self' ->
  mode self' = m /\ (consistent self -> consistent self').
Proof.
  revert self self' m.
  induction fuel as [|fuel IH]; intros self self' m Hr; [discriminate|].
  rewrite convert_fuel_unfold in Hr.
  destruct (m =? mode self) eqn:E1.
  { returned Hr. apply String.eqb_eq in E1. auto. }
  destruct (mode_in m modes) eqn:Hin; [|discriminate].
  cbn [negb] in Hr. apply mode_in_In in Hin.
  bind_inv Hr as empty Hempty. destruct empty.
  { returned Hr. split; [reflexivity|]. intros Hc.
    now apply consistent_not_empty in Hc. }
  destruct (m =? mode self ++ "A") eqn:E2.
  { bind_inv Hr as c0 Hc0. returned Hr. split; [reflexivity|].
    apply String.eqb_eq in E2. subst m.
    intros (Hmd & Hsec & Hlen & Hfv & Hpal). unfold consistent. fields.
    repeat split; trivial.
    - rewrite length_app, count_upper_append, Hlen. reflexivity.
    - intros fv Efv. destruct (fill_value self) as [fv0|]; [|discriminate].
      returned Efv. rewrite length_app, count_upper_append, (Hfv fv0 eq_refl).
      reflexivity.
    - intros Hp. apply Hpal.
      simpl in Hmd. decompose [or] Hmd; try contradiction;
        match goal with E : _ = mode self |- _ => rewrite <- E in * end;
        trivial; discriminate. }
  destruct (m ++ "A" =? mode self) eqn:E3.
  { returned Hr. split; [reflexivity|].
    apply String.eqb_eq in E3.
    intros (Hmd & Hsec & Hlen & Hfv & Hpal). unfold consistent. fields.
    assert (Hcount : count_upper (mode self) = (count_upper m + 1)%nat)
      by (rewrite <- E3, count_upper_append; reflexivity).
    repeat split; trivial.
    - rewrite drop_last_length. lia.
    - intros fv Efv. destruct (fill_value self) as [fv0|]; [|discriminate].
      cbn [option_map] in Efv. apply Some_eq in Efv. rewrite <- Efv.
      rewrite drop_last_length, (Hfv fv0 eq_refl). lia.
    - intros Hp. apply Hpal. rewrite <- E3.
      simpl in Hin. decompose [or] Hin; try contradiction;
        match goal with E : _ = m |- _ => rewrite <- E in * end;
        trivial; try discriminate.
      rewrite <- E3 in Hmd. simpl in Hmd.
      decompose [or] Hmd; try contradiction; discriminate. }
  destruct (endswith_A m && negb (endswith_A (mode self))).
  { bind_inv Hr as s Hs. apply IH in Hs as [_ Hs]. apply IH in Hr as [Hm Hr].
    auto. }
  destruct (endswith_A (mode self) && negb (endswith_A m)).
  { bind_inv Hr as s Hs. apply IH in Hs as [_ Hs]. apply IH in Hr as [Hm Hr].
    auto. }
  destruct (lookup cases (mode self)) as [row|] eqn:Erow; [|discriminate].
  destruct (lookup row m) as [meth|] eqn:Em; [|discriminate].
  apply lookup_In in Erow. apply lookup_In in Em.
  simpl in Erow.
  destruct Erow as [E|[E|[E|[E|[E|[E|[E|[E|[]]]]]]]]];
    injection E as Hmode <-; simpl in Em;
    destruct Em as [E|[E|[E|[]]]]; injection E as <- <-; cbn [call] in Hr;
    first [ table_entry Hr Hmode Hin rgb2ycbcr_step
          | table_entry Hr Hmode Hin ycbcr2rgb_step
          | table_entry Hr Hmode Hin rgb2l_step
          | table_entry Hr Hmode Hin (ycbcr2l_step (F := F))
          | table_entry Hr Hmode Hin (l2rgb_step (F := F))
          | table_entry Hr Hmode Hin l2ycbcr_step
          | table_entry Hr Hmode Hin to_p_step
          | exact (from_p_step (convert_fuel fuel) self self' _
                     (fun s m' s' => IH s s' m') Hr) ].
Qed.

End ConvertInvariant.

Section Construction.

Context {F : Type} `{Float64 F}.

Lemma init_channel_appends (cr : option (pyvalue F))
      (st st' : list (ma.MaskedArray F) * option (nat * nat)) (ichn : nat * array_like F) :
  init_channel cr st ichn = Ok st' ->
  List.length (fst st') = S (List.length (fst st)).
Proof.
  unfold init_channel. destruct ichn as [i chn]. intros Hr.
  bind_inv Hr as new Hnew. bind_inv Hr as first Hfirst.
  destruct (shape_eqb (ma.shape new) (ma.shape first)); [|discriminate].
  returned Hr. cbn [fst]. rewrite length_app. simpl. lia.
Qed.

Lemma init_loop_length (cr : option (pyvalue F)) (xs : list (nat * array_like F))
      (st st' : list (ma.MaskedArray F) * option (nat * nat)) :
  for_each xs (init_channel cr) st = Ok st' ->
  List.length (fst st') = (List.length (fst st) + List.length xs)%nat.
Proof.
  revert st. induction xs as [|x xs IH]; intros st Hr; simpl in Hr.
  - returned Hr. simpl. lia.
  - bind_inv Hr as st1 H1. apply init_channel_appends in H1. apply IH in Hr.
    simpl. lia.
Qed.

Lemma init_from_sequence (l : list (array_like F)) (mode_ : string)
      (cr : option (pyvalue F)) (fv : fill_arg F)
      (pal : option (list (list (option F)))) (img : Image F) :
  __init__ (CSeq l) mode_ cr fv pal = Ok img ->
  mode img = mode_ /\ In mode_ modes /\ _secondary_mode img = "RGB" /\
  List.length (channels img) = count_upper mode_ /\
  fill_value img = stored_fill fv /\ palette img = pal.
Proof.
  unfold __init__. intros Hr.
  bind_inv Hr as u1 H1. bind_inv Hr as u2 H2. bind_inv Hr as u3 H3.
  bind_inv Hr as len_channels H4. bind_inv Hr as u5 H5.
  destruct (forallb is_array l); [|discriminate].
  bind_inv Hr as st Hst. destruct (snd st) as [sh|]; [|discriminate].
  returned Hr. fields.
  destruct (List.length l =? count_upper mode_)%nat eqn:El; [|discriminate].
  apply Nat.eqb_eq in El.
  destruct (mode_in mode_ modes) eqn:Em; [|discriminate].
  apply mode_in_In in Em.
  apply init_loop_length in Hst.
  rewrite length_combine, length_seq, Nat.min_id in Hst. simpl in Hst.
  repeat split; trivial; congruence.
Qed.

Lemma init_from_array (a : array_like F) (mode_ : string)
      (cr : option (pyvalue F)) (fv : fill_arg F)
      (pal : option (list (list (option F)))) (img : Image F) :
  __init__ (CArray a) mode_ cr fv pal = Ok img ->
  mode img = mode_ /\ In mode_ modes /\ List.length (channels img) = 1%nat /\
  fill_value img = stored_fill fv /\ palette img = pal.
Proof.
  unfold __init__. intros Hr.
  bind_inv Hr as u1 H1. bind_inv Hr as u2 H2. bind_inv Hr as u3 H3.
  bind_inv Hr as len_channels H4. bind_inv Hr as u5 H5.
  bind_inv Hr as sh Hsh. bind_inv Hr as new Hnew. returned Hr. fields.
  destruct (mode_in mode_ modes) eqn:Em; [|discriminate].
  apply mode_in_In in Em. repeat split; trivial.
Qed.

Lemma init_from_nothing (mode_ : string)
      (cr : option (pyvalue F)) (fv : fill_arg F)
      (pal : option (list (list (option F)))) (img : Image F) :
  __init__ CNone mode_ cr fv pal = Ok img ->
  mode img = mode_ /\ In mode_ modes /\ channels img = [] /\
  fill_value img = stored_fill fv /\ palette img = pal.
Proof.
  unfold __init__. intros Hr.
  bind_inv Hr as u1 H1. bind_inv Hr as u2 H2. bind_inv Hr as u3 H3.
  bind_inv Hr as len_channels H4. bind_inv Hr as u5 H5. returned Hr. fields.
  destruct (mode_in mode_ modes) eqn:Em; [|discriminate].
  apply mode_in_In in Em. repeat split; trivial.
Qed.

(** C6, as amended: the constructor checks the channel count of a list of
    channels only, and [convert] keeps the invariant.  An image built from
    a list or tuple of channels has as many channels as its mode has
    capital letters, and the fill value and the palette it was given,
    unchecked.  An image built from a single array has one channel and an
    image built from no channels has none, whatever the mode.  A call of
    [convert] that returns on a consistent image returns a consistent
    image in the requested mode: channels and fill value change in
    lockstep. *)
Theorem construction_and_convert_keep_the_invariant :
  (forall l mode_ cr fv pal (img : Image F),
      __init__ (CSeq l) mode_ cr fv pal = Ok img ->
      mode img = mode_ /\ In mode_ modes /\
      List.length (channels img) = count_upper mode_ /\
      fill_value img = stored_fill fv /\ palette img = pal /\
      ((forall fv0, stored_fill fv = Some fv0 -> List.length fv0 = count_upper mode_) ->
       (mode_in mode_ ["P"; "PA"] = true -> forall p, pal = Some p ->
          Forall (fun entry => List.length entry = 3%nat) p) ->
       consistent img)) /\
  (forall (self self' : Image F) m,
      consistent self -> convert self m = Ok self' ->
      mode self' = m /\ consistent self') /\
  (forall a mode_ cr fv pal (img : Image F),
      __init__ (CArray a) mode_ cr fv pal = Ok img ->
      mode img = mode_ /\ In mode_ modes /\ List.length (channels img) = 1%nat /\
      fill_value img = stored_fill fv /\ palette img = pal) /\
  (forall mode_ cr fv pal (img : Image F),
      __init__ CNone mode_ cr fv pal = Ok img ->
      mode img = mode_ /\ In mode_ modes /\ channels img = [] /\
      fill_value img = stored_fill fv /\ palette img = pal).
Proof.
  split; [|split; [|split]].
  - intros l mode_ cr fv pal img Hr.
    apply init_from_sequence in Hr as (Hm & Hin & Hsec & Hlen & Hfv & Hpal).
    refine (conj Hm (conj Hin (conj Hlen (conj Hfv (conj Hpal _))))).
    intros Hfill Hentries. unfold consistent.
    rewrite Hm, Hsec, Hlen, Hfv, Hpal. simpl count_upper.
    split; [trivial|]. split; [right; left; reflexivity|].
    split; [reflexivity|]. split; assumption.
  - intros self self' m Hc. unfold convert. generalize recursion_limit.
    intros fuel Hr.
    destruct (convert_fuel_sound fuel self self' m Hr) as [Hm Hs]. auto.
  - intros a mode_ cr fv pal img. apply init_from_array.
  - intros mode_ cr fv pal img. apply init_from_nothing.
Qed.

End Construction.

(** A run of the theorem above: a one-pixel image in mode LA built by the
    constructor with a fill value of two entries, and then converted; an
    image built from one array in mode RGB, and one built from nothing. *)
Lemma construction_and_convert_witness :
  (forall img : Image Q,
      __init__ (CSeq [Plain (1, 1)%nat [1 # 2]; Plain (1, 1)%nat [1 # 4]]) "LA" None
               (FSeq [0; 1]) None = Ok img ->
      consistent img) /\
  (forall (self' : Image Q) m,
      convert example.la_quarter m = Ok self' -> mode self' = m /\ consistent self') /\
  (forall img : Image Q,
      __init__ (CArray (Plain (1, 1)%nat [0])) "RGB" None FNone None = Ok img ->
      List.length (channels img) = 1%nat) /\
  (forall img : Image Q,
      __init__ CNone "L" None FNone None = Ok img -> channels img = []).
Proof.
  destruct (construction_and_convert_keep_the_invariant (H := rationals))
    as (Hlist & Hconvert & Harray & Hnone).
  split; [|split; [|split]].
  - intros img Hr. apply Hlist in Hr.
    destruct Hr as (_ & _ & _ & _ & _ & Hc). apply Hc.
    + intros fv0 [= <-]. reflexivity.
    + discriminate.
  - intros self' m. apply Hconvert.
    unfold consistent. simpl. repeat split; auto; intros; discriminate.
  - intros img Hr. now apply Harray in Hr.
  - intros img Hr. now apply Hnone in Hr.
Defined.

(** C6 as stated fails at construction: a fill value of three entries is
    stored beside one channel, a single array makes one channel in mode
    RGB, and an empty image has no channel in mode L. *)
Lemma construction_does_not_check_the_fill_value :
  (exists img : Image Q,
      __init__ (CSeq [Plain (1, 1)%nat [0]]) "L" None (FSeq [0; 0; 0]) None = Ok img /\
      List.length (channels img) = 1%nat /\
      option_map (@List.length Q) (fill_value img) = Some 3%nat) /\
  (exists img : Image Q,
      __init__ (CArray (Plain (1, 1)%nat [0])) "RGB" None FNone None = Ok img /\
      List.length (channels img) = 1%nat /\ count_upper (mode img) = 3%nat) /\
  (exists img : Image Q,
      __init__ CNone "L" None FNone None = Ok img /\
      List.length (channels img) = 0%nat /\ count_upper (mode img) = 1%nat).
Proof.
  repeat split; eexists; (split; [vm_compute; reflexivity|]); split; reflexivity.
Qed.

(** ** Finalization *)

Section FinalizeFrame.

Context {F : Type} `{Float64 F}.

Lemma convert_mode (self self' : Image F) (m : string) :
  convert self m = Ok self' -> mode self' = m.
Proof.
  unfold convert. generalize recursion_limit. intros fuel Hr.
  now destruct (convert_fuel_sound fuel self self' m Hr).
Qed.

(** C5, as amended: [_finalize] leaves an image alone unless it is
    indexed.  When the call returns, the image is the one it was called on
    if its mode is neither P nor PA; an image in mode P (PA) has been
    converted in place to RGB (RGBA), as the docstring of [_finalize]
    says. *)
Theorem finalize_converts_indexed_images_only
        (self self' : Image F)
        (out : list (ma.MaskedArray Z) * option (list Z)) :
  _finalize self = Ok (self', out) ->
  (mode self <> "P" -> mode self <> "PA" -> self' = self) /\
  (mode self = "P" -> convert self "RGB" = Ok self' /\ mode self' = "RGB") /\
  (mode self = "PA" -> convert self "RGBA" = Ok self' /\ mode self' = "RGBA").
Proof.
  unfold _finalize. intros Hr.
  bind_inv Hr as s1 H1. bind_inv Hr as s2 H2. bind_inv Hr as fv Hfv.
  apply Ok_inj in Hr. injection Hr as <- _.
  destruct (mode self =? "P") eqn:EP.
  - apply String.eqb_eq in EP. pose proof (convert_mode _ _ _ H1) as Hm.
    rewrite Hm in H2. cbn in H2. returned H2.
    repeat split; trivial; congruence.
  - apply String.eqb_neq in EP. returned H1.
    destruct (mode s1 =? "PA") eqn:EA.
    + apply String.eqb_eq in EA. pose proof (convert_mode _ _ _ H2) as Hm.
      repeat split; trivial; congruence.
    + apply String.eqb_neq in EA. returned H2.
      repeat split; trivial; congruence.
Qed.

End FinalizeFrame.

(** A run of the theorem above on a direct image and on an indexed one. *)
Lemma finalize_frame_witness :
  (forall self' out, _finalize example.la_quarter = Ok (self', out) ->
                     self' = example.la_quarter) /\
  (forall self' out, _finalize example.p_pair = Ok (self', out) ->
                     convert example.p_pair "RGB" = Ok self' /\ mode self' = "RGB").
Proof.
  split; intros self' out Hr.
  - apply (finalize_converts_indexed_images_only example.la_quarter self' out Hr);
      discriminate.
  - apply (finalize_converts_indexed_images_only example.p_pair self' out Hr).
    reflexivity.
Defined.

(** C5 as stated fails: finalizing an image of one index channel in mode P
    leaves it in mode RGB with three channels. *)
Lemma finalize_converts_a_palette_image :
  mode example.p_pair = "P" /\
  List.length (channels example.p_pair) = 1%nat /\
  exists self' out,
    _finalize example.p_pair = Ok (self', out) /\
    mode self' = "RGB" /\ List.length (channels self') = 3%nat.
Proof.
  repeat split. eexists. eexists. split; [vm_compute; reflexivity|].
  split; reflexivity.
Qed.

Section ExactRounding.

Open Scope Q_scope.

Lemma ltb_lt (x y : Q) : exact.ltb x y = true <-> x < y.
Proof.
  unfold exact.ltb. rewrite negb_true_iff, <- not_true_iff_false, Qle_bool_iff.
  split; [apply Qnot_le_lt | apply Qlt_not_le].
Qed.

Lemma ltb_ge (x y : Q) : exact.ltb x y = false <-> y <= x.
Proof.
  unfold exact.ltb. rewrite negb_false_iff, Qle_bool_iff. reflexivity.
Qed.

Lemma floor_bounds (x : Q) :
  inject_Z (Qfloor x) <= x /\ x < inject_Z (Qfloor x) + 1.
Proof.
  split; [apply Qfloor_le|].
  pose proof (Qlt_floor x) as Hl. rewrite inject_Z_plus in Hl. exact Hl.
Qed.

Lemma ceiling_bounds (x : Q) :
  inject_Z (Qceiling x) - 1 < x /\ x <= inject_Z (Qceiling x).
Proof.
  split; [|apply Qle_ceiling].
  pose proof (Qceiling_lt x) as Hl.
  unfold Zminus in Hl. rewrite inject_Z_plus in Hl. exact Hl.
Qed.

Lemma round_half_even_nearest (x : Q) :
  finalized.nearest_even x (exact.round_half_even x).
Proof.
  unfold finalized.nearest_even, exact.round_half_even.
  destruct (floor_bounds x) as [Hlo Hhi].
  set (f := Qfloor x) in *.
  destruct (exact.ltb (x - inject_Z f) (1 # 2)) eqn:E1.
  - apply ltb_lt in E1. split.
    + apply Qabs_Qle_condition. split; lra.
    + intros Ht. rewrite Qabs_pos in Ht by lra. lra.
  - apply ltb_ge in E1.
    destruct (exact.ltb (1 # 2) (x - inject_Z f)) eqn:E2.
    + apply ltb_lt in E2. rewrite inject_Z_plus. change (inject_Z 1) with 1. split.
      * apply Qabs_Qle_condition. split; lra.
      * intros Ht. rewrite Qabs_neg in Ht by lra. lra.
    + apply ltb_ge in E2.
      destruct (Z.even f) eqn:Ev.
      * split; trivial. apply Qabs_Qle_condition. split; lra.
      * rewrite inject_Z_plus. change (inject_Z 1) with 1. split.
        -- apply Qabs_Qle_condition. split; lra.
        -- intros _. rewrite Z.even_add, Ev. reflexivity.
Qed.

Lemma round_half_even_byte (x : Q) :
  0 <= x <= 255 -> (0 <= exact.round_half_even x <= 255)%Z.
Proof.
  intros [H0 H255]. unfold exact.round_half_even.
  destruct (floor_bounds x) as [Hlo Hhi].
  assert (Hf0 : (0 <= Qfloor x)%Z).
  { change 0%Z with (Qfloor 0). now apply Qfloor_resp_le. }
  assert (Hf255 : (Qfloor x <= 255)%Z).
  { change 255%Z with (Qfloor 255). now apply Qfloor_resp_le. }
  set (f := Qfloor x) in *.
  assert (Hstep : 1 # 2 <= x - inject_Z f -> (f + 1 <= 255)%Z).
  { intros Hr. destruct (Z.eq_dec f 255) as [->|Hn]; [|lia].
    exfalso. change (inject_Z 255) with 255 in Hr. lra. }
  destruct (exact.ltb (x - inject_Z f) (1 # 2)) eqn:E1; [lia|].
  apply ltb_ge in E1. specialize (Hstep E1).
  destruct (exact.ltb (1 # 2) (x - inject_Z f)); [lia|].
  destruct (Z.even f); lia.
Qed.

Lemma trunc_truncated (x : Q) : finalized.truncated x (exact.trunc x).
Proof.
  unfold finalized.truncated, exact.trunc.
  destruct (exact.ltb x 0) eqn:E.
  - apply ltb_lt in E. split; [lra|]. intros _. apply ceiling_bounds.
  - apply ltb_ge in E. split; [|lra]. intros _. apply floor_bounds.
Qed.

Lemma trunc_integer (z : Z) : exact.trunc (inject_Z z) = z.
Proof.
  unfold exact.trunc. destruct (exact.ltb (inject_Z z) 0).
  - apply Qceiling_Z.
  - apply Qfloor_Z.
Qed.

Lemma clip_clipped (v : Q) :
  finalized.clipped v (if exact.ltb v 0 then 0 else if exact.ltb 1 v then 1 else v) /\
  0 <= (if exact.ltb v 0 then 0 else if exact.ltb 1 v then 1 else v) <= 1.
Proof.
  unfold finalized.clipped.
  destruct (exact.ltb v 0) eqn:E0.
  - apply ltb_lt in E0. repeat split; intros; try reflexivity; lra.
  - apply ltb_ge in E0. destruct (exact.ltb 1 v) eqn:E1.
    + apply ltb_lt in E1. repeat split; intros; try reflexivity; lra.
    + apply ltb_ge in E1. repeat split; intros; try reflexivity; lra.
Qed.

End ExactRounding.

Section FinalizeValues.

Variable pow : Q -> Q -> Q.
Variable log : Q -> Q.

Lemma final_value_finalized (v : Q) :
  finalized.value v (final_value (H := exactQ pow log) v).
Proof.
  unfold final_value, finalized.value, uint8_max, clip1.
  cbn [to_uint8 fround fmul fltb lit exactQ].
  destruct (clip_clipped v) as [Hc Hr].
  set (c := if exact.ltb v 0 then 0%Q else if exact.ltb 1 v then 1%Q else v) in *.
  rewrite trunc_integer.
  assert (Hb : (0 <= exact.round_half_even (c * 255) <= 255)%Z).
  { apply round_half_even_byte. split; lra. }
  rewrite Z.mod_small by lia. split; trivial.
  exists c. split; trivial. apply round_half_even_nearest.
Qed.

Lemma final_fill_finalized (col : Q) (z : Z) :
  final_fill (H := exactQ pow log) col = Ok z -> finalized.fill col z.
Proof.
  unfold final_fill, finalized.fill, uint8_max.
  cbn [py_int fmul lit exactQ]. intros Hz. returned Hz. apply trunc_truncated.
Qed.

Lemma Forall2_map_right {A B} (R : A -> B -> Prop) (f : A -> B) (l : list A) :
  (forall x, R x (f x)) -> Forall2 R l (map f l).
Proof.
  intros Hf. induction l as [|x l IH]; simpl; constructor; auto.
Qed.

Lemma map_result_Forall2 {A B} (f : A -> result B) (l : list A) (l' : list B) :
  map_result f l = Ok l' -> Forall2 (fun x y => f x = Ok y) l l'.
Proof.
  revert l'. induction l as [|x l IH]; simpl; intros l' Hr.
  - returned Hr. constructor.
  - bind_inv Hr as y Hy. bind_inv Hr as ys Hys. returned Hr.
    constructor; auto.
Qed.

(** C4, as amended: channels are clipped and rounded, fill entries are
    truncated.  Whatever the arithmetic of the floats is, when [_finalize]
    returns, every channel of the image it leaves has become a channel of
    the same shape and mask whose values are the casts to a byte of
    [np.round(clip(v, 0, 1) * 255)], the product being the product of the
    floats, and every entry [col] of a fill value has become
    [int(col * 255)], not clipped and not rounded.  Over exact arithmetic,
    where the product is not rounded to a float, the values of the
    channels are bytes, each the integer nearest to 255 times the value
    clipped to [0, 1], the even one in a tie, and an entry of the fill
    value is [col * 255] without its fractional part. *)
Theorem finalize_rounds_channels_and_truncates_fill :
  (forall (F : Type) (H : Float64 F) (self self' : Image F)
          (chans : list (ma.MaskedArray Z)) (fv : option (list Z)),
      _finalize self = Ok (self', (chans, fv)) ->
      Forall2 (fun c c' =>
                 ma.shape c' = ma.shape c /\ ma.mask c' = ma.mask c /\
                 ma.data c' =
                 map (fun v => to_uint8
                                 (fround (fmul (clip1 (lit 0) (lit 1) v) (lit 255))))
                     (ma.data c))
              (channels self') chans /\
      match fill_value self' with
      | None => fv = None
      | Some l =>
          exists l', fv = Some l' /\
                     Forall2 (fun col z => py_int (fmul col (lit 255)) = Ok z) l l'
      end) /\
  (forall (self self' : Image Q) (chans : list (ma.MaskedArray Z))
          (fv : option (list Z)),
      _finalize (H := exactQ pow log) self = Ok (self', (chans, fv)) ->
      Forall2 (fun c c' => ma.shape c' = ma.shape c /\ ma.mask c' = ma.mask c /\
                           Forall2 finalized.value (ma.data c) (ma.data c'))
              (channels self') chans /\
      match fill_value self' with
      | None => fv = None
      | Some l => exists l', fv = Some l' /\ Forall2 finalized.fill l l'
      end).
Proof.
  split.
  - intros F H self self' chans fv. unfold _finalize. intros Hr.
    bind_inv Hr as s1 H1. bind_inv Hr as s2 H2. bind_inv Hr as fv0 Hfv.
    apply Ok_inj in Hr. injection Hr as <- <- <-. split.
    + apply Forall2_map_right. intros c. cbn [ma.map1 ma.shape ma.mask ma.data].
      repeat split.
    + destruct (fill_value s2) as [l|].
      * bind_inv Hfv as l' Hl. returned Hfv. exists l'. split; trivial.
        now apply map_result_Forall2 in Hl.
      * now returned Hfv.
  - intros self self' chans fv. unfold _finalize. intros Hr.
    bind_inv Hr as s1 H1. bind_inv Hr as s2 H2. bind_inv Hr as fv0 Hfv.
    apply Ok_inj in Hr. injection Hr as <- <- <-. split.
    + apply Forall2_map_right. intros c. cbn [ma.map1 ma.shape ma.mask ma.data].
      repeat split. apply Forall2_map_right. apply final_value_finalized.
    + destruct (fill_value s2) as [l|].
      * bind_inv Hfv as l' Hl. returned Hfv. exists l'. split; trivial.
        apply map_result_Forall2 in Hl.
        eapply Forall2_impl; [|exact Hl].
        intros col z. apply final_fill_finalized.
      * now returned Hfv.
Qed.

End FinalizeValues.

(** A run of the theorem above: a pixel of luminance 1/2 and alpha 1 with
    the fill value (1/2, 2). *)
Lemma finalize_values_witness :
  Forall2 (fun c c' => ma.shape c' = ma.shape c /\ ma.mask c' = ma.mask c /\
                       Forall2 finalized.value (ma.data c) (ma.data c'))
          (channels example.la_filled)
          [ma.array (1, 1)%nat [128%Z] [false]; ma.array (1, 1)%nat [255%Z] [false]] /\
  match fill_value example.la_filled with
  | None => Some [127%Z; 510%Z] = None
  | Some l => exists l', Some [127%Z; 510%Z] = Some l' /\ Forall2 finalized.fill l l'
  end.
Proof.
  apply (proj2 (finalize_rounds_channels_and_truncates_fill
                  exact.pow_integral (fun _ => 0%Q))
               example.la_filled example.la_filled).
  vm_compute. reflexivity.
Defined.

(** C4 as stated fails for the fill value: the entries 1/2 and 2 become
    127 and 510, which are not the bytes that clipping and rounding give
    (128 and 255). *)
Lemma finalize_truncates_the_fill_value :
  fill_value example.la_filled = Some [1 # 2; 2] /\
  (exists self' chans,
      _finalize example.la_filled = Ok (self', (chans, Some [127%Z; 510%Z]))) /\
  finalized.value (1 # 2) 128 /\ ~ finalized.value (1 # 2) 127 /\
  finalized.value 2 255 /\ ~ finalized.value 2 510.
Proof.
  split; [reflexivity|]. split.
  { eexists. eexists. vm_compute. reflexivity. }
  assert (Hhalf : forall c, finalized.clipped (1 # 2) c -> c == 1 # 2).
  { intros c (_ & _ & Hc). apply Hc. split; lra. }
  assert (Htwo : forall c, finalized.clipped 2 c -> c == 1).
  { intros c (_ & Hc & _). apply Hc. lra. }
  repeat split; try lia.
  - exists (1 # 2). split; [repeat split; intros; try reflexivity; lra|].
    split; [|reflexivity]. apply Qabs_Qle_condition. split; vm_compute; discriminate.
  - intros (_ & c & Hc & _ & Heven). apply Hhalf in Hc.
    assert (E : Z.even 127 = true); [|discriminate E].
    apply Heven. rewrite Hc. reflexivity.
  - exists 1. split; [repeat split; intros; try reflexivity; lra|].
    split; [|intros Ht; vm_compute in Ht; discriminate Ht].
    apply Qabs_Qle_condition. split; vm_compute; discriminate.
  - intros (Hr & _). lia.
Qed.

(** ** Colour-space round trips *)

Section Dispatch.

Context {F : Type} `{Float64 F}.

Lemma convert_fuel_dispatched (fuel : nat) (self : Image F) (dst : string) (meth : method) :
  is_empty self = Ok false ->
  dispatched (mode self) dst = Some meth ->
  convert_fuel (S fuel) self dst = call (convert_fuel fuel) meth self dst.
Proof.
  intros Hne Hd. rewrite convert_fuel_unfold. unfold dispatched in Hd.
  destruct (dst =? mode self); [discriminate|].
  destruct (negb (mode_in dst modes)); [discriminate|].
  rewrite Hne. cbn [bind].
  destruct (dst =? mode self ++ "A"); [discriminate|].
  destruct (dst ++ "A" =? mode self); [discriminate|].
  destruct (endswith_A dst && negb (endswith_A (mode self))); [discriminate|].
  destruct (endswith_A (mode self) && negb (endswith_A dst)); [discriminate|].
  destruct (lookup cases (mode self)) as [row|]; [|discriminate].
  rewrite Hd. reflexivity.
Qed.

(** The luminance round trip: [L -> YCbCr -> L], and the same with alpha,
    gives back the image itself. *)
Lemma luminance_round_trip (self : Image F) (mid : string) :
  (mode self = "L" /\ mid = "YCbCr") \/ (mode self = "LA" /\ mid = "YCbCrA") ->
  is_empty self = Ok false ->
  (forall fv, fill_value self = Some fv -> fv <> []) ->
  exists y, convert self mid = Ok y /\ convert y (mode self) = Ok self.
Proof.
  intros Hmodes Hne Hfill.
  destruct (nonempty_has_channel self Hne) as (luma & rest & Ec).
  destruct self as [chans md w h fv pal sh sec]. fields. subst chans.
  set (zeros := ma.set_mask (ma.full (ma.shape luma) (lit 0)) (ma.mask luma)).
  exists (mkImage (luma :: zeros :: zeros :: rest) mid w h
                  (option_map (fun l => match l with
                                        | f0 :: l' => f0 :: lit 0 :: lit 0 :: l'
                                        | [] => []
                                        end) fv)
                  pal sh sec).
  assert (Hfv : fv = None \/ exists f0 l, fv = Some (f0 :: l)).
  { destruct fv as [[|f0 l]|]; eauto. now destruct (Hfill [] eq_refl). }
  unfold convert, recursion_limit.
  destruct Hmodes as [[-> ->] | [-> ->]];
    (split;
     [ rewrite (convert_fuel_dispatched _ _ _ m_l2ycbcr); trivial;
       cbn [call]; unfold _l2ycbcr, _check_modes, update_fill; fields
     | rewrite (convert_fuel_dispatched _ _ _ m_ycbcr2l); trivial;
       cbn [call]; unfold _ycbcr2l, _check_modes, update_fill; fields ]);
    cbn [mode_in existsb String.eqb Ascii.eqb Bool.eqb orb bind getitem nth_error skipn];
    destruct Hfv as [-> | (f0 & l & ->)];
    cbn [bind getitem nth_error skipn option_map]; trivial.
Qed.

End Dispatch.

(** A run of the luminance round trip on a row of three pixels in mode L
    and on a pixel in mode LA with a fill value. *)
Lemma luminance_round_trip_witness :
  (exists y, convert example.l_row "YCbCr" = Ok y /\
             convert y (mode example.l_row) = Ok example.l_row) /\
  (exists y, convert example.la_filled "YCbCrA" = Ok y /\
             convert y (mode example.la_filled) = Ok example.la_filled).
Proof.
  split.
  - apply (luminance_round_trip example.l_row "YCbCr").
    + left. split; reflexivity.
    + reflexivity.
    + intros fv Hfv. discriminate Hfv.
  - apply (luminance_round_trip example.la_filled "YCbCrA").
    + right. split; reflexivity.
    + reflexivity.
    + intros fv Hfv. apply Some_eq in Hfv. subst fv. discriminate.
Defined.

Section ExactColour.

Variable pow : Q -> Q -> Q.
Variable log : Q -> Q.

Let E : Float64 Q := exactQ pow log.

(** What [ycbcr2rgb] returns on the result of [rgb2ycbcr], over exact
    arithmetic: [2 * cr_ / (1 - kr_)] divides by [1 - kr_] where the
    inverse of [rgb2ycbcr] multiplies, so red comes back at the distance
    [(r - y) / (1 - kr)^2] from the luminance [y], not [r - y], and blue
    likewise. *)
Lemma rgb_round_trip_rescales (r g b : Q) :
  let '(y, cb, cr) := @rgb2ycbcr Q E Q (@scalar_arith Q E) r g b in
  let '(r', g', b') := @ycbcr2rgb Q E Q (@scalar_arith Q E) y cb cr in
  r' - y == (r - y) / ((1 - (299 # 1000)) * (1 - (299 # 1000))) /\
  b' - y == (b - y) / ((1 - (114 # 1000)) * (1 - (114 # 1000))).
Proof.
  unfold rgb2ycbcr, ycbcr2rgb, kr_, kb_.
  cbn [add sub smul sdiv scalar_arith fadd fsub fmul fdiv lit E exactQ].
  split; field.
Qed.

End ExactColour.

(** C7 on pure red: [rgb2ycbcr(1, 0, 0)] is (0.299, -299/1772, 1/2), and
    [ycbcr2rgb] of it is about (1.7255, -0.3537, -0.0819), not (1, 0, 0);
    [convert] gives the same values on a one-pixel image.  For every
    triple the distance of red from the luminance comes back divided by
    [(1 - kr)^2]. *)
Theorem ycbcr_round_trip_changes_red :
  (forall pow log r g b,
      let E := exactQ pow log in
      let '(y, cb, cr) := @rgb2ycbcr Q E Q (@scalar_arith Q E) r g b in
      let '(r', g', b') := @ycbcr2rgb Q E Q (@scalar_arith Q E) y cb cr in
      r' - y == (r - y) / ((1 - (299 # 1000)) * (1 - (299 # 1000)))) /\
  (exists y back,
      convert example.rgb_red "YCbCr" = Ok y /\
      map (fun c => map Qred (ma.data c)) (channels y) =
      [[299 # 1000]; [-299 # 1772]; [1 # 2]] /\
      convert y "RGB" = Ok back /\
      map (fun c => map Qred (ma.data c)) (channels back) =
      [[1209599 # 701000]; [-28559459733363 # 80753912263000];
       [-16071549 # 196249000]] /\
      map (@ma.data Q) (channels example.rgb_red) = [[1]; [0]; [0]]).
Proof.
  split.
  - intros pow log r g b E.
    pose proof (rgb_round_trip_rescales pow log r g b) as Hr.
    fold E in Hr.
    destruct (@rgb2ycbcr Q E Q (@scalar_arith Q E) r g b) as [[y cb] cr].
    destruct (@ycbcr2rgb Q E Q (@scalar_arith Q E) y cb cr) as [[r' g'] b'].
    apply Hr.
  - eexists. eexists.
    split; [vm_compute; reflexivity|].
    split; [vm_compute; reflexivity|].
    split; [vm_compute; reflexivity|].
    split; vm_compute; reflexivity.
Qed.
(** ** Loops over the channels *)

Section ChannelLoops.

Context {F : Type} `{Float64 F}.

Lemma set_channels_same (self : Image F) : set_channels self (channels self) = self.
Proof. destruct self; reflexivity. Qed.

Lemma set_channels_twice (self : Image F) (a b : list (ma.MaskedArray F)) :
  set_channels (set_channels self a) b = set_channels self b.
Proof. reflexivity. Qed.

(** A loop whose round [i] replaces channel [i] by [g i] of it. *)
Lemma for_each_channel (body : Image F -> nat -> result (Image F))
      (g : nat -> ma.MaskedArray F -> ma.MaskedArray F) (P : nat -> Prop) :
  (forall self done c todo,
      channels self = done ++ c :: todo -> P (List.length done) ->
      body self (List.length done) =
      Ok (set_channels self (done ++ g (List.length done) c :: todo))) ->
  forall todo rest done self,
    channels self = done ++ todo ++ rest ->
    (forall i, (List.length done <= i < List.length done + List.length todo)%nat -> P i) ->
    for_each (seq (List.length done) (List.length todo)) body self =
    Ok (set_channels self
          (done ++ zip_with g (seq (List.length done) (List.length todo)) todo ++ rest)).
Proof.
  intros Hbody. induction todo as [|c todo IH]; intros rest done self Hc HP.
  - cbn in Hc |- *. rewrite <- Hc, set_channels_same. reflexivity.
  - cbn [List.length seq for_each zip_with].
    rewrite (Hbody self done c (todo ++ rest) Hc) by (apply HP; cbn [List.length]; lia).
    cbn [bind].
    specialize (IH rest (done ++ [g (List.length done) c])
                   (set_channels self (done ++ g (List.length done) c :: todo ++ rest))).
    rewrite length_app in IH. cbn [List.length] in IH.
    replace (List.length done + 1)%nat with (S (List.length done)) in IH by lia.
    rewrite IH.
    + rewrite set_channels_twice, <- app_assoc. reflexivity.
    + cbn [channels set_channels]. rewrite <- app_assoc. reflexivity.
    + intros i Hi. apply HP. cbn [List.length]. lia.
Qed.

(** The first exception of a loop is the exception of the loop. *)
Lemma for_each_raises {A S} (xs ys : list A) (x : A) (body : S -> A -> result S)
      (s s' : S) (e : exn) :
  for_each xs body s = Ok s' -> body s' x = Raise e ->
  for_each (xs ++ x :: ys) body s = Raise e.
Proof.
  intros Hxs Hx. rewrite for_each_app, Hxs. cbn [bind for_each]. now rewrite Hx.
Qed.

Lemma zip_with_seq_flags {A} (flags : list bool) (xs : list A) (g : A -> A) :
  (List.length xs <= List.length flags)%nat ->
  zip_with (fun i x => if nth i flags false then g x else x)
           (seq 0 (List.length xs)) xs =
  zip_with (fun x (flag : bool) => if flag then g x else x) xs flags.
Proof.
  intros Hl. apply nth_error_ext. intros k.
  rewrite !zip_with_nth_error.
  destruct (nth_error xs k) as [x|] eqn:Hx.
  - assert (Hk : (k < List.length xs)%nat) by (apply nth_error_Some; congruence).
    rewrite nth_error_seq. destruct (Nat.ltb_spec k (List.length xs)); [|lia].
    cbn. destruct (nth_error flags k) as [b|] eqn:Hb.
    + now rewrite (nth_error_nth _ _ _ Hb).
    + apply nth_error_None in Hb. lia.
  - destruct (nth_error (seq 0 (List.length xs)) k); reflexivity.
Qed.

End ChannelLoops.

(** ** Clipping *)

Section ClipProperties.

Context {F : Type} `{Float64 F}.

Lemma clip_round (flags : list bool) (self : Image F)
      (done todo : list (ma.MaskedArray F)) (c : ma.MaskedArray F) :
  channels self = done ++ c :: todo ->
  (List.length done < List.length flags)%nat ->
  (flag <- getitem flags (List.length done) ;;
   if flag
   then update_channel self (List.length done)
          (fun chn => Ok (ma.map1 (clip1 (lit 0) (lit 1)) chn))
   else Ok self) =
  Ok (set_channels self
        (done ++ (if nth (List.length done) flags false then clipped_channel c else c)
              :: todo)).
Proof.
  intros Hc Hl. unfold getitem.
  destruct (nth_error flags (List.length done)) as [b|] eqn:Hb;
    [|apply nth_error_None in Hb; lia].
  rewrite (nth_error_nth _ _ _ Hb). cbn [bind]. destruct b.
  - unfold update_channel, getitem.
    rewrite Hc, nth_error_app2, Nat.sub_diag by lia. cbn [nth_error bind].
    now rewrite setitem_app.
  - now rewrite <- Hc, set_channels_same.
Qed.

Lemma clip_each_length (chans : list (ma.MaskedArray F)) (flags : list bool) :
  (List.length chans <= List.length flags)%nat ->
  List.length (clip_each chans flags) = List.length chans.
Proof. intros Hl. unfold clip_each. rewrite zip_with_length. lia. Qed.

(** The loop of [clip] over the first [length todo] channels. *)
Lemma clip_flags (self : Image F) (flags : list bool)
      (todo rest : list (ma.MaskedArray F)) :
  channels self = todo ++ rest ->
  (List.length todo <= List.length flags)%nat ->
  for_each (seq 0 (List.length todo))
    (fun self i =>
       flag <- getitem flags i ;;
       if flag
       then update_channel self i
              (fun chn => Ok (ma.map1 (clip1 (lit 0) (lit 1)) chn))
       else Ok self) self =
  Ok (set_channels self (clip_each todo flags ++ rest)).
Proof.
  intros Hc Hl.
  rewrite (for_each_channel _
             (fun i c => if nth i flags false then clipped_channel c else c)
             (fun i => (i < List.length flags)%nat)
             (fun s d c t Hc Hi => clip_round flags s d t c Hc Hi)
             todo rest [] self Hc).
  - cbn [app List.length]. unfold clip_each.
    now rewrite zip_with_seq_flags.
  - cbn [List.length]. intros i Hi. lia.
Qed.

Lemma clip_each_true (chans : list (ma.MaskedArray F)) :
  clip_each chans (repeat true (List.length chans)) = map clipped_channel chans.
Proof.
  unfold clip_each. induction chans as [|c chans IH]; cbn; [trivial | now rewrite IH].
Qed.

Lemma clip_each_false (chans : list (ma.MaskedArray F)) :
  clip_each chans (repeat false (List.length chans)) = chans.
Proof.
  unfold clip_each. induction chans as [|c chans IH]; cbn; [trivial | now rewrite IH].
Qed.

Lemma clip_list (self : Image F) (flags : list bool) :
  (List.length (channels self) <= List.length flags)%nat ->
  clip self (ISeq flags) = Ok (set_channels self (clip_each (channels self) flags)).
Proof.
  intros Hl. unfold clip.
  rewrite (clip_flags self flags (channels self) []); [|now rewrite app_nil_r|trivial].
  now rewrite app_nil_r.
Qed.

Lemma clip_short_list (self : Image F) (flags : list bool) :
  (List.length flags < List.length (channels self))%nat ->
  clip self (ISeq flags) = Raise IndexError.
Proof.
  intros Hl. unfold clip.
  rewrite <- (firstn_skipn (List.length flags) (channels self)) at 1.
  rewrite length_app, seq_app.
  assert (Hf : List.length (firstn (List.length flags) (channels self))
               = List.length flags) by (rewrite length_firstn; lia).
  destruct (skipn (List.length flags) (channels self)) as [|c rest] eqn:Hs.
  { apply (f_equal (@List.length _)) in Hs. rewrite length_skipn in Hs.
    cbn in Hs. lia. }
  cbn [List.length seq]. rewrite Nat.add_0_l.
  eapply for_each_raises.
  - apply (clip_flags self flags _ (c :: rest)); [|lia].
    now rewrite <- Hs, firstn_skipn.
  - unfold getitem. rewrite Hf.
    now rewrite (proj2 (nth_error_None flags (List.length flags)) (le_n _)).
Qed.

Lemma clip_true (self : Image F) :
  clip self (IBool true) = Ok (set_channels self (map clipped_channel (channels self))).
Proof.
  unfold clip.
  rewrite (clip_flags self _ (channels self) []);
    [|now rewrite app_nil_r|now rewrite repeat_length].
  now rewrite app_nil_r, clip_each_true.
Qed.

Lemma clip_false (self : Image F) : clip self (IBool false) = Ok self.
Proof.
  unfold clip.
  rewrite (clip_flags self _ (channels self) []);
    [|now rewrite app_nil_r|now rewrite repeat_length].
  now rewrite app_nil_r, clip_each_false, set_channels_same.
Qed.

(** What a call of [clip] that returns has done: some list of flags, one
    for each channel at least, says which channels were clipped. *)
Lemma clip_returns (self self' : Image F) (a : invert_arg) :
  clip self a = Ok self' ->
  exists flags, (List.length (channels self) <= List.length flags)%nat /\
                self' = set_channels self (clip_each (channels self) flags).
Proof.
  destruct a as [[|]|flags]; intros Hr.
  - rewrite clip_true, <- clip_each_true in Hr. returned Hr.
    eexists. split; [|reflexivity]. now rewrite repeat_length.
  - rewrite clip_false in Hr. returned Hr.
    exists (repeat false (List.length (channels self'))).
    rewrite repeat_length, clip_each_false, set_channels_same. now split.
  - destruct (Nat.le_gt_cases (List.length (channels self)) (List.length flags)) as [Hl|Hl].
    + rewrite clip_list in Hr by trivial. returned Hr. now exists flags.
    + rewrite clip_short_list in Hr by trivial. discriminate.
Qed.

(** [clip] with a list of flags clips the flagged channels and leaves the
    others, and a list shorter than the number of channels raises
    [IndexError]; any other true object clips every channel and any false
    one none.  Shapes, masks, mode, fill value and palette are kept. *)
Theorem clip_applies_to_the_flagged_channels (self : Image F) :
  (forall flags,
      (List.length (channels self) <= List.length flags)%nat ->
      clip self (ISeq flags) =
      Ok (set_channels self (clip_each (channels self) flags))) /\
  (forall flags,
      (List.length flags < List.length (channels self))%nat ->
      clip self (ISeq flags) = Raise IndexError) /\
  clip self (IBool true) = Ok (set_channels self (map clipped_channel (channels self))) /\
  clip self (IBool false) = Ok self.
Proof.
  split; [exact (clip_list self)|].
  split; [exact (clip_short_list self)|].
  split; [exact (clip_true self) | exact (clip_false self)].
Qed.

End ClipProperties.

Section ExactClip.

Variable pow : Q -> Q -> Q.
Variable log : Q -> Q.

Let E : Float64 Q := exactQ pow log.

Open Scope Q_scope.

Lemma clip1_idempotent (v : Q) :
  clip1 (H := E) 0 1 (clip1 (H := E) 0 1 v) = clip1 (H := E) 0 1 v.
Proof.
  unfold clip1. cbn [fltb E exactQ].
  destruct (exact.ltb v 0) eqn:H0; [reflexivity|].
  destruct (exact.ltb 1 v) eqn:H1; [reflexivity|].
  now rewrite H0, H1.
Qed.

Lemma clipped_channel_idempotent (c : ma.MaskedArray Q) :
  clipped_channel (H := E) (clipped_channel (H := E) c) = clipped_channel (H := E) c.
Proof.
  unfold clipped_channel, ma.map1. cbn [ma.shape ma.data ma.mask].
  rewrite map_map. f_equal. apply map_ext. intros v. apply clip1_idempotent.
Qed.

Lemma clip_each_idempotent (chans : list (ma.MaskedArray Q)) (flags : list bool) :
  (List.length chans <= List.length flags)%nat ->
  clip_each (H := E) (clip_each (H := E) chans flags) flags =
  clip_each (H := E) chans flags.
Proof.
  unfold clip_each. revert flags.
  induction chans as [|c chans IH]; intros [|b flags] Hl; cbn in Hl |- *; trivial.
  rewrite IH by lia. destruct b; [now rewrite clipped_channel_idempotent | reflexivity].
Qed.

(** After [clip()] every value of every channel lies between 0 and 1: a
    value below 0 has become 0, a value above 1 has become 1, and a value
    between them is kept; shapes and masks are kept, and so is the rest of
    the image.  Clipping a second time changes nothing. *)
Theorem clip_bounds_every_value (self : Image Q) :
  exists self',
    clip (H := E) self (IBool true) = Ok self' /\
    self' = set_channels self (channels self') /\
    Forall2 (fun c c' =>
               ma.shape c' = ma.shape c /\ ma.mask c' = ma.mask c /\
               Forall2 (fun v v' => finalized.clipped v v' /\ 0 <= v' <= 1)
                       (ma.data c) (ma.data c'))
            (channels self) (channels self') /\
    clip (H := E) self' (IBool true) = Ok self'.
Proof.
  eexists. split; [apply clip_true|]. cbn [channels set_channels].
  split; [reflexivity|]. split.
  - apply Forall2_map_right. intros c.
    unfold clipped_channel, ma.map1. cbn [ma.shape ma.data ma.mask].
    repeat split. apply Forall2_map_right. intros v. apply clip_clipped.
  - rewrite clip_true. cbn [channels set_channels]. rewrite set_channels_twice.
    rewrite map_map. do 2 f_equal. apply map_ext. intros c.
    apply clipped_channel_idempotent.
Qed.

Lemma final_value_clipped (v : Q) :
  final_value (H := E) (clip1 (H := E) 0 1 v) = final_value (H := E) v.
Proof. unfold final_value. now rewrite clip1_idempotent. Qed.

Lemma final_channels_clip_each (chans : list (ma.MaskedArray Q)) (flags : list bool) :
  (List.length chans <= List.length flags)%nat ->
  map (ma.map1 (final_value (H := E))) (clip_each (H := E) chans flags) =
  map (ma.map1 (final_value (H := E))) chans.
Proof.
  unfold clip_each. revert flags.
  induction chans as [|c chans IH]; intros [|b flags] Hl; cbn in Hl |- *; trivial; [lia|].
  rewrite IH by lia. f_equal. destruct b; trivial.
  unfold clipped_channel, ma.map1. cbn [ma.shape ma.data ma.mask].
  rewrite map_map. f_equal. apply map_ext. intros v. apply final_value_clipped.
Qed.

(** Clipping before finalizing is invisible: for an image in a mode other
    than P and PA, [_finalize] returns, and it returns the same 8-bit
    channels and the same fill value after any call of [clip] that
    returns as before it. *)
Theorem finalize_ignores_clip (self self' : Image Q) (a : invert_arg) :
  mode self <> "P" -> mode self <> "PA" ->
  clip (H := E) self a = Ok self' ->
  exists out,
    _finalize (H := E) self = Ok (self, out) /\
    _finalize (H := E) self' = Ok (self', out).
Proof.
  intros HP HPA Hr.
  apply clip_returns in Hr as (flags & Hl & ->).
  unfold _finalize. cbn [mode set_channels channels fill_value].
  apply String.eqb_neq in HP, HPA.
  rewrite HP. cbn [bind mode set_channels]. rewrite HPA.
  cbn [bind channels set_channels fill_value].
  rewrite final_channels_clip_each by trivial.
  destruct (fill_value self) as [fv|]; cbn [bind].
  - assert (Hfv : exists l, map_result (final_fill (H := E)) fv = Ok l).
    { induction fv as [|f fv [l IH]]; cbn; [now eexists|].
      rewrite IH. cbn. now eexists. }
    destruct Hfv as [l ->]. cbn [bind]. now eexists.
  - now eexists.
Qed.

End ExactClip.

(** A run of the theorem above: a pixel in mode LA with values 1/2 and 1,
    clipped on its first channel only. *)
Lemma finalize_ignores_clip_witness :
  exists out,
    _finalize example.la_filled = Ok (example.la_filled, out) /\
    _finalize (set_channels example.la_filled
                 (clip_each (channels example.la_filled) [true; false])) =
    Ok (set_channels example.la_filled
          (clip_each (channels example.la_filled) [true; false]), out).
Proof.
  apply (finalize_ignores_clip exact.pow_integral (fun _ => 0%Q)
           example.la_filled _ (ISeq [true; false])).
  - discriminate.
  - discriminate.
  - reflexivity.
Defined.

(** ** The alpha channel *)

Section AlphaChannel.

Context {F : Type} `{Float64 F}.

Lemma set_last_app {A} (xs : list A) (x v : A) : set_last (xs ++ [x]) v = Ok (xs ++ [v]).
Proof.
  unfold set_last. rewrite drop_last_app. now destruct xs.
Qed.

Lemma nonempty_shape (self : Image F) :
  is_empty self = Ok false -> channels self <> [] /\ shape_eqb (shape self) (0, 0)%nat = false.
Proof.
  unfold is_empty, no_channels.
  destruct (channels self); destruct (shape_eqb (shape self) (0, 0)%nat);
    cbn; intros Hne; try discriminate; now split.
Qed.

Lemma is_empty_nonempty (self : Image F) :
  channels self <> [] -> shape_eqb (shape self) (0, 0)%nat = false ->
  is_empty self = Ok false.
Proof.
  unfold is_empty, no_channels. intros Hc ->. now destruct (channels self).
Qed.

Lemma shape_eqb_eq (s t : nat * nat) : shape_eqb s t = true <-> s = t.
Proof.
  unfold shape_eqb. destruct s, t. cbn [fst snd].
  rewrite andb_true_iff, !Nat.eqb_eq. split; [intros [-> ->]; trivial | now inversion 1].
Qed.

Lemma putalpha_accepts (self : Image F) (alpha : ma.MaskedArray F) :
  ma.shape alpha = shape self ->
  negb ((fst (ma.shape alpha) =? 0)%nat && (fst (shape self) =? 0)%nat)
  && negb (shape_eqb (ma.shape alpha) (shape self)) = false.
Proof.
  intros ->. rewrite (proj2 (shape_eqb_eq _ _) eq_refl). apply andb_false_r.
Qed.

Lemma putalpha_replaces (self : Image F) (alpha : ma.MaskedArray F) :
  is_empty self = Ok false -> ma.shape alpha = shape self ->
  endswith_A (mode self) = true ->
  putalpha self alpha = Ok (set_channels self (drop_last (channels self) ++ [alpha])).
Proof.
  intros Hne Hs Ha. unfold putalpha.
  rewrite (putalpha_accepts self alpha Hs), Ha. cbn [negb bind]. rewrite Hne.
  cbn [negb bind]. apply nonempty_shape in Hne as [Hc _].
  unfold set_last. now destruct (channels self).
Qed.

Lemma putalpha_appends (self : Image F) (alpha : ma.MaskedArray F) :
  is_empty self = Ok false -> ma.shape alpha = shape self ->
  In (mode self) ["L"; "RGB"; "YCbCr"; "P"] ->
  putalpha self alpha = Ok (set_channels (alpha_added self) (channels self ++ [alpha])).
Proof.
  intros Hne Hs Hm. unfold putalpha.
  rewrite (putalpha_accepts self alpha Hs).
  assert (Ha : endswith_A (mode self) = false /\ mode_in (mode self ++ "A") modes = true).
  { destruct Hm as [<-|[<-|[<-|[<-|[]]]]]; now split. }
  destruct Ha as [-> Hin]. cbn [negb].
  unfold convert, recursion_limit. rewrite (convert_adds_alpha _ self Hne Hin).
  cbn [bind]. apply nonempty_shape in Hne as [Hc Hsh].
  rewrite is_empty_nonempty; cbn [alpha_added channels shape]; trivial.
  - cbn [negb bind]. now rewrite set_last_app.
  - now destruct (channels self).
Qed.

(** [putalpha] on an image that is not empty, with an array of the shape
    of the image: in a mode that ends in "A" the last channel is replaced
    by [alpha] and nothing else changes; in the modes L, RGB, YCbCr and P
    the image gets the alpha mode, [alpha] as one more channel, and one more
    fill entry 1 when it has a fill value.  An array of another shape is
    refused with [ValueError] unless the array and the image both have no
    row. *)
Theorem putalpha_sets_the_last_channel (self : Image F) (alpha : ma.MaskedArray F) :
  (ma.shape alpha <> shape self ->
   (fst (ma.shape alpha) <> 0 \/ fst (shape self) <> 0)%nat ->
   putalpha self alpha = Raise ValueError) /\
  (is_empty self = Ok false -> ma.shape alpha = shape self ->
   (endswith_A (mode self) = true ->
    putalpha self alpha =
    Ok (set_channels self (drop_last (channels self) ++ [alpha]))) /\
   (In (mode self) ["L"; "RGB"; "YCbCr"; "P"] ->
    putalpha self alpha =
    Ok (set_channels (alpha_added self) (channels self ++ [alpha])))).
Proof.
  split.
  - intros Hs H0. unfold putalpha.
    replace (shape_eqb (ma.shape alpha) (shape self)) with false.
    + replace ((fst (ma.shape alpha) =? 0)%nat && (fst (shape self) =? 0)%nat)
        with false; trivial.
      symmetry. apply andb_false_iff. rewrite !Nat.eqb_neq. trivial.
    + symmetry. apply not_true_is_false. now rewrite shape_eqb_eq.
  - intros Hne Hs. split.
    + now apply putalpha_replaces.
    + now apply putalpha_appends.
Qed.

Lemma alpha_put_dropped (self : Image F) (alpha : ma.MaskedArray F) :
  alpha_dropped (set_channels (alpha_added self) (channels self ++ [alpha])) (mode self)
  = self.
Proof.
  unfold alpha_dropped, alpha_added, set_channels.
  cbn [channels mode width height fill_value palette shape _secondary_mode].
  rewrite drop_last_app. destruct self as [c m w h fv p s sm].
  cbn [channels mode width height fill_value palette shape _secondary_mode].
  f_equal. destruct fv as [fv|]; cbn; [|trivial]. now rewrite drop_last_app.
Qed.

(** [putalpha] and [convert]: on an image in mode L, RGB, YCbCr or P that
    is not empty, [putalpha(alpha)] followed by [convert] to the mode the
    image had gives back the image; and of two calls of [putalpha] in a
    row the second decides: the result is that of the second call alone. *)
Theorem putalpha_is_undone_by_convert
        (self : Image F) (alpha beta : ma.MaskedArray F) :
  is_empty self = Ok false ->
  In (mode self) ["L"; "RGB"; "YCbCr"; "P"] ->
  ma.shape alpha = shape self -> ma.shape beta = shape self ->
  exists with_alpha,
    putalpha self alpha = Ok with_alpha /\
    convert with_alpha (mode self) = Ok self /\
    putalpha with_alpha beta = putalpha self beta.
Proof.
  intros Hne Hm Ha Hb. eexists. split; [now apply putalpha_appends|].
  assert (Hmodes : endswith_A (mode self ++ "A") = true /\ mode_in (mode self) modes = true).
  { destruct Hm as [<-|[<-|[<-|[<-|[]]]]]; now split. }
  destruct Hmodes as [HA Hin].
  pose proof (nonempty_shape self Hne) as [Hc Hsh].
  assert (Hne' : is_empty (set_channels (alpha_added self) (channels self ++ [alpha]))
                 = Ok false).
  { apply is_empty_nonempty; cbn [set_channels alpha_added channels shape]; trivial.
    now destruct (channels self). }
  split.
  - unfold convert, recursion_limit.
    rewrite (convert_drops_alpha _ _ (mode self)); trivial.
    now rewrite alpha_put_dropped.
  - rewrite putalpha_replaces, putalpha_appends; trivial.
    cbn [set_channels alpha_added channels]. now rewrite drop_last_app.
Qed.

End AlphaChannel.

(** A run of the theorem above on a row of three pixels in mode L. *)
Lemma putalpha_witness :
  exists with_alpha,
    putalpha example.l_row (ma.array (1, 3)%nat [1; 0; 1 # 2] [false; false; false])
    = Ok with_alpha /\
    convert with_alpha (mode example.l_row) = Ok example.l_row /\
    putalpha with_alpha (ma.array (1, 3)%nat [0; 0; 0] [false; true; false])
    = putalpha example.l_row (ma.array (1, 3)%nat [0; 0; 0] [false; true; false]).
Proof.
  apply (putalpha_is_undone_by_convert example.l_row).
  - reflexivity.
  - left. reflexivity.
  - reflexivity.
  - reflexivity.
Defined.

(** ** Resizing *)

Section Grids.

Context {A : Type}.

Lemma rows_length (r c : nat) (xs : list A) : List.length (rows r c xs) = r.
Proof. revert xs. induction r as [|r IH]; intros xs; cbn; [trivial | now rewrite IH]. Qed.

Lemma rows_width (r c : nat) (xs : list A) :
  List.length xs = (r * c)%nat ->
  Forall (fun row => List.length row = c) (rows r c xs).
Proof.
  revert xs. induction r as [|r IH]; intros xs Hl; cbn; constructor.
  - rewrite length_firstn. cbn in Hl. lia.
  - apply IH. rewrite length_skipn. cbn in Hl. lia.
Qed.

Lemma concat_rows (r c : nat) (xs : list A) :
  List.length xs = (r * c)%nat -> List.concat (rows r c xs) = xs.
Proof.
  revert xs. induction r as [|r IH]; intros xs Hl; cbn in Hl |- *.
  - now destruct xs.
  - rewrite IH by (rewrite length_skipn; lia). apply firstn_skipn.
Qed.

Lemma rows_concat (c : nat) (rs : list (list A)) :
  Forall (fun row => List.length row = c) rs ->
  rows (List.length rs) c (List.concat rs) = rs.
Proof.
  induction 1 as [|row rs Hrow _ IH]; cbn; trivial.
  rewrite firstn_app, skipn_app, Hrow, Nat.sub_diag, firstn_all2, skipn_all2 by lia.
  cbn. now rewrite app_nil_r, IH.
Qed.

Lemma rows_of_concat (r c : nat) (rs : list (list A)) :
  List.length rs = r -> Forall (fun row => List.length row = c) rs ->
  rows r c (List.concat rs) = rs.
Proof. intros <-. apply rows_concat. Qed.

Lemma concat_uniform_length (c : nat) (rs : list (list A)) :
  Forall (fun row => List.length row = c) rs ->
  List.length (List.concat rs) = (List.length rs * c)%nat.
Proof.
  induction 1 as [|row rs Hrow _ IH]; cbn; trivial.
  rewrite length_app, IH, Hrow. reflexivity.
Qed.

Lemma each_repeated_length (k : nat) (xs : list A) :
  List.length (each_repeated k xs) = (List.length xs * k)%nat.
Proof.
  unfold each_repeated. induction xs as [|x xs IH]; cbn; trivial.
  rewrite length_app, repeat_length, IH. lia.
Qed.

Lemma each_repeated_once (xs : list A) : each_repeated 1 xs = xs.
Proof.
  induction xs as [|x xs IH]; [reflexivity|].
  change (each_repeated 1 (x :: xs)) with (x :: each_repeated 1 xs). now rewrite IH.
Qed.

Lemma map_each_repeated_once (xs : list (list A)) : map (each_repeated 1) xs = xs.
Proof.
  rewrite <- (map_id xs) at 2. apply map_ext. intros. apply each_repeated_once.
Qed.

Lemma each_repeated_Forall (P : A -> Prop) (k : nat) (xs : list A) :
  Forall P xs -> Forall P (each_repeated k xs).
Proof.
  unfold each_repeated. induction 1 as [|x xs Hx _ IH]; cbn; [constructor|].
  apply Forall_app. split; trivial. apply Forall_forall. intros y Hy.
  now apply repeat_spec in Hy as ->.
Qed.

Lemma each_repeated_nth (k : nat) (xs : list A) (i : nat) :
  (0 < k)%nat -> nth_error (each_repeated k xs) (i * k) = nth_error xs i.
Proof.
  intros Hk. unfold each_repeated. revert i.
  induction xs as [|x xs IH]; intros i; cbn [flat_map].
  - now rewrite !nth_error_nil.
  - destruct i as [|i].
    + destruct k; [lia|]. reflexivity.
    + rewrite nth_error_app2; rewrite repeat_length; [|lia].
      replace (S i * k - k)%nat with (i * k)%nat by lia. apply IH.
Qed.

Lemma each_repeated_nth_error (k : nat) (xs : list A) (n : nat) :
  (0 < k)%nat -> nth_error (each_repeated k xs) n = nth_error xs (n / k).
Proof.
  intros Hk. unfold each_repeated. revert n.
  induction xs as [|x xs IH]; intros n; cbn [flat_map].
  - now rewrite !nth_error_nil.
  - destruct (Nat.lt_ge_cases n k) as [Hn|Hn].
    + rewrite nth_error_app1 by now rewrite repeat_length.
      rewrite Nat.div_small by trivial. now rewrite nth_error_repeat.
    + rewrite nth_error_app2; rewrite repeat_length; trivial.
      rewrite IH. replace n with (1 * k + (n - k))%nat at 2 by lia.
      rewrite Nat.div_add_l by lia. reflexivity.
Qed.

Lemma concat_uniform_nth_error (c : nat) (rs : list (list A)) (i j : nat) :
  Forall (fun row => List.length row = c) rs -> (j < c)%nat ->
  nth_error (List.concat rs) (i * c + j) =
  match nth_error rs i with
  | Some row => nth_error row j
  | None => None
  end.
Proof.
  intros Hrs Hj. revert i. induction Hrs as [|row rs Hrow _ IH]; intros i; cbn [List.concat].
  - now rewrite !nth_error_nil.
  - destruct i as [|i]; cbn [nth_error].
    + now rewrite nth_error_app1 by lia.
    + rewrite nth_error_app2 by (rewrite Hrow; lia).
      rewrite Hrow. replace (S i * c + j - c)%nat with (i * c + j)%nat by lia.
      apply IH.
Qed.

Lemma rows_nth_error (r c : nat) (xs : list A) (i j : nat) :
  List.length xs = (r * c)%nat -> (j < c)%nat ->
  nth_error xs (i * c + j) =
  match nth_error (rows r c xs) i with
  | Some row => nth_error row j
  | None => None
  end.
Proof.
  intros Hl Hj. rewrite <- (concat_rows r c xs Hl) at 1.
  apply concat_uniform_nth_error; trivial. now apply rows_width.
Qed.

Lemma repeat_each_Ok (k : nat) (xs : list A) :
  repeat_each (Z.of_nat k) xs = Ok (each_repeated k xs).
Proof.
  unfold repeat_each, each_repeated. destruct xs; trivial.
  destruct (Z.ltb_spec (Z.of_nat k) 0); [lia|]. now rewrite Nat2Z.id.
Qed.

Lemma map_result_Ok {B} (f : A -> result B) (g : A -> B) (xs : list A) :
  (forall x, In x xs -> f x = Ok (g x)) -> map_result f xs = Ok (map g xs).
Proof.
  induction xs as [|x xs IH]; intros Hf; cbn; trivial.
  rewrite Hf by now left. cbn [bind]. rewrite IH; trivial.
  intros y Hy. apply Hf. now right.
Qed.

(** Taking every [k]-th element of a list whose elements were repeated
    [k] times gives the list back. *)
Lemma take_each_repeated (k : nat) (xs : list A) :
  (0 < k)%nat ->
  take (map (fun idx => (Z.of_nat idx * Z.of_nat k)%Z) (seq 0 (List.length xs)))
       (each_repeated k xs) = Ok xs.
Proof.
  intros Hk. unfold take.
  assert (Hgen : forall n,
             (n <= List.length xs)%nat ->
             map_result (getitem_int (each_repeated k xs))
               (map (fun idx => (Z.of_nat idx * Z.of_nat k)%Z) (seq 0 n))
             = Ok (firstn n xs)).
  { induction n as [|n IH]; intros Hn; [reflexivity|].
    rewrite seq_S, map_app, Nat.add_0_l. cbn [map].
    assert (Happ : forall (l1 l2 : list Z) (a b : list A),
               map_result (getitem_int (each_repeated k xs)) l1 = Ok a ->
               map_result (getitem_int (each_repeated k xs)) l2 = Ok b ->
               map_result (getitem_int (each_repeated k xs)) (l1 ++ l2) = Ok (a ++ b)).
    { induction l1 as [|z l1 IH1]; intros l2 a b Ha Hb; cbn in Ha |- *.
      - now returned Ha.
      - bind_inv Ha as y Hy. bind_inv Ha as ys Hys. returned Ha.
        rewrite Hy. cbn [bind]. rewrite (IH1 l2 ys b Hys Hb). reflexivity. }
    destruct (nth_error xs n) as [x|] eqn:Hx; [|apply nth_error_None in Hx; lia].
    rewrite (Happ _ _ (firstn n xs) [x]).
    - f_equal. clear -Hx. revert xs Hx.
      induction n as [|n IH]; intros [|y xs] Hx; cbn in Hx |- *; try discriminate.
      + now returned Hx.
      + f_equal. now apply IH.
    - apply IH. lia.
    - cbn. unfold getitem_int.
      destruct (Z.leb_spec 0 (Z.of_nat n * Z.of_nat k)); [|lia].
      rewrite <- Nat2Z.inj_mul, Nat2Z.id. unfold getitem.
      now rewrite each_repeated_nth, Hx. }
  rewrite Hgen by lia. now rewrite firstn_all.
Qed.

Lemma map_result_maps {B} (f : A -> result B) (xs : list A) (ys : list B) :
  Forall2 (fun x y => f x = Ok y) xs ys -> map_result f xs = Ok ys.
Proof.
  induction 1 as [|x y xs ys Hxy _ IH]; cbn; trivial.
  now rewrite Hxy, IH.
Qed.

Lemma map_each_repeated {B} (f : A -> B) (k : nat) (xs : list A) :
  map f (each_repeated k xs) = each_repeated k (map f xs).
Proof.
  unfold each_repeated. induction xs as [|x xs IH]; cbn; trivial.
  now rewrite map_app, map_repeat, IH.
Qed.

End Grids.

Section ChannelResampling.

Context {F : Type} `{Float64 F}.

Variables (r w : nat) (rs : list (list F)) (ms : list (list bool)).

Hypothesis rs_rows : List.length rs = r.
Hypothesis ms_rows : List.length ms = r.
Hypothesis rs_width : Forall (fun row => List.length row = w) rs.
Hypothesis ms_width : Forall (fun row => List.length row = w) ms.

Lemma rows_of_rows :
  rows r w (List.concat rs) = rs /\ rows r w (List.concat ms) = ms.
Proof.
  split.
  - rewrite <- rs_rows. now apply rows_concat.
  - rewrite <- ms_rows. now apply rows_concat.
Qed.

Lemma repeat_rows_of_rows (k : nat) :
  repeat_rows (Z.of_nat k) (ma.array (r, w) (List.concat rs) (List.concat ms)) =
  Ok (ma.array (r * k, w)%nat (List.concat (each_repeated k rs))
               (List.concat (each_repeated k ms))).
Proof.
  unfold repeat_rows. cbn [ma.shape ma.data ma.mask].
  destruct rows_of_rows as [-> ->].
  rewrite !repeat_each_Ok. cbn [bind]. now rewrite Nat2Z.id.
Qed.

Lemma repeat_columns_of_rows (k : nat) :
  repeat_columns (Z.of_nat k) (ma.array (r, w) (List.concat rs) (List.concat ms)) =
  Ok (ma.array (r, w * k)%nat (List.concat (map (each_repeated k) rs))
               (List.concat (map (each_repeated k) ms))).
Proof.
  unfold repeat_columns. cbn [ma.shape ma.data ma.mask].
  destruct rows_of_rows as [-> ->].
  rewrite repeat_each_Ok. cbn [bind].
  rewrite !(map_result_Ok _ (each_repeated k)) by (intros; apply repeat_each_Ok).
  cbn [bind]. now rewrite Nat2Z.id.
Qed.

Lemma take_rows_of_repeated (k : nat) :
  (0 < k)%nat ->
  take_rows (map (fun idx => (Z.of_nat idx * Z.of_nat k)%Z) (seq 0 r))
            (ma.array (r * k, w)%nat (List.concat (each_repeated k rs))
                      (List.concat (each_repeated k ms))) =
  Ok (ma.array (r, w) (List.concat rs) (List.concat ms)).
Proof.
  intros Hk. unfold take_rows. cbn [ma.shape ma.data ma.mask].
  assert (Hr : forall {B} (rows_ : list (list B)),
             List.length rows_ = r ->
             Forall (fun row => List.length row = w) rows_ ->
             take (map (fun idx => (Z.of_nat idx * Z.of_nat k)%Z) (seq 0 r))
                  (rows (r * k) w (List.concat (each_repeated k rows_)))
             = Ok rows_).
  { intros B rows_ Hl Hwd.
    replace (r * k)%nat with (List.length (each_repeated k rows_))
      by (now rewrite each_repeated_length, Hl).
    rewrite rows_concat by now apply each_repeated_Forall.
    rewrite <- Hl. now apply take_each_repeated. }
  rewrite !Hr by trivial. cbn [bind].
  now rewrite length_map, length_seq.
Qed.

Lemma take_columns_of_repeated (k : nat) :
  (0 < k)%nat ->
  take_columns (map (fun idx => (Z.of_nat idx * Z.of_nat k)%Z) (seq 0 w))
               (ma.array (r, w * k)%nat (List.concat (map (each_repeated k) rs))
                         (List.concat (map (each_repeated k) ms))) =
  Ok (ma.array (r, w) (List.concat rs) (List.concat ms)).
Proof.
  intros Hk. unfold take_columns. cbn [ma.shape ma.data ma.mask].
  assert (Hrow : forall {B} (row : list B),
             List.length row = w ->
             take (map (fun idx => (Z.of_nat idx * Z.of_nat k)%Z) (seq 0 w))
                  (each_repeated k row) = Ok row).
  { intros B row <-. now apply take_each_repeated. }
  assert (Hw : forall {B} (rows_ : list (list B)),
             List.length rows_ = r ->
             Forall (fun row => List.length row = w) rows_ ->
             map_result (take (map (fun idx => (Z.of_nat idx * Z.of_nat k)%Z) (seq 0 w)))
               (rows r (w * k) (List.concat (map (each_repeated k) rows_)))
             = Ok rows_).
  { intros B rows_ Hl Hwd.
    rewrite <- Hl, <- (length_map (each_repeated k) rows_).
    rewrite rows_concat.
    - apply map_result_maps. clear Hl.
      induction Hwd as [|row rows_ Hrw _ IH]; cbn [map]; constructor; trivial.
      now apply Hrow.
    - apply Forall_map. eapply Forall_impl; [|exact Hwd].
      cbn. intros row <-. rewrite each_repeated_length. reflexivity. }
  replace (repeat tt (w * k)) with (each_repeated k (repeat tt w)).
  - rewrite Hrow by apply repeat_length. cbn [bind].
    rewrite !Hw by trivial. cbn [bind].
    now rewrite length_map, length_seq.
  - clear. unfold each_repeated. induction w as [|n IH]; cbn [repeat flat_map Nat.mul]; trivial.
    rewrite IH. now rewrite repeat_app.
Qed.

End ChannelResampling.

Lemma ltb_div (i h k : nat) : (0 < k)%nat -> (i <? h * k)%nat = (i / k <? h)%nat.
Proof.
  intros Hk. destruct (Nat.ltb_spec (i / k) h) as [Hlt|Hge].
  - apply Nat.ltb_lt. destruct (Nat.lt_ge_cases i (h * k)) as [|Hge]; trivial.
    apply (Nat.Div0.div_le_mono _ _ k) in Hge. rewrite Nat.div_mul in Hge; lia.
  - apply Nat.ltb_ge. destruct (Nat.lt_ge_cases i (h * k)) as [Hlt|]; trivial.
    rewrite Nat.mul_comm in Hlt. apply Nat.Div0.div_lt_upper_bound in Hlt. lia.
Qed.

Section ZoomedElements.

Context {F : Type}.

Lemma zoomed_grid_nth_error {B} (k0 k1 h w : nat) (xs : list B) (i j : nat) :
  (0 < k0)%nat -> (0 < k1)%nat ->
  List.length xs = (h * w)%nat -> (j < w * k1)%nat ->
  nth_error (zoomed_grid k0 k1 h w xs) (i * (w * k1) + j) =
  nth_error xs (i / k0 * w + j / k1).
Proof.
  intros Hk0 Hk1 Hl Hj. unfold zoomed_grid.
  rewrite (concat_uniform_nth_error (w * k1)); trivial.
  - rewrite nth_error_map, each_repeated_nth_error by trivial.
    assert (Hjw : (j / k1 < w)%nat) by (apply Nat.Div0.div_lt_upper_bound; lia).
    rewrite (rows_nth_error h w xs (i / k0) (j / k1) Hl Hjw).
    destruct (nth_error (rows h w xs) (i / k0)); cbn [option_map]; trivial.
    now apply each_repeated_nth_error.
  - apply Forall_map, each_repeated_Forall.
    eapply Forall_impl; [|apply (rows_width h w xs Hl)].
    cbn. intros row <-. apply each_repeated_length.
Qed.

(** Element [(i, j)] of a zoomed grid is element [(i // k0, j // k1)] of
    the grid, also where that is out of range. *)
Lemma zoomed_item2 (k0 k1 h w : nat) (c : ma.MaskedArray F) (i j : nat) :
  (0 < k0)%nat -> (0 < k1)%nat -> grid h w c ->
  ma.item2 (zoomed k0 k1 c) i j = ma.item2 c (i / k0) (j / k1).
Proof.
  intros Hk0 Hk1 (Hs & Hd & Hm). unfold ma.item2, zoomed. rewrite Hs.
  cbn [ma.shape fst snd].
  pose proof (ltb_div i h k0 Hk0) as Hi.
  pose proof (ltb_div j w k1 Hk1) as Hj.
  rewrite Hi, Hj.
  destruct (i / k0 <? h)%nat; [|reflexivity].
  destruct (Nat.ltb_spec (j / k1) w) as [Hlt|]; [|reflexivity].
  cbn [andb]. unfold ma.item. cbn [ma.data ma.mask].
  assert (Hjw : (j < w * k1)%nat) by now apply Nat.ltb_lt.
  now rewrite !zoomed_grid_nth_error.
Qed.

End ZoomedElements.

Lemma map_result_ext {A B} (f g : A -> result B) (xs : list A) :
  (forall x, In x xs -> f x = g x) -> map_result f xs = map_result g xs.
Proof.
  induction xs as [|x xs IH]; intros Hfg; cbn; trivial.
  rewrite Hfg by now left. rewrite IH; trivial. intros y Hy. apply Hfg. now right.
Qed.

Lemma map_result_map {A B C} (f : B -> result C) (g : A -> B) (xs : list A) :
  map_result f (map g xs) = map_result (fun x => f (g x)) xs.
Proof.
  induction xs as [|x xs IH]; cbn; trivial. now rewrite IH.
Qed.

Section Decimation.

Context {A : Type}.

Lemma every_length (k n : nat) (xs : list A) :
  (0 < k)%nat -> List.length xs = (n * k)%nat -> List.length (every k n xs) = n.
Proof.
  intros Hk. revert xs. induction n as [|n IH]; intros xs Hl; cbn [every]; trivial.
  rewrite length_app, length_firstn, IH by (rewrite length_skipn; lia). lia.
Qed.

Lemma every_nth_error (k n : nat) (xs : list A) (i : nat) :
  (0 < k)%nat -> List.length xs = (n * k)%nat ->
  nth_error (every k n xs) i = if (i <? n)%nat then nth_error xs (i * k) else None.
Proof.
  intros Hk. revert xs i. induction n as [|n IH]; intros xs i Hl; cbn [every].
  - now rewrite nth_error_nil.
  - destruct xs as [|x xs]; [cbn in Hl; lia|]. cbn [firstn app].
    destruct i as [|i]; [reflexivity|]. cbn [nth_error].
    rewrite IH by (rewrite length_skipn; lia).
    change (S i <? S n)%nat with (i <? n)%nat.
    destruct (i <? n)%nat; trivial.
    now rewrite nth_error_skipn.
Qed.

Lemma every_once (n : nat) (xs : list A) : List.length xs = n -> every 1 n xs = xs.
Proof.
  revert xs. induction n as [|n IH]; intros [|x xs] Hl; cbn in Hl |- *;
    try discriminate; trivial.
  f_equal. apply IH. lia.
Qed.

Lemma every_Forall (P : A -> Prop) (k n : nat) (xs : list A) :
  Forall P xs -> Forall P (every k n xs).
Proof.
  revert xs. induction n as [|n IH]; intros xs Hxs; cbn [every]; [constructor|].
  apply Forall_app. split.
  - destruct Hxs; cbn; constructor; trivial.
  - apply IH. clear IH. revert xs Hxs.
    induction k as [|k IHk]; intros xs Hxs; cbn; trivial.
    destruct Hxs; [constructor | now apply IHk].
Qed.

Lemma every_each_repeated (k : nat) (xs : list A) :
  (0 < k)%nat -> every k (List.length xs) (each_repeated k xs) = xs.
Proof.
  intros Hk. apply nth_error_ext. intros i.
  rewrite every_nth_error by (trivial; apply each_repeated_length).
  rewrite each_repeated_nth by trivial.
  destruct (Nat.ltb_spec i (List.length xs)); trivial.
  symmetry. now apply nth_error_None.
Qed.

(** Taking every [k]-th element by index. *)
Lemma take_every (k n : nat) (xs : list A) :
  (0 < k)%nat -> List.length xs = (n * k)%nat ->
  take (map (fun idx => (Z.of_nat idx * Z.of_nat k)%Z) (seq 0 n)) xs =
  Ok (every k n xs).
Proof.
  intros Hk. unfold take. revert xs. induction n as [|n IH]; intros xs Hl; [reflexivity|].
  destruct xs as [|x xs]; [cbn in Hl; lia|].
  cbn [seq map map_result every firstn app].
  change (getitem_int (x :: xs) (Z.of_nat 0 * Z.of_nat k)) with (Ok x).
  cbn [bind]. rewrite <- seq_shift, map_map, map_result_map.
  rewrite (map_result_ext _
             (fun i => getitem_int (skipn k (x :: xs)) (Z.of_nat i * Z.of_nat k))).
  - rewrite <- (map_result_map (getitem_int (skipn k (x :: xs)))
                  (fun i => (Z.of_nat i * Z.of_nat k)%Z)).
    rewrite IH by (rewrite length_skipn; lia). reflexivity.
  - intros i _. unfold getitem_int.
    destruct (Z.leb_spec 0 (Z.of_nat (S i) * Z.of_nat k)); [|lia].
    destruct (Z.leb_spec 0 (Z.of_nat i * Z.of_nat k)); [|lia].
    unfold getitem. now rewrite nth_error_skipn, <- !Nat2Z.inj_mul, !Nat2Z.id.
Qed.

End Decimation.

Section ChannelDecimation.

Context {F : Type}.

Lemma take_rows_every (r w k : nat) (rs : list (list F)) (ms : list (list bool)) :
  (0 < k)%nat ->
  List.length rs = (r * k)%nat -> List.length ms = (r * k)%nat ->
  Forall (fun row => List.length row = w) rs ->
  Forall (fun row => List.length row = w) ms ->
  take_rows (map (fun idx => (Z.of_nat idx * Z.of_nat k)%Z) (seq 0 r))
            (ma.array (r * k, w)%nat (List.concat rs) (List.concat ms)) =
  Ok (ma.array (r, w) (List.concat (every k r rs)) (List.concat (every k r ms))).
Proof.
  intros Hk Hrs Hms Hrw Hmw. unfold take_rows. cbn [ma.shape ma.data ma.mask].
  rewrite !rows_of_concat by trivial.
  rewrite !take_every by trivial. cbn [bind].
  now rewrite length_map, length_seq.
Qed.

Lemma take_columns_every (r w k : nat) (rs : list (list F)) (ms : list (list bool)) :
  (0 < k)%nat ->
  List.length rs = r -> List.length ms = r ->
  Forall (fun row => List.length row = (w * k)%nat) rs ->
  Forall (fun row => List.length row = (w * k)%nat) ms ->
  take_columns (map (fun idx => (Z.of_nat idx * Z.of_nat k)%Z) (seq 0 w))
               (ma.array (r, w * k)%nat (List.concat rs) (List.concat ms)) =
  Ok (ma.array (r, w) (List.concat (map (every k w) rs))
               (List.concat (map (every k w) ms))).
Proof.
  intros Hk Hrs Hms Hrw Hmw. unfold take_columns. cbn [ma.shape ma.data ma.mask].
  rewrite take_every by (trivial; apply repeat_length). cbn [bind].
  rewrite !rows_of_concat by trivial.
  rewrite !(map_result_Ok _ (every k w)).
  - cbn [bind]. now rewrite length_map, length_seq.
  - intros row Hin. apply take_every; trivial.
    now apply (proj1 (Forall_forall _ _) Hmw).
  - intros row Hin. apply take_every; trivial.
    now apply (proj1 (Forall_forall _ _) Hrw).
Qed.

Lemma decimated_grid_nth_error {B} (k0 k1 h w : nat) (xs : list B) (i j : nat) :
  (0 < k0)%nat -> (0 < k1)%nat ->
  List.length xs = (h * k0 * (w * k1))%nat -> (i < h)%nat -> (j < w)%nat ->
  nth_error (decimated_grid k0 k1 h w xs) (i * w + j) =
  nth_error xs (i * k0 * (w * k1) + j * k1).
Proof.
  intros Hk0 Hk1 Hl Hi Hj. unfold decimated_grid.
  pose proof (rows_width (h * k0) (w * k1) xs Hl) as Hwd.
  rewrite (concat_uniform_nth_error w); trivial.
  - rewrite nth_error_map, every_nth_error by (trivial; apply rows_length).
    rewrite (proj2 (Nat.ltb_lt i h) Hi).
    assert (Hjk : (j * k1 < w * k1)%nat) by nia.
    rewrite (rows_nth_error (h * k0) (w * k1) xs (i * k0) (j * k1) Hl Hjk).
    destruct (nth_error (rows (h * k0) (w * k1) xs) (i * k0)) as [row|] eqn:Hrow;
      cbn [option_map]; trivial.
    rewrite every_nth_error; trivial.
    + now rewrite (proj2 (Nat.ltb_lt j w) Hj).
    + apply nth_error_In in Hrow. now apply (proj1 (Forall_forall _ _) Hwd).
  - apply Forall_map, every_Forall.
    eapply Forall_impl; [|exact Hwd].
    cbn. intros row Hrow. now apply every_length.
Qed.

(** Element [(i, j)] of a decimated grid is element [(i * k0, j * k1)] of
    the grid, also where that is out of range. *)
Lemma decimated_item2 (k0 k1 h w : nat) (c : ma.MaskedArray F) (i j : nat) :
  (0 < k0)%nat -> (0 < k1)%nat -> grid (h * k0) (w * k1) c ->
  ma.item2 (decimated_channel k0 k1 h w c) i j = ma.item2 c (i * k0) (j * k1).
Proof.
  intros Hk0 Hk1 (Hs & Hd & Hm). unfold ma.item2, decimated_channel. rewrite Hs.
  cbn [ma.shape fst snd].
  replace (i * k0 <? h * k0)%nat with (i <? h)%nat
    by (destruct (Nat.ltb_spec i h), (Nat.ltb_spec (i * k0) (h * k0)); trivial; nia).
  replace (j * k1 <? w * k1)%nat with (j <? w)%nat
    by (destruct (Nat.ltb_spec j w), (Nat.ltb_spec (j * k1) (w * k1)); trivial; nia).
  destruct (Nat.ltb_spec i h) as [Hi|]; [|reflexivity].
  destruct (Nat.ltb_spec j w) as [Hj|]; [|reflexivity].
  cbn [andb]. unfold ma.item. cbn [ma.data ma.mask].
  now rewrite !decimated_grid_nth_error.
Qed.

End ChannelDecimation.

Section ExactResize.

Variable pow : Q -> Q -> Q.
Variable log : Q -> Q.

Let E : Float64 Q := exactQ pow log.

Open Scope Q_scope.

Lemma trunc_comp (x y : Q) : x == y -> exact.trunc x = exact.trunc y.
Proof.
  intros Hxy. unfold exact.trunc, exact.ltb.
  rewrite (Qfloor_comp _ _ Hxy), (Qceiling_comp _ _ Hxy).
  now rewrite (Qleb_comp 0 0 (Qeq_refl 0) x y Hxy).
Qed.

Lemma of_nat_zero (n : nat) : feqb (Float64 := E) (of_nat (H := E) n) (lit (Float64 := E) 0) = (n =? 0)%nat.
Proof.
  unfold of_nat. cbn [feqb lit E exactQ].
  destruct (Nat.eqb_spec n 0) as [->|Hn]; [reflexivity|].
  apply not_true_is_false. intros Heq. apply Qeq_bool_iff in Heq.
  unfold Qeq in Heq. cbn in Heq. lia.
Qed.

(** An exact quotient is its own integer part. *)
Lemma integral_quotient (q : Q) (k : Z) :
  q == inject_Z k ->
  py_int (Float64 := E) q = Ok k /\ not_integral (H := E) q = Ok false.
Proof.
  intros Hq. unfold not_integral. cbn [py_int E exactQ bind].
  rewrite (trunc_comp _ _ Hq), trunc_integer. split; [reflexivity|].
  unfold of_int. cbn [feqb lit E exactQ].
  now rewrite (proj2 (Qeq_bool_iff _ _) (Qeq_sym _ _ Hq)).
Qed.

Lemma quotient_of_multiple (a k : nat) :
  (0 < a)%nat ->
  exists q, py_div (H := E) (fmul (Float64 := E) (of_nat (H := E) (a * k)) (lit (Float64 := E) 1))
                   (of_nat (H := E) a) = Ok q /\
            q == inject_Z (Z.of_nat k).
Proof.
  intros Ha. unfold py_div. rewrite of_nat_zero.
  destruct (Nat.eqb_spec a 0); [lia|].
  eexists. split; [reflexivity|].
  unfold of_nat. cbn [fmul fdiv lit E exactQ].
  rewrite Nat2Z.inj_mul, inject_Z_mult. field.
  intros Heq. unfold Qeq in Heq. cbn in Heq. lia.
Qed.

Lemma factor_of_zoom (h k : nat) :
  (0 < h)%nat -> (0 < k)%nat ->
  exists q, resize_factor (H := E) (h * k) h = (true, Ok q) /\
            q == inject_Z (Z.of_nat k).
Proof.
  intros Hh Hk. unfold resize_factor.
  destruct (Nat.leb_spec h (h * k)); [|nia].
  destruct (quotient_of_multiple h k Hh) as (q & -> & Hq). now exists q.
Qed.

Lemma factor_of_return (h k : nat) :
  (0 < h)%nat -> (0 < k)%nat ->
  exists zoom q, resize_factor (H := E) h (h * k) = (zoom, Ok q) /\
                 q == inject_Z (Z.of_nat k) /\
                 (zoom = true -> k = 1%nat).
Proof.
  intros Hh Hk. unfold resize_factor.
  destruct (Nat.leb_spec (h * k) h) as [Hle|Hlt].
  - assert (k = 1%nat) as -> by nia. rewrite Nat.mul_1_r.
    destruct (quotient_of_multiple h 1 Hh) as (q & Hq & Hq1).
    rewrite Nat.mul_1_r in Hq. rewrite Hq. now exists true, q.
  - destruct (quotient_of_multiple h k Hh) as (q & -> & Hq).
    exists false, q. repeat split; trivial. discriminate.
Qed.

Lemma decimated_exact (n k : nat) :
  (0 < k)%nat ->
  decimated (H := E) (n * k) (Z.of_nat k) =
  Ok (map (fun idx => (Z.of_nat idx * Z.of_nat k)%Z) (seq 0 n)).
Proof.
  intros Hk. unfold decimated, py_div, of_int, of_nat. cbn [lit feqb fdiv E exactQ].
  assert (Hk0 : ~ inject_Z (Z.of_nat k) == 0).
  { intros Heq. unfold Qeq in Heq. cbn in Heq. lia. }
  destruct (Qeq_bool (inject_Z (Z.of_nat k)) 0) eqn:Hz;
    [now apply Qeq_bool_iff in Hz|].
  cbn [bind py_int E exactQ].
  rewrite (trunc_comp _ (inject_Z (Z.of_nat n))).
  - now rewrite trunc_integer, Nat2Z.id.
  - rewrite Nat2Z.inj_mul, inject_Z_mult. now field.
Qed.

Section Back.

Variables (self : Image Q) (r w k : nat) (rs : list (list Q)) (ms : list (list bool)).

Hypothesis rs_rows : List.length rs = r.
Hypothesis ms_rows : List.length ms = r.
Hypothesis rs_width : Forall (fun row => List.length row = w) rs.
Hypothesis ms_width : Forall (fun row => List.length row = w) ms.
Hypothesis k_positive : (0 < k)%nat.

Lemma rows_back (zoom : bool) :
  height self = (r * k)%nat -> (zoom = true -> k = 1%nat) ->
  (if zoom
   then repeat_rows (Z.of_nat k)
          (ma.array (r * k, w)%nat (List.concat (each_repeated k rs))
                    (List.concat (each_repeated k ms)))
   else idxs <- decimated (H := E) (height self) (Z.of_nat k) ;;
        take_rows idxs
          (ma.array (r * k, w)%nat (List.concat (each_repeated k rs))
                    (List.concat (each_repeated k ms)))) =
  Ok (ma.array (r, w) (List.concat rs) (List.concat ms)).
Proof.
  intros Hh Hz. destruct zoom.
  - rewrite (Hz eq_refl), !each_repeated_once, Nat.mul_1_r.
    rewrite (repeat_rows_of_rows r w rs ms) by trivial.
    now rewrite !each_repeated_once, Nat.mul_1_r.
  - rewrite Hh, decimated_exact by trivial. cbn [bind].
    now apply take_rows_of_repeated.
Qed.

Lemma columns_back (zoom : bool) :
  width self = (w * k)%nat -> (zoom = true -> k = 1%nat) ->
  (if zoom
   then repeat_columns (Z.of_nat k)
          (ma.array (r, w * k)%nat (List.concat (map (each_repeated k) rs))
                    (List.concat (map (each_repeated k) ms)))
   else idxs <- decimated (H := E) (width self) (Z.of_nat k) ;;
        take_columns idxs
          (ma.array (r, w * k)%nat (List.concat (map (each_repeated k) rs))
                    (List.concat (map (each_repeated k) ms)))) =
  Ok (ma.array (r, w) (List.concat rs) (List.concat ms)).
Proof.
  intros Hw Hz. destruct zoom.
  - rewrite (Hz eq_refl), Nat.mul_1_r, !map_each_repeated_once.
    rewrite (repeat_columns_of_rows r w rs ms) by trivial.
    now rewrite !map_each_repeated_once, Nat.mul_1_r.
  - rewrite Hw, decimated_exact by trivial. cbn [bind].
    now apply take_columns_of_repeated.
Qed.

End Back.

Lemma grid_rows (h w : nat) (c : ma.MaskedArray Q) :
  grid h w c ->
  c = ma.array (h, w) (List.concat (rows h w (ma.data c)))
               (List.concat (rows h w (ma.mask c))).
Proof.
  intros (Hs & Hd & Hm). rewrite !concat_rows by trivial.
  destruct c as [sh d m]. cbn in Hs |- *. now subst sh.
Qed.

Lemma channel_zoomed (self : Image Q) (h w k0 k1 : nat) (c : ma.MaskedArray Q) :
  grid h w c ->
  resize_channel (H := E) self (true, true) (Z.of_nat k0, Z.of_nat k1) c =
  Ok (zoomed k0 k1 c).
Proof.
  intros Hg. pose proof Hg as (Hs & Hd & Hm).
  unfold resize_channel, zoomed, zoomed_grid. cbn [fst snd]. rewrite Hs.
  rewrite (grid_rows h w c Hg) at 1.
  rewrite (repeat_rows_of_rows h w);
    [|apply rows_length|apply rows_length|now apply rows_width|now apply rows_width].
  cbn [bind].
  now rewrite (repeat_columns_of_rows (h * k0) w);
    [|rewrite each_repeated_length, rows_length
     |rewrite each_repeated_length, rows_length
     |apply each_repeated_Forall, rows_width
     |apply each_repeated_Forall, rows_width].
Qed.

Lemma channel_restored (big : Image Q) (h w k0 k1 : nat) (z0 z1 : bool)
      (c : ma.MaskedArray Q) :
  grid h w c ->
  height big = (h * k0)%nat -> width big = (w * k1)%nat ->
  (0 < k0)%nat -> (0 < k1)%nat ->
  (z0 = true -> k0 = 1%nat) -> (z1 = true -> k1 = 1%nat) ->
  resize_channel (H := E) big (z0, z1) (Z.of_nat k0, Z.of_nat k1) (zoomed k0 k1 c) =
  Ok c.
Proof.
  intros Hg Hh Hw Hk0 Hk1 Hz0 Hz1. pose proof Hg as (Hs & Hd & Hm).
  unfold resize_channel, zoomed, zoomed_grid. cbn [fst snd]. rewrite Hs.
  rewrite !map_each_repeated.
  assert (Hwide : forall {B} (xs : list B),
             List.length xs = (h * w)%nat ->
             Forall (fun row => List.length row = (w * k1)%nat)
                    (map (each_repeated k1) (rows h w xs))).
  { intros B xs Hl. apply Forall_map.
    eapply Forall_impl; [|apply (rows_width h w xs Hl)].
    cbn. intros row <-. apply each_repeated_length. }
  rewrite (rows_back big h (w * k1) k0);
    try rewrite length_map; try apply rows_length; try apply Hwide; trivial.
  cbn [bind].
  rewrite (columns_back big h w k1);
    try apply rows_length; try apply rows_width; trivial.
  now rewrite <- grid_rows.
Qed.

Lemma channel_shrunk (big : Image Q) (h w k0 k1 : nat) (z0 z1 : bool)
      (c : ma.MaskedArray Q) :
  grid (h * k0) (w * k1) c ->
  height big = (h * k0)%nat -> width big = (w * k1)%nat ->
  (0 < k0)%nat -> (0 < k1)%nat ->
  (z0 = true -> k0 = 1%nat) -> (z1 = true -> k1 = 1%nat) ->
  resize_channel (H := E) big (z0, z1) (Z.of_nat k0, Z.of_nat k1) c =
  Ok (decimated_channel k0 k1 h w c).
Proof.
  intros Hg Hh Hw Hk0 Hk1 Hz0 Hz1. pose proof Hg as (Hs & Hd & Hm).
  pose proof (rows_width _ _ _ Hd) as Hdw. pose proof (rows_width _ _ _ Hm) as Hmw.
  unfold resize_channel, decimated_channel, decimated_grid. cbn [fst snd].
  pose proof (grid_rows _ _ c Hg) as Hrs.
  set (d := ma.data c) in *. set (m := ma.mask c) in *.
  rewrite Hrs. subst d m.
  assert (Hrows :
            (if z0
             then repeat_rows (Z.of_nat k0)
                    (ma.array (h * k0, w * k1)%nat
                       (List.concat (rows (h * k0) (w * k1) (ma.data c)))
                       (List.concat (rows (h * k0) (w * k1) (ma.mask c))))
             else idxs <- decimated (H := E) (height big) (Z.of_nat k0) ;;
                  take_rows idxs
                    (ma.array (h * k0, w * k1)%nat
                       (List.concat (rows (h * k0) (w * k1) (ma.data c)))
                       (List.concat (rows (h * k0) (w * k1) (ma.mask c))))) =
            Ok (ma.array (h, w * k1)%nat
                  (List.concat (every k0 h (rows (h * k0) (w * k1) (ma.data c))))
                  (List.concat (every k0 h (rows (h * k0) (w * k1) (ma.mask c)))))).
  { destruct z0.
    - rewrite (Hz0 eq_refl) in *. rewrite Nat.mul_1_r in *.
      rewrite (repeat_rows_of_rows h (w * k1)); trivial; try apply rows_length.
      rewrite !each_repeated_once, !every_once, Nat.mul_1_r; trivial; apply rows_length.
    - rewrite Hh, decimated_exact by trivial. cbn [bind].
      apply take_rows_every; trivial; apply rows_length. }
  rewrite Hrows. cbn [bind].
  assert (Hel : forall {B} (xs : list B),
             List.length xs = (h * k0 * (w * k1))%nat ->
             List.length (every k0 h (rows (h * k0) (w * k1) xs)) = h /\
             Forall (fun row => List.length row = (w * k1)%nat)
                    (every k0 h (rows (h * k0) (w * k1) xs))).
  { intros B xs Hx. split.
    - apply every_length; trivial. apply rows_length.
    - apply every_Forall. now apply rows_width. }
  destruct (Hel _ _ Hd) as [Hdl Hdf]. destruct (Hel _ _ Hm) as [Hml Hmf].
  destruct z1.
  - rewrite (Hz1 eq_refl) in *. rewrite Nat.mul_1_r in *.
    rewrite (repeat_columns_of_rows h w); trivial.
    rewrite !map_each_repeated_once, Nat.mul_1_r. do 2 f_equal.
    + f_equal. rewrite <- (map_id (every k0 h _)) at 1. apply map_ext_in.
      intros row Hin. symmetry. apply every_once.
      now apply (proj1 (Forall_forall _ _) Hdf).
    + f_equal. rewrite <- (map_id (every k0 h _)) at 1. apply map_ext_in.
      intros row Hin. symmetry. apply every_once.
      now apply (proj1 (Forall_forall _ _) Hmf).
  - rewrite Hw, decimated_exact by trivial. cbn [bind].
    now apply take_columns_every.
Qed.

Lemma is_empty_rows (s : Image Q) :
  channels s <> [] -> fst (shape s) <> 0%nat -> is_empty s = Ok false.
Proof.
  intros Hcs Hs0. apply is_empty_nonempty; trivial.
  apply not_true_is_false. rewrite shape_eqb_eq. intros Heq.
  now rewrite Heq in Hs0.
Qed.

Lemma zoomed_is_grid (h w k0 k1 : nat) (c : ma.MaskedArray Q) :
  grid h w c -> grid (h * k0) (w * k1) (zoomed k0 k1 c).
Proof.
  intros (Hs & Hd & Hm). unfold grid, zoomed, zoomed_grid. rewrite Hs.
  cbn [ma.shape ma.data ma.mask]. split; [reflexivity|].
  assert (Hl : forall {B} (xs : list B),
             List.length xs = (h * w)%nat ->
             List.length (List.concat (map (each_repeated k1)
                                          (each_repeated k0 (rows h w xs))))
             = (h * k0 * (w * k1))%nat).
  { intros B xs Hx.
    rewrite (concat_uniform_length (w * k1)).
    - now rewrite length_map, each_repeated_length, rows_length.
    - apply Forall_map, each_repeated_Forall.
      eapply Forall_impl; [|apply (rows_width h w xs Hx)].
      cbn. intros row <-. apply each_repeated_length. }
  split; now apply Hl.
Qed.

Lemma decimated_is_grid (h w k0 k1 : nat) (c : ma.MaskedArray Q) :
  (0 < k0)%nat -> (0 < k1)%nat ->
  grid (h * k0) (w * k1) c -> grid h w (decimated_channel k0 k1 h w c).
Proof.
  intros Hk0 Hk1 (Hs & Hd & Hm). unfold grid, decimated_channel, decimated_grid.
  cbn [ma.shape ma.data ma.mask]. split; [reflexivity|].
  assert (Hl : forall {B} (xs : list B),
             List.length xs = (h * k0 * (w * k1))%nat ->
             List.length (List.concat (map (every k1 w)
                                          (every k0 h (rows (h * k0) (w * k1) xs))))
             = (h * w)%nat).
  { intros B xs Hx.
    rewrite (concat_uniform_length w).
    - rewrite length_map, every_length; trivial. apply rows_length.
    - apply Forall_map, every_Forall.
      eapply Forall_impl; [|apply (rows_width _ _ xs Hx)].
      cbn. intros row Hrow. now apply every_length. }
  split; now apply Hl.
Qed.

(** The image that [resize] leaves: new channels of a new size. *)
Lemma resize_zooms (self : Image Q) (h w k0 k1 : nat) :
  gridded h w self -> channels self <> [] ->
  (0 < h)%nat -> (0 < w)%nat -> (0 < k0)%nat -> (0 < k1)%nat ->
  resize (H := E) self (h * k0, w * k1)%nat =
  Ok (mkImage (map (zoomed k0 k1) (channels self)) (mode self) (w * k1) (h * k0)
              (fill_value self) (palette self) (h * k0, w * k1)%nat
              (_secondary_mode self)).
Proof.
  intros (Hh & Hw & Hsh & Hg) Hc Hh0 Hw0 Hk0 Hk1.
  destruct (factor_of_zoom h k0 Hh0 Hk0) as (q0 & Hf0 & Hq0).
  destruct (factor_of_zoom w k1 Hw0 Hk1) as (q1 & Hf1 & Hq1).
  destruct (integral_quotient q0 _ Hq0) as [Hi0 Hn0].
  destruct (integral_quotient q1 _ Hq1) as [Hi1 Hn1].
  unfold resize. rewrite is_empty_rows; [|trivial|rewrite Hsh; cbn; lia].
  cbn [bind fst snd]. rewrite Hh, Hw, Hf0, Hf1. cbn [bind].
  rewrite Hn0. cbn [bind]. rewrite Hn1. cbn [bind]. rewrite Hi0, Hi1. cbn [bind].
  rewrite (map_result_Ok _ (zoomed k0 k1)).
  - destruct (channels self) as [|c0 chans]; [contradiction|].
    apply Forall_cons_iff in Hg as [(Hs0 & _) _].
    cbn [bind map]. unfold getitem. cbn [nth_error bind].
    assert (Hz : ma.shape (zoomed k0 k1 c0) = (h * k0, w * k1)%nat)
      by (unfold zoomed; now rewrite Hs0).
    now rewrite Hz.
  - intros c Hin. apply (channel_zoomed self h w).
    now apply (proj1 (Forall_forall _ _) Hg).
Qed.

Lemma resize_shrinks (self : Image Q) (h w k0 k1 : nat) :
  gridded (h * k0) (w * k1) self -> channels self <> [] ->
  (0 < h)%nat -> (0 < w)%nat -> (0 < k0)%nat -> (0 < k1)%nat ->
  resize (H := E) self (h, w) =
  Ok (mkImage (map (decimated_channel k0 k1 h w) (channels self)) (mode self) w h
              (fill_value self) (palette self) (h, w) (_secondary_mode self)).
Proof.
  intros (Hh & Hw & Hsh & Hg) Hc Hh0 Hw0 Hk0 Hk1.
  destruct (factor_of_return h k0 Hh0 Hk0) as (z0 & r0 & Hr0 & Hqr0 & Hz0).
  destruct (factor_of_return w k1 Hw0 Hk1) as (z1 & r1 & Hr1 & Hqr1 & Hz1).
  destruct (integral_quotient r0 _ Hqr0) as [Hj0 Hm0].
  destruct (integral_quotient r1 _ Hqr1) as [Hj1 Hm1].
  unfold resize. rewrite is_empty_rows; [|trivial|rewrite Hsh; cbn; lia].
  cbn [bind fst snd]. rewrite Hh, Hw, Hr0, Hr1. cbn [bind].
  rewrite Hm0. cbn [bind]. rewrite Hm1. cbn [bind]. rewrite Hj0, Hj1. cbn [bind].
  rewrite (map_result_Ok _ (decimated_channel k0 k1 h w)).
  - destruct (channels self) as [|c0 chans]; [contradiction|]. reflexivity.
  - intros c Hin. apply channel_shrunk; trivial.
    now apply (proj1 (Forall_forall _ _) Hg).
Qed.

Lemma getitem_map {A B} (f : A -> B) (xs : list A) (n : nat) :
  getitem (map f xs) n = (x <- getitem xs n ;; Ok (f x)).
Proof.
  unfold getitem. rewrite nth_error_map. now destruct (nth_error xs n).
Qed.

Lemma decimated_zoomed (h w k0 k1 : nat) (c : ma.MaskedArray Q) :
  (0 < k0)%nat -> (0 < k1)%nat -> grid h w c ->
  decimated_channel k0 k1 h w (zoomed k0 k1 c) = c.
Proof.
  intros Hk0 Hk1 Hg. apply Ok_inj.
  set (big := mkImage ([] : list (ma.MaskedArray Q)) "L" (w * k1) (h * k0) None None
                      (h * k0, w * k1)%nat "RGB").
  rewrite <- (channel_shrunk big h w k0 k1 false false);
    trivial; try discriminate; [|now apply zoomed_is_grid].
  now apply (channel_restored big h w); try discriminate.
Qed.

(** [resize] zooms by whole factors and comes back: an image of [h] rows
    and [w] columns that is resized to [h * k0] rows and [w * k1] columns
    has that size, and resizing the result to [(h, w)] gives the image
    back as it was. *)
Theorem resize_zoom_round_trip (self : Image Q) (h w k0 k1 : nat) :
  gridded h w self -> channels self <> [] ->
  (0 < h)%nat -> (0 < w)%nat -> (0 < k0)%nat -> (0 < k1)%nat ->
  exists big,
    resize (H := E) self (h * k0, w * k1)%nat = Ok big /\
    gridded (h * k0) (w * k1) big /\
    resize (H := E) big (h, w) = Ok self.
Proof.
  intros Hgr Hc Hh0 Hw0 Hk0 Hk1.
  eexists. split; [now apply resize_zooms|].
  destruct Hgr as (Hh & Hw & Hsh & Hg).
  assert (Hbig : gridded (h * k0) (w * k1)
                   (mkImage (map (zoomed k0 k1) (channels self)) (mode self) (w * k1)
                      (h * k0) (fill_value self) (palette self) (h * k0, w * k1)%nat
                      (_secondary_mode self))).
  { repeat split. cbn [channels]. apply Forall_map.
    eapply Forall_impl; [|exact Hg]. intros c. apply zoomed_is_grid. }
  split; [exact Hbig|].
  rewrite (resize_shrinks _ h w k0 k1); trivial.
  - cbn [channels mode fill_value palette _secondary_mode]. rewrite map_map.
    rewrite (map_ext_in _ (fun c => c)), map_id.
    + destruct self as [c m w' h' fv p sh sm]. cbn in Hh, Hw, Hsh |- *. now subst.
    + intros c Hin. apply decimated_zoomed; trivial.
      now apply (proj1 (Forall_forall _ _) Hg).
  - cbn [channels]. now destruct (channels self).
Qed.

(** Zooming repeats elements: after [resize] to [h * k0] rows and
    [w * k1] columns, element [(i, j)] of every channel, value and mask
    bit, is element [(i // k0, j // k1)] of the channel before, and an
    index out of range on one side is out of range on the other.  Mode,
    fill value and palette are kept. *)
Theorem resize_zoom_repeats_elements (self : Image Q) (h w k0 k1 : nat) :
  gridded h w self -> channels self <> [] ->
  (0 < h)%nat -> (0 < w)%nat -> (0 < k0)%nat -> (0 < k1)%nat ->
  exists big,
    resize (H := E) self (h * k0, w * k1)%nat = Ok big /\
    mode big = mode self /\ fill_value big = fill_value self /\
    palette big = palette self /\
    List.length (channels big) = List.length (channels self) /\
    forall n i j, element big n i j = element self n (i / k0) (j / k1).
Proof.
  intros Hgr Hc Hh0 Hw0 Hk0 Hk1.
  eexists. split; [now apply resize_zooms|].
  cbn [mode fill_value palette channels]. repeat split; [apply length_map|].
  intros n i j. unfold element. cbn [channels]. rewrite getitem_map.
  destruct (getitem (channels self) n) as [c|e] eqn:Hn; cbn [bind]; trivial.
  apply (zoomed_item2 _ _ h w); trivial.
  destruct Hgr as (_ & _ & _ & Hg).
  apply getitem_Ok, nth_error_In in Hn. now apply (proj1 (Forall_forall _ _) Hg).
Qed.

(** Shrinking decimates: an image of [h * k0] rows and [w * k1] columns
    that is resized to [(h, w)] has that size, and element [(i, j)] of
    every channel, value and mask bit, is element [(i * k0, j * k1)] of the
    channel before.  Mode, fill value and palette are kept. *)
Theorem resize_shrink_keeps_every_kth (self : Image Q) (h w k0 k1 : nat) :
  gridded (h * k0) (w * k1) self -> channels self <> [] ->
  (0 < h)%nat -> (0 < w)%nat -> (0 < k0)%nat -> (0 < k1)%nat ->
  exists small,
    resize (H := E) self (h, w) = Ok small /\
    gridded h w small /\
    mode small = mode self /\ fill_value small = fill_value self /\
    palette small = palette self /\
    List.length (channels small) = List.length (channels self) /\
    forall n i j, element small n i j = element self n (i * k0) (j * k1).
Proof.
  intros Hgr Hc Hh0 Hw0 Hk0 Hk1.
  eexists. split; [now apply (resize_shrinks _ h w k0 k1)|].
  destruct Hgr as (_ & _ & _ & Hg).
  cbn [mode fill_value palette channels]. split; [|repeat split; [apply length_map|]].
  - repeat split. cbn [channels]. apply Forall_map.
    eapply Forall_impl; [|exact Hg]. intros c. now apply decimated_is_grid.
  - intros n i j. unfold element. cbn [channels]. rewrite getitem_map.
    destruct (getitem (channels self) n) as [c|e] eqn:Hn; cbn [bind]; trivial.
    apply decimated_item2; trivial.
    apply getitem_Ok, nth_error_In in Hn. now apply (proj1 (Forall_forall _ _) Hg).
Qed.

Lemma quotient_exists (a b : nat) :
  (0 < b)%nat ->
  py_div (H := E) (fmul (Float64 := E) (of_nat (H := E) a) (lit (Float64 := E) 1))
         (of_nat (H := E) b) =
  Ok (inject_Z (Z.of_nat a) * 1 / inject_Z (Z.of_nat b)).
Proof.
  intros Hb. unfold py_div. rewrite of_nat_zero.
  destruct (Nat.eqb_spec b 0); [lia|]. reflexivity.
Qed.

Lemma quotient_by_zero (a : nat) :
  py_div (H := E) (fmul (Float64 := E) (of_nat (H := E) a) (lit (Float64 := E) 1))
         (of_nat (H := E) 0) = Raise ZeroDivisionError.
Proof. reflexivity. Qed.

(** A quotient of two sizes is an integer only if the divisor divides. *)
Lemma not_integral_quotient (a b : nat) :
  (0 < b)%nat -> ~ Nat.divide b a ->
  not_integral (H := E) (inject_Z (Z.of_nat a) * 1 / inject_Z (Z.of_nat b)) = Ok true.
Proof.
  intros Hb Hdiv. unfold not_integral. cbn [py_int E exactQ bind]. f_equal.
  apply negb_true_iff, not_true_is_false. intros Heq.
  unfold of_int in Heq. cbn [feqb lit E exactQ] in Heq. apply Qeq_bool_iff in Heq.
  apply Hdiv.
  set (z := exact.trunc (inject_Z (Z.of_nat a) * 1 / inject_Z (Z.of_nat b))) in *.
  assert (Hz : inject_Z z * inject_Z (Z.of_nat b) == inject_Z (Z.of_nat a)).
  { rewrite Heq. field. intros H0. unfold Qeq in H0. cbn in H0. lia. }
  rewrite <- inject_Z_mult in Hz. unfold Qeq in Hz. cbn in Hz.
  rewrite !Z.mul_1_r in Hz.
  exists (Z.to_nat z). apply Nat2Z.inj. rewrite Nat2Z.inj_mul, Z2Nat.id; [lia|].
  destruct (Z.le_gt_cases 0 z); trivial. nia.
Qed.

Lemma factor_not_integral (wanted current : nat) :
  (0 < wanted)%nat -> (0 < current)%nat ->
  ~ (Nat.divide current wanted \/ Nat.divide wanted current) ->
  exists zoom q, resize_factor (H := E) wanted current = (zoom, Ok q) /\
                 not_integral (H := E) q = Ok true.
Proof.
  intros Hw Hc Hdiv. unfold resize_factor.
  destruct (current <=? wanted)%nat; rewrite quotient_exists by trivial;
    do 2 eexists; (split; [reflexivity|]); apply not_integral_quotient; trivial; tauto.
Qed.

Lemma factor_exists (wanted current : nat) :
  (0 < wanted)%nat -> (0 < current)%nat ->
  exists zoom q b, resize_factor (H := E) wanted current = (zoom, Ok q) /\
                   not_integral (H := E) q = Ok b.
Proof.
  intros Hw Hc. unfold resize_factor.
  destruct (current <=? wanted)%nat; rewrite quotient_exists by trivial;
    do 3 eexists; (split; [reflexivity|]); reflexivity.
Qed.

Lemma factor_by_zero (wanted current : nat) :
  wanted = 0%nat \/ current = 0%nat ->
  exists zoom, resize_factor (H := E) wanted current = (zoom, Raise ZeroDivisionError).
Proof.
  intros Hz. unfold resize_factor.
  destruct (Nat.leb_spec current wanted) as [Hle|Hlt].
  - assert (current = 0%nat) as -> by lia. eexists. now rewrite quotient_by_zero.
  - assert (wanted = 0%nat) as -> by lia. eexists. now rewrite quotient_by_zero.
Qed.

(** What [resize] refuses: an empty image, with [ValueError]; a size of
    no row or no column, wanted or present, with [ZeroDivisionError]; and
    a wanted number of rows (or columns) that is neither a multiple nor a
    divisor of the present one, with [ValueError]. *)
Theorem resize_refuses (self : Image Q) (shape_ : nat * nat) :
  (is_empty self = Ok true -> resize (H := E) self shape_ = Raise ValueError) /\
  (is_empty self = Ok false ->
   (fst shape_ = 0 \/ height self = 0 \/ snd shape_ = 0 \/ width self = 0)%nat ->
   resize (H := E) self shape_ = Raise ZeroDivisionError) /\
  (is_empty self = Ok false ->
   (0 < fst shape_)%nat -> (0 < height self)%nat ->
   (0 < snd shape_)%nat -> (0 < width self)%nat ->
   ~ (Nat.divide (height self) (fst shape_) \/ Nat.divide (fst shape_) (height self)) \/
   ~ (Nat.divide (width self) (snd shape_) \/ Nat.divide (snd shape_) (width self)) ->
   resize (H := E) self shape_ = Raise ValueError).
Proof.
  split; [|split].
  - intros He. unfold resize. now rewrite He.
  - intros He Hz. unfold resize. rewrite He. cbn [bind].
    destruct (Nat.eq_dec (fst shape_) 0) as [H0|H0];
      [|destruct (Nat.eq_dec (height self) 0) as [H1|H1]].
    + destruct (factor_by_zero (fst shape_) (height self)) as [z ->]; [now left|].
      reflexivity.
    + destruct (factor_by_zero (fst shape_) (height self)) as [z ->]; [now right|].
      reflexivity.
    + destruct (factor_exists (fst shape_) (height self)) as (z & q & b & -> & _);
        [lia|lia|].
      cbn [bind].
      destruct (factor_by_zero (snd shape_) (width self)) as [z1 ->]; [lia|].
      reflexivity.
  - intros He Hs0 Hh Hs1 Hw Hdiv. unfold resize. rewrite He. cbn [bind].
    destruct (factor_exists (fst shape_) (height self) Hs0 Hh) as (z0 & q0 & b0 & Hf0 & Hb0).
    destruct (factor_exists (snd shape_) (width self) Hs1 Hw) as (z1 & q1 & b1 & Hf1 & Hb1).
    rewrite Hf0. cbn [bind]. rewrite Hf1. cbn [bind]. rewrite Hb0. cbn [bind].
    destruct b0; [reflexivity|]. rewrite Hb1. cbn [bind].
    destruct b1; [reflexivity|]. exfalso.
    destruct Hdiv as [Hdiv|Hdiv].
    + destruct (factor_not_integral _ _ Hs0 Hh Hdiv) as (z & q & Hf & Hb). congruence.
    + destruct (factor_not_integral _ _ Hs1 Hw Hdiv) as (z & q & Hf & Hb). congruence.
Qed.

End ExactResize.

(** Runs of the three theorems above: a row of three pixels zoomed twice
    along both axes and resized back, and the same row shrunk to one
    pixel. *)
Lemma resize_zoom_round_trip_witness :
  exists big,
    resize example.l_row (1 * 2, 3 * 2)%nat = Ok big /\
    gridded (1 * 2) (3 * 2) big /\
    resize big (1, 3)%nat = Ok example.l_row.
Proof.
  apply (resize_zoom_round_trip exact.pow_integral (fun _ => 0%Q) example.l_row 1 3 2 2).
  - repeat split. repeat constructor.
  - discriminate.
  - lia.
  - lia.
  - lia.
  - lia.
Defined.

Lemma resize_zoom_repeats_elements_witness :
  exists big,
    resize example.l_row (1 * 2, 3 * 2)%nat = Ok big /\
    mode big = mode example.l_row /\ fill_value big = fill_value example.l_row /\
    palette big = palette example.l_row /\
    List.length (channels big) = List.length (channels example.l_row) /\
    forall n i j, element big n i j = element example.l_row n (i / 2) (j / 2).
Proof.
  apply (resize_zoom_repeats_elements exact.pow_integral (fun _ => 0%Q)
           example.l_row 1 3 2 2).
  - repeat split. repeat constructor.
  - discriminate.
  - lia.
  - lia.
  - lia.
  - lia.
Defined.

Lemma resize_shrink_keeps_every_kth_witness :
  exists small,
    resize example.l_row (1, 1)%nat = Ok small /\
    gridded 1 1 small /\
    mode small = mode example.l_row /\ fill_value small = fill_value example.l_row /\
    palette small = palette example.l_row /\
    List.length (channels small) = List.length (channels example.l_row) /\
    forall n i j, element small n i j = element example.l_row n (i * 1) (j * 3).
Proof.
  apply (resize_shrink_keeps_every_kth exact.pow_integral (fun _ => 0%Q)
           example.l_row 1 1 1 3).
  - repeat split. repeat constructor.
  - discriminate.
  - lia.
  - lia.
  - lia.
  - lia.
Defined.

(** ** Conversions keep the size *)

Lemma setitem_Forall {A} (P : A -> Prop) (xs : list A) (i : nat) (v : A) :
  Forall P xs -> P v -> Forall P (setitem xs i v).
Proof.
  intros Hxs Hv. revert i. induction Hxs as [|x xs Hx Hxs IH]; intros [|i]; cbn;
    constructor; trivial.
Qed.

Lemma getitem_Forall {A} (P : A -> Prop) (xs : list A) (i : nat) (x : A) :
  Forall P xs -> getitem xs i = Ok x -> P x.
Proof.
  intros Hxs Hx. apply getitem_Ok in Hx. apply nth_error_In in Hx.
  now apply (proj1 (Forall_forall P xs) Hxs).
Qed.

Lemma first3_Forall {A} (P : A -> Prop) (xs : list A) (a b c : A) :
  Forall P xs -> first3 xs = Ok (a, b, c) -> P a /\ P b /\ P c.
Proof.
  intros Hxs H3. unfold first3 in H3.
  bind_inv H3 as x0 H0. bind_inv H3 as x1 H1. bind_inv H3 as x2 H2.
  injection H3 as <- <- <-.
  split; [|split]; eapply getitem_Forall; eauto.
Qed.

Lemma skipn_Forall {A} (P : A -> Prop) (n : nat) (xs : list A) :
  Forall P xs -> Forall P (skipn n xs).
Proof.
  intros Hxs. rewrite <- (firstn_skipn n xs) in Hxs. now apply Forall_app in Hxs.
Qed.

Lemma drop_last_Forall {A} (P : A -> Prop) (xs : list A) :
  Forall P xs -> Forall P (drop_last xs).
Proof.
  intros Hxs. destruct xs as [|x xs]; trivial.
  assert (Hne : x :: xs <> []) by discriminate.
  destruct (exists_last Hne) as (front & a & E). rewrite E in *.
  rewrite drop_last_app. now apply Forall_app in Hxs.
Qed.

Lemma direct_with_alpha (m : string) :
  In m direct_modes -> endswith_A m = false -> In (m ++ "A")%string direct_modes.
Proof.
  intros Hm. simpl in Hm. decompose [or] Hm; subst; try contradiction;
    cbn; intros; try discriminate; tauto.
Qed.

Lemma direct_without_alpha (m : string) :
  In m direct_modes -> endswith_A m = true -> In (strip_last m) direct_modes.
Proof.
  intros Hm. simpl in Hm. decompose [or] Hm; subst; try contradiction;
    cbn; intros; try discriminate; tauto.
Qed.

Section SizeOfConversions.

Context {F : Type} `{Float64 F}.

Variables h w : nat.

Lemma grid_map2 (f : F -> F -> F) (x y : ma.MaskedArray F) :
  grid h w x -> grid h w y -> grid h w (ma.map2 f x y).
Proof.
  intros (Hs & Hd & Hm) (_ & Hd' & Hm'). unfold grid, ma.map2, ma.choose, ma.mask_or.
  cbn [ma.shape ma.data ma.mask].
  rewrite !zip_with_length, length_combine, !zip_with_length.
  split; trivial. lia.
Qed.

Lemma grid_scalar_first (f : F -> F -> F) (s : F) (x : ma.MaskedArray F) :
  grid h w x -> grid h w (ma.scalar_first f s x).
Proof.
  intros (Hs & Hd & Hm). unfold grid, ma.scalar_first. cbn [ma.shape ma.data ma.mask].
  rewrite zip_with_length. split; trivial. lia.
Qed.

Lemma grid_scalar_second (f : F -> F -> F) (x : ma.MaskedArray F) (s : F) :
  grid h w x -> grid h w (ma.scalar_second f x s).
Proof.
  intros (Hs & Hd & Hm). unfold grid, ma.scalar_second. cbn [ma.shape ma.data ma.mask].
  rewrite zip_with_length. split; trivial. lia.
Qed.

Lemma grid_full (v : F) : grid h w (ma.full (h, w) v).
Proof.
  unfold grid, ma.full. cbn [ma.shape ma.data ma.mask fst snd].
  now rewrite !repeat_length.
Qed.

(** Solves the goals that an array built by elementwise arithmetic from
    grids is a grid. *)
Ltac grids :=
  cbn [add sub smul sdiv array_arith];
  repeat first [ assumption | apply grid_map2 | apply grid_scalar_first
               | apply grid_scalar_second ].

Lemma rgb2ycbcr_grids (c0 c1 c2 y cb cr : ma.MaskedArray F) :
  grid h w c0 -> grid h w c1 -> grid h w c2 ->
  rgb2ycbcr c0 c1 c2 = (y, cb, cr) ->
  grid h w y /\ grid h w cb /\ grid h w cr.
Proof.
  intros H0 H1 H2 E. unfold rgb2ycbcr in E. injection E as <- <- <-.
  split; [|split]; grids.
Qed.

Lemma ycbcr2rgb_grids (c0 c1 c2 r g b : ma.MaskedArray F) :
  grid h w c0 -> grid h w c1 -> grid h w c2 ->
  ycbcr2rgb c0 c1 c2 = (r, g, b) ->
  grid h w r /\ grid h w g /\ grid h w b.
Proof.
  intros H0 H1 H2 E. unfold ycbcr2rgb in E. injection E as <- <- <-.
  split; [|split]; grids.
Qed.

Lemma rgb2ycbcr_gridded (self self' : Image F) (m : string) :
  gridded h w self -> _rgb2ycbcr self m = Ok self' -> gridded h w self'.
Proof.
  intros (Hh & Hw & Hs & Hg) Hr. unfold _rgb2ycbcr in Hr.
  bind_inv Hr as u Hu. bind_inv Hr as c Hc3. destruct c as [[c0 c1] c2].
  destruct (first3_Forall _ _ _ _ _ Hg Hc3) as (H0 & H1 & H2).
  destruct (rgb2ycbcr c0 c1 c2) as [[y cb] cr] eqn:E.
  destruct (rgb2ycbcr_grids _ _ _ _ _ _ H0 H1 H2 E) as (Hy & Hcb & Hcr).
  bind_inv Hr as s Hs'. apply Ok_inj in Hr; subst self'.
  apply update_fill_frame in Hs' as (Hc & _ & _ & Hsh & Hwd & Hht & _).
  unfold gridded. fields. rewrite Hc, Hsh, Hwd, Hht.
  split; trivial. split; trivial. split; trivial.
  now repeat apply setitem_Forall.
Qed.

Lemma ycbcr2rgb_gridded (self self' : Image F) (m : string) :
  gridded h w self -> _ycbcr2rgb self m = Ok self' -> gridded h w self'.
Proof.
  intros (Hh & Hw & Hs & Hg) Hr. unfold _ycbcr2rgb in Hr.
  bind_inv Hr as u Hu. bind_inv Hr as c Hc3. destruct c as [[c0 c1] c2].
  destruct (first3_Forall _ _ _ _ _ Hg Hc3) as (H0 & H1 & H2).
  destruct (ycbcr2rgb c0 c1 c2) as [[r g] b] eqn:E.
  destruct (ycbcr2rgb_grids _ _ _ _ _ _ H0 H1 H2 E) as (Hr' & Hg' & Hb').
  bind_inv Hr as s Hs'. apply Ok_inj in Hr; subst self'.
  apply update_fill_frame in Hs' as (Hc & _ & _ & Hsh & Hwd & Hht & _).
  unfold gridded. fields. rewrite Hc, Hsh, Hwd, Hht.
  split; trivial. split; trivial. split; trivial.
  now repeat apply setitem_Forall.
Qed.

Lemma rgb2l_gridded (self self' : Image F) (m : string) :
  gridded h w self -> _rgb2l self m = Ok self' -> gridded h w self'.
Proof.
  intros (Hh & Hw & Hs & Hg) Hr. unfold _rgb2l in Hr.
  bind_inv Hr as u Hu. bind_inv Hr as c Hc3. destruct c as [[r g] b].
  destruct (first3_Forall _ _ _ _ _ Hg Hc3) as (H0 & H1 & H2).
  bind_inv Hr as s Hs'. apply Ok_inj in Hr; subst self'.
  apply update_fill_frame in Hs' as (Hc & _ & _ & Hsh & Hwd & Hht & _).
  unfold gridded. fields. rewrite Hc, Hsh, Hwd, Hht.
  split; trivial. split; trivial. split; trivial.
  constructor; [grids | now apply skipn_Forall].
Qed.

Lemma ycbcr2l_gridded (self self' : Image F) (m : string) :
  gridded h w self -> _ycbcr2l self m = Ok self' -> gridded h w self'.
Proof.
  intros (Hh & Hw & Hs & Hg) Hr. unfold _ycbcr2l in Hr.
  bind_inv Hr as u Hu. bind_inv Hr as c0 Hc0.
  bind_inv Hr as s Hs'. apply Ok_inj in Hr; subst self'.
  apply update_fill_frame in Hs' as (Hc & _ & _ & Hsh & Hwd & Hht & _).
  unfold gridded. fields. rewrite Hc, Hsh, Hwd, Hht.
  split; trivial. split; trivial. split; trivial.
  constructor; [now apply (getitem_Forall _ _ _ _ Hg Hc0) | now apply skipn_Forall].
Qed.

Lemma l2ycbcr_gridded (self self' : Image F) (m : string) :
  gridded h w self -> _l2ycbcr self m = Ok self' -> gridded h w self'.
Proof.
  intros (Hh & Hw & Hs & Hg) Hr. unfold _l2ycbcr in Hr.
  bind_inv Hr as u Hu. bind_inv Hr as luma Hluma.
  bind_inv Hr as s Hs'. apply Ok_inj in Hr; subst self'.
  apply update_fill_frame in Hs' as (Hc & _ & _ & Hsh & Hwd & Hht & _).
  unfold gridded. fields. rewrite Hc, Hsh, Hwd, Hht.
  split; trivial. split; trivial. split; trivial.
  pose proof (getitem_Forall _ _ _ _ Hg Hluma) as Hl.
  assert (Hz : grid h w (ma.set_mask (ma.full (ma.shape luma) (lit 0)) (ma.mask luma))).
  { destruct Hl as (Hls & Hld & Hlm). rewrite Hls.
    destruct (grid_full (lit 0)) as (Hfs & Hfd & _).
    unfold grid, ma.set_mask. cbn [ma.shape ma.data ma.mask]. auto. }
  constructor; trivial. constructor; trivial. constructor; trivial.
  now apply skipn_Forall.
Qed.

Lemma l2rgb_gridded (self self' : Image F) (m : string) :
  gridded h w self -> _l2rgb self m = Ok self' -> gridded h w self'.
Proof.
  intros (Hh & Hw & Hs & Hg) Hr. unfold _l2rgb in Hr.
  bind_inv Hr as u Hu. bind_inv Hr as c0 Hc0. fields.
  pose proof (getitem_Forall _ _ _ _ Hg Hc0) as H0.
  assert (Hall : Forall (grid h w) (channels self ++ [c0] ++ [c0])).
  { apply Forall_app. split; trivial. constructor; trivial. now constructor. }
  destruct (mode self =? "LA").
  - bind_inv Hr as s Hs'. bind_inv Hs' as c1 Hc1. bind_inv Hs' as c3 Hc3.
    apply Ok_inj in Hs'; subst s. apply Ok_inj in Hr; subst self'. unfold gridded. fields.
    split; trivial. split; trivial. split; trivial.
    apply setitem_Forall; [apply setitem_Forall|]; trivial;
      eapply getitem_Forall; eauto.
  - cbn [bind] in Hr. apply Ok_inj in Hr; subst self'. unfold gridded. fields. auto.
Qed.

(** [convert] between the direct modes keeps the size of the image. *)
Lemma convert_fuel_gridded (fuel : nat) (self self' : Image F) (m : string) :
  In m direct_modes -> In (mode self) direct_modes ->
  gridded h w self -> convert_fuel fuel self m = Ok self' -> gridded h w self'.
Proof.
  revert self self' m.
  induction fuel as [|fuel IH]; intros self self' m Hm Hsrc Hgr Hr; [discriminate|].
  rewrite convert_fuel_unfold in Hr.
  destruct (m =? mode self) eqn:E1.
  { apply Ok_inj in Hr. now subst self'. }
  destruct (mode_in m modes) eqn:Hin; [|discriminate].
  cbn [negb] in Hr.
  bind_inv Hr as empty Hempty. destruct empty.
  { apply Ok_inj in Hr. now subst self'. }
  pose proof Hgr as (Hh & Hw & Hs & Hg).
  destruct (m =? mode self ++ "A") eqn:E2.
  { bind_inv Hr as c0 Hc0. apply Ok_inj in Hr; subst self'. unfold gridded. fields.
    split; trivial. split; trivial. split; trivial.
    apply Forall_app. split; trivial. constructor; [|constructor].
    destruct (getitem_Forall _ _ _ _ Hg Hc0) as (-> & _). apply grid_full. }
  destruct (m ++ "A" =? mode self) eqn:E3.
  { apply Ok_inj in Hr; subst self'. unfold gridded. fields.
    split; trivial. split; trivial. split; trivial. now apply drop_last_Forall. }
  destruct (endswith_A m && negb (endswith_A (mode self))) eqn:E4.
  { bind_inv Hr as s Hs'. apply andb_true_iff in E4 as (_ & E4).
    apply negb_true_iff in E4.
    pose proof (direct_with_alpha _ Hsrc E4) as Hmid.
    pose proof (convert_fuel_sound _ _ _ _ Hs') as (Hmode & _).
    apply (IH s self' m); trivial.
    - now rewrite Hmode.
    - now apply (IH self s (mode self ++ "A")%string). }
  destruct (endswith_A (mode self) && negb (endswith_A m)) eqn:E5.
  { bind_inv Hr as s Hs'. apply andb_true_iff in E5 as (E5 & _).
    pose proof (direct_without_alpha _ Hsrc E5) as Hmid.
    pose proof (convert_fuel_sound _ _ _ _ Hs') as (Hmode & _).
    apply (IH s self' m); trivial.
    - now rewrite Hmode.
    - now apply (IH self s (strip_last (mode self))). }
  destruct (lookup cases (mode self)) as [row|] eqn:Erow; [|discriminate].
  destruct (lookup row m) as [meth|] eqn:Em; [|discriminate].
  apply lookup_In in Erow. apply lookup_In in Em.
  simpl in Erow.
  destruct Erow as [E|[E|[E|[E|[E|[E|[E|[E|[]]]]]]]]];
    injection E as Hmode <-; simpl in Em;
    destruct Em as [E|[E|[E|[]]]]; injection E as <- <-; cbn [call] in Hr;
    first [ exact (rgb2ycbcr_gridded self self' _ Hgr Hr)
          | exact (ycbcr2rgb_gridded self self' _ Hgr Hr)
          | exact (rgb2l_gridded self self' _ Hgr Hr)
          | exact (ycbcr2l_gridded self self' _ Hgr Hr)
          | exact (l2rgb_gridded self self' _ Hgr Hr)
          | exact (l2ycbcr_gridded self self' _ Hgr Hr)
          | now (exfalso; simpl in Hm; decompose [or] Hm)
          | now (exfalso; rewrite <- Hmode in Hsrc; simpl in Hsrc; decompose [or] Hsrc) ].
Qed.

Lemma convert_gridded (self self' : Image F) (m : string) :
  In m direct_modes -> In (mode self) direct_modes ->
  gridded h w self -> convert self m = Ok self' -> gridded h w self'.
Proof. unfold convert. apply convert_fuel_gridded. Qed.

End SizeOfConversions.

(** ** Conversions between the direct modes *)

Section DirectConversions.

Context {F : Type} `{Float64 F}.

Lemma returns_Ok {A} (r : result A) : returns r = true -> exists a, r = Ok a.
Proof. destruct r; [now eexists | discriminate]. Qed.

(** Lists of a known length, spelled out. *)
Ltac spell l Hl :=
  repeat (destruct l as [|? l]; cbn [List.length] in Hl; try discriminate Hl; try lia).

Lemma direct_conversions_return (self : Image F) (m : string) :
  consistent self -> is_empty self = Ok false ->
  In (mode self) direct_modes -> In m direct_modes ->
  exists self', convert self m = Ok self'.
Proof.
  intros (_ & _ & Hlen & Hfill & _) Hne Hsrc Hdst. apply returns_Ok.
  destruct self as [chans md w h fv pal [sh0 sh1] sec].
  cbn [channels mode fill_value] in Hlen, Hfill, Hsrc.
  assert (Hsh : shape_eqb (sh0, sh1) (0, 0)%nat = false).
  { now apply nonempty_shape in Hne as [_ Hsh]. }
  clear Hne.
  assert (Hfv : match fv with
                | Some l => List.length l = count_upper md
                | None => True
                end).
  { destruct fv; trivial. now apply Hfill. }
  clear Hfill.
  unfold direct_modes in Hsrc, Hdst.
  repeat (destruct Hsrc as [<-|Hsrc]; [|try contradiction]);
    cbn in Hlen, Hfv;
    spell chans Hlen;
    (destruct fv as [l|]; [spell l Hfv|]);
    repeat (destruct Hdst as [<-|Hdst]; [|try contradiction]);
    (destruct sh0; [destruct sh1; [discriminate Hsh|]|]);
    vm_compute; reflexivity.
Qed.

(** [convert] between two direct modes returns an image of the requested
    mode and of the same size.  On an image of [h] rows and [w] columns
    that is not empty, with as many channels as its mode has letters and a
    fill value, if any, of as many entries, no conversion between L, LA,
    RGB, RGBA, YCbCr and YCbCrA raises an exception or exhausts the
    recursion limit; the result has the mode asked for, and its channels
    are again grids of [h] rows and [w] columns. *)
Theorem convert_between_direct_modes_returns (self : Image F) (m : string) (h w : nat) :
  consistent self -> gridded h w self -> is_empty self = Ok false ->
  In (mode self) direct_modes -> In m direct_modes ->
  exists self', convert self m = Ok self' /\ mode self' = m /\ gridded h w self'.
Proof.
  intros Hcons Hgr Hne Hsrc Hdst.
  destruct (direct_conversions_return self m Hcons Hne Hsrc Hdst) as (self' & Hr).
  exists self'. split; trivial. split.
  - exact (convert_mode self self' m Hr).
  - exact (convert_gridded h w self self' m Hdst Hsrc Hgr Hr).
Qed.

End DirectConversions.

(** A run of the theorem above: a pixel in mode LA with a fill value,
    converted to RGB. *)
Lemma convert_between_direct_modes_witness :
  exists self', convert example.la_filled "RGB" = Ok self' /\ mode self' = "RGB" /\
                gridded 1 1 self'.
Proof.
  apply (convert_between_direct_modes_returns example.la_filled "RGB" 1 1).
  - split; [cbn; tauto|]. split; [cbn; tauto|]. split; [reflexivity|]. split.
    + intros fv Hfv. apply Some_eq in Hfv. now subst fv.
    + discriminate.
  - repeat split. repeat constructor.
  - reflexivity.
  - cbn. tauto.
  - cbn. tauto.
Defined.

Section LuminanceOfColour.

Context {F : Type} `{Float64 F}.

(** The luminance of a colour image is the Y of its YCbCr form: on an
    image whose channels are grids of one size, [convert] from RGB to L
    gives exactly what [convert] to YCbCr followed by [convert] to L
    gives, channels, masks and fill value, and the same with alpha from
    RGBA over YCbCrA to LA. *)
Theorem rgb_to_l_is_the_y_of_ycbcr (self : Image F) (via dst : string) (h w : nat) :
  (mode self = "RGB" /\ via = "YCbCr" /\ dst = "L") \/
  (mode self = "RGBA" /\ via = "YCbCrA" /\ dst = "LA") ->
  is_empty self = Ok false ->
  Forall (grid h w) (channels self) ->
  (3 <= List.length (channels self))%nat ->
  (forall fv, fill_value self = Some fv -> (3 <= List.length fv)%nat) ->
  exists y l,
    convert self via = Ok y /\ convert y dst = Ok l /\ convert self dst = Ok l.
Proof.
  intros Hmodes Hne _ Hlen Hfill.
  apply nonempty_shape in Hne as [_ Hsh].
  destruct self as [chans md wd ht fv pal sh sec]. fields.
  destruct chans as [|c0 [|c1 [|c2 rest]]]; cbn in Hlen; try lia. clear Hlen.
  assert (Hfv : fv = None \/ exists f0 f1 f2 l, fv = Some (f0 :: f1 :: f2 :: l)).
  { destruct fv as [[|f0 [|f1 [|f2 l]]]|]; eauto 6;
      specialize (Hfill _ eq_refl); cbn in Hfill; lia. }
  clear Hfill.
  assert (Hempty : forall cs m f p s,
             is_empty (mkImage (c0 :: cs) m wd ht f p sh s) = Ok false).
  { intros. apply is_empty_nonempty; [discriminate | exact Hsh]. }
  unfold convert, recursion_limit.
  destruct Hmodes as [(-> & -> & ->) | (-> & -> & ->)];
    destruct Hfv as [-> | (f0 & f1 & f2 & l & ->)];
    do 2 eexists;
    (split; [rewrite (convert_fuel_dispatched _ _ _ m_rgb2ycbcr);
               [reflexivity | apply Hempty | reflexivity]|]);
    (split; [rewrite (convert_fuel_dispatched _ _ _ m_ycbcr2l);
               [reflexivity | apply Hempty | reflexivity]|]);
    (rewrite (convert_fuel_dispatched _ _ _ m_rgb2l);
       [reflexivity | apply Hempty | reflexivity]).
Qed.

End LuminanceOfColour.

(** A run of the theorem above on a red pixel. *)
Lemma rgb_to_l_witness :
  exists y l,
    convert example.rgb_red "YCbCr" = Ok y /\ convert y "L" = Ok l /\
    convert example.rgb_red "L" = Ok l.
Proof.
  apply (rgb_to_l_is_the_y_of_ycbcr example.rgb_red "YCbCr" "L" 1 1).
  - left. repeat split.
  - reflexivity.
  - repeat constructor.
  - cbn. lia.
  - discriminate.
Defined.

(** ** Round trips over the rationals *)

Section SameImages.

Open Scope Q_scope.

Lemma Forall2_Qeq_refl (xs : list Q) : Forall2 Qeq xs xs.
Proof. induction xs; constructor; trivial. reflexivity. Qed.

Lemma valid_grid_refl (c : ma.MaskedArray Q) : same.valid_grid c c.
Proof.
  repeat split. intros k v v' _ Hv Hv'. rewrite Hv in Hv'.
  injection Hv' as <-. reflexivity.
Qed.

Lemma valid_grids_refl (cs : list (ma.MaskedArray Q)) : Forall2 same.valid_grid cs cs.
Proof. induction cs; constructor; trivial. apply valid_grid_refl. Qed.

Lemma same_fill_refl (fv : option (list Q)) : same.fill fv fv.
Proof. destruct fv; cbn; trivial. apply Forall2_Qeq_refl. Qed.

Lemma mask_or_same (m : list bool) : ma.mask_or m m = m.
Proof.
  unfold ma.mask_or. induction m as [|b m IH]; cbn; [trivial|].
  now rewrite IH, orb_diag.
Qed.

(** A channel computed element by element from the mask and the data of
    [c], equal to the data where the mask is not set. *)
Lemma valid_grid_zip (f : bool -> Q -> Q) (c c' : ma.MaskedArray Q) :
  List.length (ma.mask c) = List.length (ma.data c) ->
  ma.shape c' = ma.shape c -> ma.mask c' = ma.mask c ->
  ma.data c' = zip_with f (ma.mask c) (ma.data c) ->
  (forall v, f false v == v) ->
  same.valid_grid c c'.
Proof.
  intros Hlen Hs Hm Hd Hf. unfold same.valid_grid.
  rewrite Hd, zip_with_length. repeat split; trivial; [lia|].
  intros k v v' Hk Hv Hv'. rewrite zip_with_nth_error, Hk, Hv in Hv'.
  injection Hv' as <-. symmetry. apply Hf.
Qed.

End SameImages.

Section GreyRoundTrip.

Variable pow : Q -> Q -> Q.
Variable log : Q -> Q.

Let E : Float64 Q := exactQ pow log.

Open Scope Q_scope.

(** The luminance of three equal channels, element by element: the
    element itself where it is valid, up to the representation of the
    number, and [kr_], the first operand of the first product, where it is
    masked. *)
Definition grey (b : bool) (v : Q) : Q :=
  if b then 299 # 1000
  else (299 # 1000) * v + (1 - (299 # 1000) - (114 # 1000)) * v + (114 # 1000) * v.

Lemma luminance_of_grey (c : ma.MaskedArray Q) :
  let y := add (Arith := array_arith (H := E))
             (add (Arith := array_arith (H := E))
                (smul (Arith := array_arith (H := E)) (kr_ (H := E)) c)
                (smul (Arith := array_arith (H := E))
                   (fsub (Float64 := E)
                      (fsub (Float64 := E) (lit (Float64 := E) 1) (kr_ (H := E)))
                      (kb_ (H := E))) c))
             (smul (Arith := array_arith (H := E)) (kb_ (H := E)) c) in
  ma.shape y = ma.shape c /\ ma.mask y = ma.mask c /\
  ma.data y = zip_with grey (ma.mask c) (ma.data c).
Proof.
  cbn zeta. cbn [add smul array_arith ma.map2 ma.scalar_first ma.shape ma.mask ma.data].
  rewrite !mask_or_same. split; trivial. split; trivial.
  unfold ma.choose, kr_, kb_. cbn [fadd fsub fmul lit E exactQ].
  destruct c as [sh d m]. cbn [ma.mask ma.data].
  revert d. induction m as [|b m IH]; intros [|v d]; cbn [zip_with combine]; trivial.
  rewrite IH. now destruct b.
Qed.

Lemma grey_valid (v : Q) : grey false v == v.
Proof. unfold grey. ring. Qed.

Lemma luminance_of_grey_fill (f : Q) :
  fadd (Float64 := E)
    (fadd (Float64 := E) (fmul (Float64 := E) (kr_ (H := E)) f)
       (fmul (Float64 := E)
          (fsub (Float64 := E) (fsub (Float64 := E) (lit (Float64 := E) 1) (kr_ (H := E)))
                (kb_ (H := E))) f))
    (fmul (Float64 := E) (kb_ (H := E)) f) == f.
Proof. unfold kr_, kb_. cbn [fadd fsub fmul lit E exactQ]. ring. Qed.

(** Grey survives colour where it is valid.  An image in mode L that is
    not empty, whose channel has as many mask bits as values, converted to
    RGB, has three copies of its channel, and converted back to L it shows
    what it showed: the same shapes and masks, the valid values and the
    fill value equal as rationals.  Under the mask the channel has
    changed: a masked element now holds 0.299, the first operand of the
    first product of the luminance.  The same holds with alpha, from LA to
    RGBA and back. *)
Theorem grey_round_trip (self : Image Q) (via : string) (h w : nat) :
  (mode self = "L" /\ via = "RGB" /\ List.length (channels self) = 1%nat) \/
  (mode self = "LA" /\ via = "RGBA" /\ List.length (channels self) = 2%nat) ->
  is_empty self = Ok false ->
  gridded h w self ->
  (forall fv, fill_value self = Some fv -> fv <> []) ->
  exists rgb back,
    convert (H := E) self via = Ok rgb /\
    (forall c0, nth_error (channels self) 0 = Some c0 ->
                firstn 3 (channels rgb) = [c0; c0; c0]) /\
    convert (H := E) rgb (mode self) = Ok back /\
    same.valid_image self back /\
    (forall c0 y k,
        nth_error (channels self) 0 = Some c0 ->
        nth_error (channels back) 0 = Some y ->
        nth_error (ma.mask c0) k = Some true ->
        nth_error (ma.data y) k = Some (299 # 1000)).
Proof.
  intros Hmodes Hne (_ & _ & _ & Hgrids) Hfill.
  apply nonempty_shape in Hne as [_ Hsh].
  destruct self as [chans md wd ht fv pal sh sec]. fields.
  assert (Hfv : fv = None \/ exists f0 l, fv = Some (f0 :: l)).
  { destruct fv as [[|f0 l]|]; eauto. now destruct (Hfill [] eq_refl). }
  clear Hfill.
  assert (Hempty : forall (c0 : ma.MaskedArray Q) cs m f p s,
             is_empty (mkImage (c0 :: cs) m wd ht f p sh s) = Ok false).
  { intros. apply is_empty_nonempty; [discriminate | exact Hsh]. }
  assert (Hfirst : forall c0 cs, chans = c0 :: cs ->
             List.length (ma.mask c0) = List.length (ma.data c0)).
  { intros c0 cs ->. inversion Hgrids as [|? ? (_ & Hd & Hm) _]. congruence. }
  assert (Hvalid : forall c0 cs, chans = c0 :: cs -> forall y,
             ma.shape y = ma.shape c0 /\ ma.mask y = ma.mask c0 /\
             ma.data y = zip_with grey (ma.mask c0) (ma.data c0) ->
             same.valid_grid c0 y /\
             forall k, nth_error (ma.mask c0) k = Some true ->
                       nth_error (ma.data y) k = Some (299 # 1000)).
  { intros c0 cs Hc y (Hs & Hm & Hd). pose proof (Hfirst c0 cs Hc) as Hl. split.
    - apply (valid_grid_zip grey); trivial. apply grey_valid.
    - intros k Hk. rewrite Hd, zip_with_nth_error, Hk.
      destruct (nth_error (ma.data c0) k) eqn:Hv; [reflexivity|].
      apply nth_error_None in Hv.
      assert (k < List.length (ma.mask c0))%nat by (apply nth_error_Some; congruence).
      lia. }
  clear Hgrids Hfirst.
  unfold convert, recursion_limit.
  destruct Hmodes as [(-> & -> & Hlen) | (-> & -> & Hlen)];
    (destruct chans as [|c0 [|c1 [|c2 rest]]]; try discriminate Hlen);
    destruct (Hvalid c0 _ eq_refl _ (luminance_of_grey c0)) as (Hgrid & Hmasked);
    destruct Hfv as [-> | (f0 & l & ->)];
    do 2 eexists;
    (split; [rewrite (convert_fuel_dispatched _ _ _ m_l2rgb);
               [reflexivity | apply Hempty | reflexivity]|]);
    (split; [intros c Hc; apply Some_eq in Hc; subst c; reflexivity|]);
    (split; [rewrite (convert_fuel_dispatched _ _ _ m_rgb2l);
               [reflexivity | apply Hempty | reflexivity]|]);
    (split;
     [ unfold same.valid_image; fields;
       cbn [app skipn firstn setitem option_map same.fill fst snd];
       repeat split;
       repeat (constructor;
               try first [ exact Hgrid | apply valid_grid_refl
                         | symmetry; apply luminance_of_grey_fill
                         | apply Forall2_Qeq_refl ])
     | fields; cbn [app skipn firstn setitem nth_error];
       intros c y k Hc Hy; apply Some_eq in Hc; apply Some_eq in Hy;
       subst c y; apply Hmasked ]).
Qed.

End GreyRoundTrip.

(** A run of the theorem above on a pixel in mode LA with a fill value. *)
Lemma grey_round_trip_witness :
  exists rgb back,
    convert example.la_filled "RGBA" = Ok rgb /\
    (forall c0, nth_error (channels example.la_filled) 0 = Some c0 ->
                firstn 3 (channels rgb) = [c0; c0; c0]) /\
    convert rgb (mode example.la_filled) = Ok back /\
    same.valid_image example.la_filled back /\
    (forall c0 y k,
        nth_error (channels example.la_filled) 0 = Some c0 ->
        nth_error (channels back) 0 = Some y ->
        nth_error (ma.mask c0) k = Some true ->
        nth_error (ma.data y) k = Some (299 # 1000)).
Proof.
  apply (grey_round_trip exact.pow_integral (fun _ => 0%Q) example.la_filled "RGBA" 1 1).
  - right. repeat split.
  - reflexivity.
  - repeat split. repeat constructor.
  - intros fv Hfv. apply Some_eq in Hfv. now subst fv.
Defined.

Section InvertTwice.

Variable pow : Q -> Q -> Q.
Variable log : Q -> Q.

Let E : Float64 Q := exactQ pow log.

Open Scope Q_scope.

(** [1 - chn] and [1 - (1 - chn)], element by element: under the mask the
    first operand, [1]. *)
Lemma inverted_data (c : ma.MaskedArray Q) :
  ma.data (inverted (H := E) c) =
  zip_with (fun (b : bool) v => if b then 1 else 1 - v) (ma.mask c) (ma.data c).
Proof. reflexivity. Qed.

Lemma inverted_twice_data (c : ma.MaskedArray Q) :
  ma.data (inverted (H := E) (inverted (H := E) c)) =
  zip_with (fun (b : bool) v => if b then 1 else 1 - (1 - v)) (ma.mask c) (ma.data c).
Proof.
  unfold inverted, ma.scalar_first. cbn [ma.shape ma.mask ma.data fsub lit E exactQ].
  destruct c as [sh d m]. cbn [ma.mask ma.data].
  revert d. induction m as [|b m IH]; intros [|v d]; cbn [zip_with]; trivial.
  rewrite IH. now destruct b.
Qed.

Lemma inverted_twice (c : ma.MaskedArray Q) :
  List.length (ma.mask c) = List.length (ma.data c) ->
  same.valid_grid c (inverted (H := E) (inverted (H := E) c)).
Proof.
  intros Hlen.
  apply (valid_grid_zip (fun (b : bool) v => if b then 1 else 1 - (1 - v)));
    trivial.
  - apply inverted_twice_data.
  - intros v. cbn. ring.
Qed.

(** [invert] undoes itself where the image is valid.  On an image whose
    channels have as many mask bits as values, two calls with the same
    argument, a flag or a list of as many flags as there are channels,
    leave an image that shows what it showed: the same masks, shapes, mode
    and fill value, and the valid values equal as rationals.  Under the
    mask a channel has changed: after [1 - chn] a masked element holds 1,
    the first operand.  A call with a list of another length raises
    [ValueError]. *)
Theorem invert_twice_keeps_the_valid_values (self : Image Q) (h w : nat) :
  gridded h w self ->
  (forall b, exists once twice,
      invert (H := E) self (IBool b) = Ok once /\
      invert (H := E) once (IBool b) = Ok twice /\
      same.valid_image self twice) /\
  (forall l, List.length l = List.length (channels self) ->
             exists once twice,
               invert (H := E) self (ISeq l) = Ok once /\
               invert (H := E) once (ISeq l) = Ok twice /\
               same.valid_image self twice) /\
  (forall l, List.length l <> List.length (channels self) ->
             invert (H := E) self (ISeq l) = Raise ValueError) /\
  (exists once,
      invert (H := E) self (IBool true) = Ok once /\
      forall n c y k,
        nth_error (channels self) n = Some c ->
        nth_error (channels once) n = Some y ->
        nth_error (ma.mask c) k = Some true ->
        nth_error (ma.data y) k = Some 1).
Proof.
  intros (_ & _ & _ & Hgrids).
  assert (Hlens : Forall (fun c : ma.MaskedArray Q =>
                            List.length (ma.mask c) = List.length (ma.data c))
                         (channels self)).
  { eapply Forall_impl; [|exact Hgrids]. intros c (_ & Hd & Hm). congruence. }
  clear Hgrids.
  split; [|split; [|split]].
  - intros [|]; cbn [invert]; do 2 eexists;
      (split; [reflexivity|]); (split; [reflexivity|]);
      unfold same.valid_image; fields; repeat split;
      try apply same_fill_refl; try apply valid_grids_refl.
    rewrite map_map.
    induction Hlens as [|c cs Hc _ IH]; cbn [map]; constructor; trivial.
    now apply inverted_twice.
  - intros l Hlen. cbn [invert].
    rewrite Hlen, Nat.eqb_refl. cbn [negb].
    do 2 eexists. split; [reflexivity|]. fields.
    rewrite zip_with_length, Hlen, Nat.min_id, Nat.eqb_refl. cbn [negb].
    split; [reflexivity|].
    unfold same.valid_image. fields. repeat split; [|apply same_fill_refl].
    symmetry in Hlen. revert l Hlen.
    induction Hlens as [|c cs Hc _ IH]; intros [|b l] Hlen;
      try discriminate Hlen; cbn [zip_with]; constructor.
    + destruct b; [now apply inverted_twice | apply valid_grid_refl].
    + apply IH. now injection Hlen.
  - intros l Hl. cbn [invert].
    destruct (Nat.eqb_spec (List.length (channels self)) (List.length l)); [|reflexivity].
    congruence.
  - eexists. split; [reflexivity|]. fields.
    intros n c y k Hc Hy Hk. rewrite nth_error_map, Hc in Hy. cbn [option_map] in Hy.
    apply Some_eq in Hy. subst y.
    rewrite inverted_data, zip_with_nth_error, Hk.
    destruct (nth_error (ma.data c) k) eqn:Hv; [reflexivity|].
    apply nth_error_None in Hv.
    assert (k < List.length (ma.mask c))%nat by (apply nth_error_Some; congruence).
    rewrite Forall_forall in Hlens. specialize (Hlens c (nth_error_In _ _ Hc)). lia.
Qed.

End InvertTwice.

(** ** Stretching *)

Section ExactBounds.

Open Scope Q_scope.





End ExactBounds.

Section Compressed.

Context {A : Type}.




End Compressed.

Section CrudeStretch.

Variable pow : Q -> Q -> Q.
Variable log : Q -> Q.

Let E : Float64 Q := exactQ pow log.

Open Scope Q_scope.



End CrudeStretch.


Section NothingToStretch.

Context {F : Type} `{Float64 F}.






End NothingToStretch.


(** ** Gamma correction with a list *)

Section GammaList.

Context {F : Type} `{Float64 F}.

Variable ne : option (F -> F -> F).

Lemma gamma_round (gs : list F) (self : Image F)
      (done todo : list (ma.MaskedArray F)) (c : ma.MaskedArray F) :
  channels self = done ++ c :: todo ->
  (exists g, nth_error gs (List.length done) = Some g /\ gamma_accepted g) ->
  gamma_channel ne (map GNum gs) self (List.length done) =
  Ok (set_channels self
        (done ++ match nth_error gs (List.length done) with
                 | Some g => gamma_of ne c g
                 | None => c
                 end :: todo)).
Proof.
  intros Hc (g & Hg & Hneg & Hzero). unfold gamma_channel, getitem.
  rewrite nth_error_map, Hg. cbn [option_map bind]. rewrite Hneg.
  unfold gamma_of. destruct (feqb g (lit 1)) eqn:H1.
  - now rewrite <- Hc, set_channels_same.
  - unfold update_channel, getitem.
    rewrite Hc, nth_error_app2, Nat.sub_diag by lia. cbn [nth_error bind].
    unfold gamma_corrected. destruct ne as [evaluate|]; cbn [bind].
    + now rewrite setitem_app.
    + unfold py_div. rewrite Hzero. cbn [bind].
      now rewrite setitem_app.
Qed.

(** [gamma] with a list or a tuple of exponents, one for each channel,
    none negative and none zero, on an image whose channels are masked
    arrays: channel [i] is corrected with exponent [i], that is, left
    alone for 1 and its data raised to [1 / g] otherwise, under its mask;
    nothing else changes.  With numexpr the power is what [ne.evaluate]
    returns. *)
Theorem gamma_with_a_list_is_elementwise (self : Image F) (gs : list F) :
  List.length gs = List.length (channels self) ->
  Forall gamma_accepted gs ->
  gamma ne self (GSeq gs) =
  Ok (set_channels self (zip_with (gamma_of ne) (channels self) gs)).
Proof.
  intros Hlen Hgs. unfold gamma. cbv zeta. rewrite Hlen, Nat.eqb_refl. cbn [negb].
  pose proof (for_each_channel (gamma_channel ne (map GNum gs))
                (fun i c => match nth_error gs i with
                            | Some g => gamma_of ne c g
                            | None => c
                            end)
                (fun i => exists g, nth_error gs i = Some g /\ gamma_accepted g)
                (fun s d c t Hc Hi => gamma_round gs s d t c Hc Hi)
                (channels self) [] [] self) as Hloop.
  cbn [app List.length] in Hloop. rewrite Hloop; clear Hloop.
  - rewrite app_nil_r. do 2 f_equal.
    apply nth_error_ext. intros k. rewrite !zip_with_nth_error.
    destruct (nth_error (channels self) k) as [c|] eqn:Hc.
    + assert (Hk : (k < List.length (channels self))%nat)
        by (apply nth_error_Some; congruence).
      rewrite nth_error_seq. destruct (Nat.ltb_spec k (List.length (channels self))); [|lia].
      cbn. destruct (nth_error gs k) eqn:Hg; trivial.
      apply nth_error_None in Hg. lia.
    + now destruct (nth_error (seq 0 (List.length (channels self))) k).
  - now rewrite app_nil_r.
  - intros i Hi.
    destruct (nth_error gs i) as [g|] eqn:Hg; [|apply nth_error_None in Hg; lia].
    exists g. split; trivial.
    apply nth_error_In in Hg. now apply (proj1 (Forall_forall _ _) Hgs).
Qed.

(** What [gamma] refuses: a list, a tuple or a set of another length than
    the number of channels, with [ValueError]; a negative number, with
    [ValueError], and a set of the right length, with [TypeError], when
    the image has a channel.  Without a channel every number is
    accepted, and nothing is done. *)
Theorem gamma_refuses (self : Image F) :
  (forall l, List.length l <> List.length (channels self) ->
             gamma ne self (GSeq l) = Raise ValueError /\
             gamma ne self (GSet l) = Raise ValueError) /\
  (channels self <> [] ->
   (forall g, fltb g (lit 0) = true -> gamma ne self (GNum g) = Raise ValueError) /\
   (forall l, List.length l = List.length (channels self) ->
              gamma ne self (GSet l) = Raise TypeError)) /\
  (channels self = [] -> forall g, gamma ne self (GNum g) = Ok self).
Proof.
  split; [|split].
  - intros l Hl. unfold gamma.
    destruct (Nat.eqb_spec (List.length l) (List.length (channels self))); [contradiction|].
    now split.
  - intros Hc. split.
    + intros g Hg. unfold gamma. cbn [negb].
      destruct (channels self) as [|c cs]; [contradiction|].
      cbn [List.length seq for_each repeat]. unfold gamma_channel at 1.
      cbn [getitem nth_error bind]. now rewrite Hg.
    + intros l Hl. unfold gamma. rewrite Hl, Nat.eqb_refl. cbn [negb].
      destruct (channels self) as [|c cs]; [contradiction|].
      cbn [List.length seq for_each repeat]. unfold gamma_channel at 1.
      reflexivity.
  - intros Hc g. unfold gamma. now rewrite Hc.
Qed.

End GammaList.

(** A run of the theorem on lists: a pixel in mode LA, luminance
    corrected with 2 and alpha left alone. *)
Lemma gamma_with_a_list_witness :
  gamma None example.la_quarter (GSeq [2; 1]%Q) =
  Ok (set_channels example.la_quarter
        (zip_with (gamma_of None) (channels example.la_quarter) [2; 1]%Q)).
Proof.
  apply (gamma_with_a_list_is_elementwise None example.la_quarter [2; 1]%Q).
  - reflexivity.
  - repeat constructor; discriminate.
Defined.

(** ** What the methods refuse *)

Section Refusals.

Context {F : Type} `{Float64 F}.

Lemma for_each_first_raises {A S} (x : A) (xs : list A) (body : S -> A -> result S)
      (s : S) (e : exn) :
  body s x = Raise e -> for_each (x :: xs) body s = Raise e.
Proof. intros Hb. cbn [for_each]. now rewrite Hb. Qed.

(** What [stretch] refuses, whatever the image: a list or tuple that has
    not two elements and a name that is not one of its methods, with
    [ValueError]; an argument that is neither, with [TypeError].  The name
    "no" returns at once, whatever the keywords; and when there is a
    channel to stretch, a keyword that the method does not have raises
    [TypeError]. *)
Theorem stretch_refuses (self : Image F) (kw : kwargs F) :
  (forall l, List.length l <> 2%nat -> stretch self (SSeq l) kw = Raise ValueError) /\
  (forall name,
      ~ In name ["linear"; "histogram"; "crude"; "crude-stretch"; "log"; "logarithmic";
                 "no"] ->
      stretch self (SStr name) kw = Raise ValueError) /\
  stretch self SOther kw = Raise TypeError /\
  stretch self (SStr "no") kw = Ok self /\
  ((0 < List.length (channels self) - (if endswith_A (mode self) then 1 else 0))%nat ->
   forall name parameters,
     In (name, parameters)
        [("linear", ["cutoffs"]); ("histogram", []);
         ("crude", ["min_stretch"; "max_stretch"]);
         ("crude-stretch", ["min_stretch"; "max_stretch"]);
         ("log", ["factor"]); ("logarithmic", ["factor"])] ->
     accepts parameters kw = false ->
     stretch self (SStr name) kw = Raise TypeError).
Proof.
  split; [|split; [|split; [|split]]].
  - intros l Hl. unfold stretch.
    destruct (Nat.eqb_spec (List.length l) 2); [contradiction | reflexivity].
  - intros name Hname. unfold stretch, str_in, mode_in. cbn [existsb].
    assert (Hneq : forall s, In s ["linear"; "histogram"; "crude"; "crude-stretch";
                                   "log"; "logarithmic"; "no"] ->
                             (name =? s) = false).
    { intros s Hs. apply String.eqb_neq. intros ->. contradiction. }
    rewrite !Hneq by (cbn; tauto). reflexivity.
  - reflexivity.
  - reflexivity.
  - intros Hlen name parameters Hin Hkw. unfold stretch.
    destruct (List.length (channels self) - (if endswith_A (mode self) then 1 else 0))%nat
      as [|n]; [lia|].
    cbn [In] in Hin.
    destruct Hin as [Hin|[Hin|[Hin|[Hin|[Hin|[Hin|[]]]]]]];
      injection Hin as <- <-;
      cbn [String.eqb Ascii.eqb Bool.eqb str_in mode_in existsb orb];
      apply for_each_first_raises; now rewrite Hkw.
Qed.

Lemma merge_channels_short (selfmask : list bool) (mine theirs : list (ma.MaskedArray F)) :
  (List.length theirs < List.length mine)%nat ->
  merge_channels selfmask mine theirs = Raise IndexError.
Proof.
  revert theirs. induction mine as [|c mine IH]; intros [|o theirs] Hl;
    cbn in Hl |- *; try lia; trivial.
  rewrite IH by lia. reflexivity.
Qed.

(** What [merge] refuses: an empty image, and an image of another mode,
    with [ValueError]; an image of the same mode with fewer channels,
    all channels of both images being arrays of one size, with
    [IndexError]; and when [is_empty] raises [RuntimeError], so does
    [merge]. *)
Theorem merge_refuses (self img : Image F) (h w : nat) :
  (is_empty self = Ok true -> merge self img = Raise ValueError) /\
  (is_empty self = Ok false -> mode self <> mode img ->
   merge self img = Raise ValueError) /\
  (is_empty self = Ok false -> mode self = mode img ->
   Forall (grid h w) (channels self) -> Forall (grid h w) (channels img) ->
   (List.length (channels img) < List.length (channels self))%nat ->
   merge self img = Raise IndexError) /\
  (is_empty self = Raise RuntimeError -> merge self img = Raise RuntimeError).
Proof.
  unfold merge. repeat split.
  - now intros ->.
  - intros -> Hm. cbn [bind]. apply String.eqb_neq in Hm. now rewrite Hm.
  - intros Hne Hm _ _ Hl. rewrite Hne. cbn [bind]. rewrite Hm, String.eqb_refl.
    cbn [negb].
    apply nonempty_has_channel in Hne as (c0 & rest & Hc).
    rewrite Hc in Hl |- *. cbn [getitem nth_error bind].
    now rewrite merge_channels_short.
  - now intros ->.
Qed.

End Refusals.

(** ** The shape of a constructed image *)

Section InitShapes.

Context {F : Type} `{Float64 F}.

Lemma add_channel_built (chn : array_like F) (lo hi : F) (c : ma.MaskedArray F) :
  _add_channel chn lo hi = Ok c -> built_from chn c.
Proof.
  unfold _add_channel, built_from. destruct chn as [m|sh values|]; intros Hr;
    try discriminate; returned Hr; cbn [array_shape ma.shape ma.data ma.mask well_formed];
    (split; [reflexivity|]); unfold ma.size; cbn [ma.shape].
  - rewrite length_map. trivial.
  - rewrite length_map, repeat_length. intros ->. now split.
Qed.

Lemma add_channel_ranged_built (chn : array_like F) (lo hi : pyvalue F)
      (c : ma.MaskedArray F) :
  add_channel_ranged chn lo hi = Ok c -> built_from chn c.
Proof.
  unfold add_channel_ranged. destruct lo as [lo|items], hi as [hi|items'];
    try discriminate.
  - apply add_channel_built.
  - intros Hr. bind_inv Hr as sh Hsh. now destruct (_ || _).
  - intros Hr. bind_inv Hr as sh Hsh. now destruct (_ || _).
Qed.

(** The state of the loop of [__init__]: every channel so far has the
    shape that [self.shape] holds. *)
Lemma init_channel_shapes (cr : option (pyvalue F)) (i : nat) (chn : array_like F)
      (st st' : list (ma.MaskedArray F) * option (nat * nat)) :
  (forall c, In c (fst st) -> Some (ma.shape c) = snd st) ->
  init_channel cr st (i, chn) = Ok st' ->
  exists new, fst st' = fst st ++ [new] /\ built_from chn new /\
              snd st' = Some (ma.shape new) /\
              (forall c, In c (fst st') -> Some (ma.shape c) = snd st').
Proof.
  intros Hst. unfold init_channel. intros Hr.
  bind_inv Hr as new Hnew. bind_inv Hr as first Hfirst.
  destruct (shape_eqb (ma.shape new) (ma.shape first)) eqn:Heq; [|discriminate].
  apply shape_eqb_eq in Heq. returned Hr. cbn [fst snd].
  exists new. split; [reflexivity|]. split.
  - destruct cr as [cr|].
    + bind_inv Hnew as item Hitem. bind_inv Hnew as lo Hlo. bind_inv Hnew as hi Hhi.
      now apply add_channel_ranged_built in Hnew.
    + now apply add_channel_built in Hnew.
  - split; [reflexivity|]. intros c Hc. apply in_app_or in Hc as [Hc|[<-|[]]]; trivial.
    rewrite Heq. apply getitem_Ok in Hfirst.
    destruct (fst st) as [|c0 cs] eqn:Hcs; [contradiction|].
    cbn in Hfirst. returned Hfirst.
    rewrite (Hst c Hc). symmetry. apply Hst. now left.
Qed.

Lemma init_loop_shapes (cr : option (pyvalue F)) (xs : list (nat * array_like F))
      (st st' : list (ma.MaskedArray F) * option (nat * nat)) :
  (forall c, In c (fst st) -> Some (ma.shape c) = snd st) ->
  for_each xs (init_channel cr) st = Ok st' ->
  exists news, fst st' = fst st ++ news /\
               Forall2 built_from (map snd xs) news /\
               (forall c, In c (fst st') -> Some (ma.shape c) = snd st') /\
               (xs <> [] -> snd st' <> None).
Proof.
  revert st. induction xs as [|[i chn] xs IH]; intros st Hst Hr; cbn [for_each] in Hr.
  - returned Hr. exists []. rewrite app_nil_r.
    split; [reflexivity|]. split; [constructor|]. split; [exact Hst|]. congruence.
  - bind_inv Hr as st1 H1.
    apply (init_channel_shapes cr i chn st st1 Hst) in H1
      as (new & Hf1 & Hb & Hs1 & Hall1).
    destruct (IH st1 Hall1 Hr) as (news & Hf & Hbs & Hall & Hsome).
    exists (new :: news). split; [|split; [|split]]; trivial.
    + rewrite Hf, Hf1, <- app_assoc. reflexivity.
    + cbn [map snd]. now constructor.
    + intros _. destruct xs as [|x xs]; [|apply Hsome; discriminate].
      cbn [for_each] in Hr. returned Hr. rewrite Hs1. discriminate.
Qed.

Lemma built_grids (h w : nat) (l : list (array_like F)) (news : list (ma.MaskedArray F)) :
  Forall2 built_from l news -> Forall well_formed l ->
  Forall (fun c => ma.shape c = (h, w)) news -> Forall (grid h w) news.
Proof.
  induction 1 as [|a c l news [Hsa Hlen] _ IH]; intros Hwf Hshapes; constructor.
  - apply Forall_cons_iff in Hwf as [Hwa _].
    apply Forall_cons_iff in Hshapes as [Hsc _].
    destruct (Hlen Hwa) as [Hd Hm]. unfold ma.size in Hd, Hm.
    rewrite Hsc in Hd, Hm. now split.
  - apply Forall_cons_iff in Hwf as [_ Hwf].
    apply Forall_cons_iff in Hshapes as [_ Hshapes]. now apply IH.
Qed.

(** Every image that the constructor returns has a height, a width and a
    shape that agree, and channels of that shape, each of the shape of the
    array it was built from.  When the arrays have as many values and
    mask bits as their shapes say, the image is a grid in the sense that
    [resize] needs. *)
Theorem init_builds_channels_of_one_shape
        (channels_ : channels_arg F) (mode_ : string) (cr : option (pyvalue F))
        (fv : fill_arg F) (pal : option (list (list (option F)))) (img : Image F) :
  __init__ channels_ mode_ cr fv pal = Ok img ->
  shapes_agree img /\
  (forall l, channels_ = CSeq l -> Forall2 built_from l (channels img)) /\
  (well_formed_channels channels_ -> gridded (height img) (width img) img).
Proof.
  unfold __init__. intros Hr.
  bind_inv Hr as u1 H1. bind_inv Hr as u2 H2. bind_inv Hr as u3 H3.
  bind_inv Hr as len_channels H4. bind_inv Hr as u5 H5.
  destruct channels_ as [|l|n|chn]; try discriminate.
  - returned Hr. split; [|split].
    + repeat split. constructor.
    + discriminate.
    + intros _. repeat split. constructor.
  - destruct (forallb is_array l); [|discriminate].
    bind_inv Hr as st Hst. destruct (snd st) as [sh|] eqn:Hsh; [|discriminate].
    returned Hr.
    apply init_loop_shapes in Hst as (news & Hf & Hb & Hall & _); [|intros c []].
    cbn [fst app] in Hf. rewrite Hsh in Hall.
    assert (Hmap : map snd (combine (seq 0 (List.length l)) l) = l).
    { clear. generalize 0%nat. induction l as [|a l IH]; intros k; cbn; trivial.
      now rewrite IH. }
    rewrite Hmap in Hb. rewrite Hf in *.
    assert (Hshapes : Forall (fun c => ma.shape c = sh) news).
    { apply Forall_forall. intros c Hc. specialize (Hall c Hc). congruence. }
    split; [|split].
    + now repeat split.
    + intros l' Hl. now injection Hl as <-.
    + intros Hwf. cbn [well_formed_channels] in Hwf.
      unfold gridded. fields. destruct sh as [h w]. cbn [fst snd].
      repeat split. now apply (built_grids h w l).
  - bind_inv Hr as sh Hsh. bind_inv Hr as new Hnew. returned Hr.
    assert (Hb : built_from chn new).
    { destruct cr as [cr|].
      - bind_inv Hnew as lo Hlo. bind_inv Hnew as hi Hhi.
        now apply add_channel_ranged_built in Hnew.
      - now apply add_channel_built in Hnew. }
    destruct Hb as [Hs Hlen]. rewrite Hsh in Hs. apply Ok_inj in Hs. subst sh.
    split; [|split].
    + repeat split. now constructor.
    + discriminate.
    + intros Hwf. cbn [well_formed_channels] in Hwf. destruct (Hlen Hwf) as [Hd Hm].
      unfold gridded. fields. repeat split; [apply surjective_pairing|].
      constructor; [|constructor]. unfold ma.size in Hd, Hm.
      split; [apply surjective_pairing | now split].
Qed.

End InitShapes.

(** A run of the theorem above: two one-pixel arrays given as lists. *)
Lemma init_builds_channels_witness :
  exists img : Image Q,
    __init__ (CSeq [Plain (1, 1)%nat [1 # 2]%Q; Plain (1, 1)%nat [1 # 4]%Q]) "LA" None
             FNone None = Ok img /\
    shapes_agree img /\
    (forall l, CSeq [Plain (1, 1)%nat [1 # 2]%Q; Plain (1, 1)%nat [1 # 4]%Q] = CSeq l ->
               Forall2 built_from l (channels img)) /\
    (well_formed_channels
       (CSeq [Plain (1, 1)%nat [1 # 2]%Q; Plain (1, 1)%nat [1 # 4]%Q]) ->
     gridded (height img) (width img) img).
Proof.
  eexists. split; [vm_compute; reflexivity|].
  apply (init_builds_channels_of_one_shape
           (CSeq [Plain (1, 1)%nat [1 # 2]%Q; Plain (1, 1)%nat [1 # 4]%Q]) "LA" None
           FNone None).
  vm_compute. reflexivity.
Defined.

Section InitRefusals.

Context {F : Type} `{Float64 F}.

Lemma add_channel_array (chn : array_like F) (lo hi : F) :
  is_array chn = true ->
  exists c, _add_channel chn lo hi = Ok c /\ array_shape chn = Ok (ma.shape c).
Proof.
  destruct chn as [m|sh values|]; [| |discriminate]; intros _; eexists;
    (split; [reflexivity|]); reflexivity.
Qed.

(** The loop of [__init__] stops with [ValueError] at the first array of
    another shape than the first channel. *)
Lemma init_loop_mismatch (xs : list (nat * array_like F))
      (c0 : ma.MaskedArray F) (cs : list (ma.MaskedArray F)) (sh : option (nat * nat)) :
  Forall (fun x => is_array (snd x) = true) xs ->
  Exists (fun x => array_shape (snd x) <> Ok (ma.shape c0)) xs ->
  for_each xs (init_channel None) (c0 :: cs, sh) = Raise ValueError.
Proof.
  revert cs sh. induction xs as [|[i chn] xs IH]; intros cs sh Harr Hex.
  - inversion Hex.
  - apply Forall_cons_iff in Harr as [Ha Harr]. cbn [snd] in Ha.
    destruct (add_channel_array chn (lit 0) (lit 1) Ha) as (c & Hc & Hs).
    cbn [for_each]. unfold init_channel at 1. rewrite Hc.
    cbn [bind fst app getitem nth_error].
    destruct (shape_eqb (ma.shape c) (ma.shape c0)) eqn:Heq; [|reflexivity].
    cbn [bind]. apply shape_eqb_eq in Heq.
    apply Exists_cons in Hex as [Hex|Hex].
    + cbn [snd] in Hex. congruence.
    + now apply IH.
Qed.

(** What the constructor refuses, in the order of its tests: an object
    that is no sequence and no array, with [TypeError]; a list or tuple
    of another length than the mode has capital letters, with
    [ValueError], also when the mode is unknown; an unknown mode, with
    [ValueError].  Without a colour range and in a known mode: a list with
    an element that is no array, and a list of arrays of which one has
    another shape than the first, with [ValueError]; a set, with
    [AttributeError]. *)
Theorem init_refuses (mode_ : string) (cr : option (pyvalue F)) (fv : fill_arg F)
        (pal : option (list (list (option F)))) :
  __init__ (CArray NotArray) mode_ cr fv pal = Raise TypeError /\
  (forall l, List.length l <> count_upper mode_ ->
             __init__ (CSeq l) mode_ cr fv pal = Raise ValueError) /\
  (~ In mode_ modes ->
   forall channels_, channels_ <> CArray NotArray ->
                     __init__ channels_ mode_ cr fv pal = Raise ValueError) /\
  (In mode_ modes ->
   (forall l, List.length l = count_upper mode_ ->
              forallb is_array l = false ->
              __init__ (CSeq l) mode_ None fv pal = Raise ValueError) /\
   (forall a0 rest,
       List.length (a0 :: rest) = count_upper mode_ ->
       forallb is_array (a0 :: rest) = true ->
       Exists (fun a => array_shape a <> array_shape a0) rest ->
       __init__ (CSeq (a0 :: rest)) mode_ None fv pal = Raise ValueError) /\
   (forall n, __init__ (CSet n) mode_ None fv pal = Raise AttributeError)).
Proof.
  split; [reflexivity|]. split; [|split].
  - intros l Hl. unfold __init__. cbn [bind].
    destruct (Nat.eqb_spec (List.length l) (count_upper mode_)); [contradiction|].
    reflexivity.
  - intros Hm channels_ Hc. unfold __init__.
    assert (Hin : mode_in mode_ modes = false).
    { apply not_true_is_false. now rewrite mode_in_In. }
    destruct channels_ as [|l|n|[m|sh values|]]; cbn [bind]; rewrite ?Hin;
      try reflexivity; try contradiction.
    now destruct (negb (List.length l =? count_upper mode_)%nat).
  - intros Hm. apply mode_in_In in Hm. split; [|split].
    + intros l Hl Harr. unfold __init__. cbn [bind check_color_range].
      now rewrite (proj2 (Nat.eqb_eq _ _) Hl), Hm, Harr.
    + intros a0 rest Hl Harr Hex. unfold __init__. cbn [bind check_color_range].
      rewrite (proj2 (Nat.eqb_eq _ _) Hl), Hm, Harr. cbn [negb bind].
      cbn [forallb] in Harr. apply andb_true_iff in Harr as [Ha0 Harr].
      destruct (add_channel_array a0 (lit 0) (lit 1) Ha0) as (c0 & Hc0 & Hs0).
      cbn [List.length seq combine for_each]. unfold init_channel at 1.
      rewrite Hc0. cbn [bind fst app getitem nth_error].
      rewrite (proj2 (shape_eqb_eq _ _) eq_refl). cbn [bind].
      rewrite init_loop_mismatch; trivial.
      * apply Forall_forall. intros [i a] Hin. apply in_combine_r in Hin.
        cbn [snd]. now apply (proj1 (forallb_forall _ _) Harr).
      * rewrite Hs0 in Hex. clear -Hex. generalize 1%nat.
        induction Hex as [a rest Ha|a rest _ IH]; intros k; cbn [seq List.length combine].
        -- now left.
        -- right. apply IH.
    + intros n. unfold __init__. cbn [bind check_color_range]. now rewrite Hm.
Qed.

End InitRefusals.

(** ** The colour range *)

Section ColourRange.

Variable pow : Q -> Q -> Q.
Variable log : Q -> Q.

Let E : Float64 Q := exactQ pow log.

Open Scope Q_scope.

Lemma normalised_value (lo hi v : Q) :
  normalised (lo, hi) v ((v - lo) * 1 / (hi - lo)).
Proof.
  unfold normalised. cbn [fst snd]. split.
  - unfold Qdiv. ring.
  - intros Hlt Hv. split.
    + apply Qle_shift_div_l; lra.
    + apply Qle_shift_div_r; lra.
Qed.

Lemma add_channel_normalised (a : array_like Q) (lo hi : Q) :
  is_array a = true ->
  exists c, _add_channel (H := E) a lo hi = Ok c /\
            array_shape a = Ok (ma.shape c) /\
            ma.mask c = mask_of a /\
            Forall2 (normalised (lo, hi)) (values_of a) (ma.data c).
Proof.
  destruct a as [m|sh values|]; [| |discriminate]; intros _; eexists;
    (split; [reflexivity|]); cbn [array_shape ma.shape ma.mask ma.data mask_of values_of];
    repeat split; apply Forall2_map_right; intros v; apply normalised_value.
Qed.

Lemma pairs_checked (ranges : list (Q * Q)) (mode_ : string) :
  List.length ranges = count_upper mode_ ->
  check_color_range (Some (pairs ranges)) (Some (List.length ranges)) mode_ = Ok tt.
Proof.
  intros Hlen. unfold check_color_range, pairs.
  assert (Hlp : _is_list_of_pairs (Seq (map (fun r : Q * Q => Seq [Num (fst r); Num (snd r)])
                                           ranges)) = Ok true).
  { cbn [_is_list_of_pairs]. f_equal. apply forallb_forall. intros x Hx.
    apply in_map_iff in Hx as (r & <- & _). reflexivity. }
  assert (Hpair : _is_pair (Seq (map (fun r : Q * Q => Seq [Num (fst r); Num (snd r)])
                                     ranges)) = false).
  { destruct ranges as [|r0 [|r1 [|r2 rs]]]; reflexivity. }
  rewrite Hpair, Hlp. cbn [bind negb len]. rewrite length_map, Nat.eqb_refl.
  cbn [negb andb]. rewrite Hlen, Nat.eqb_refl. cbn [negb]. now rewrite andb_false_r.
Qed.

(** The loop of [__init__] over arrays of one shape, each with its pair. *)
Lemma init_loop_ranged (sh : nat * nat) (ranges : list (Q * Q))
      (todo : list (array_like Q)) (done : list (ma.MaskedArray Q))
      (todo_ranges : list (Q * Q)) (shape_ : option (nat * nat)) :
  Forall (fun c => ma.shape c = sh) done ->
  Forall (fun a => is_array a = true /\ array_shape a = Ok sh) todo ->
  List.length todo_ranges = List.length todo ->
  skipn (List.length done) ranges = todo_ranges ->
  exists news,
    for_each (combine (seq (List.length done) (List.length todo)) todo)
             (init_channel (H := E) (Some (pairs ranges))) (done, shape_) =
    Ok (done ++ news, match todo with [] => shape_ | _ => Some sh end) /\
    Forall2 (fun ar c => ma.shape c = sh /\ ma.mask c = mask_of (fst ar) /\
                         Forall2 (normalised (snd ar)) (values_of (fst ar)) (ma.data c))
            (combine todo todo_ranges) news.
Proof.
  revert done todo_ranges shape_.
  induction todo as [|a todo IH]; intros done todo_ranges shape_ Hdone Htodo Hlen Hskip.
  - exists []. rewrite app_nil_r. split; [reflexivity | constructor].
  - destruct todo_ranges as [|[lo hi] todo_ranges]; [discriminate|].
    apply Forall_cons_iff in Htodo as [[Ha Hsa] Htodo].
    destruct (add_channel_normalised a lo hi Ha) as (c & Hc & Hs & Hm & Hv).
    assert (Hsc : ma.shape c = sh) by congruence.
    assert (Hnth : nth_error ranges (List.length done) = Some (lo, hi)).
    { rewrite <- (Nat.add_0_r (List.length done)), <- nth_error_skipn, Hskip.
      reflexivity. }
    destruct (IH (done ++ [c]) todo_ranges (Some sh)) as (news & Hloop & Hnews).
    + apply Forall_app. split; trivial. now constructor.
    + exact Htodo.
    + now injection Hlen.
    + rewrite length_app. cbn [List.length].
      rewrite Nat.add_comm, <- skipn_skipn, Hskip. reflexivity.
    + exists (c :: news). split.
      * cbn [List.length seq combine for_each]. unfold init_channel at 1.
        unfold pairs at 1. cbn [index]. unfold getitem at 1.
        rewrite nth_error_map, Hnth. cbn [option_map bind index getitem nth_error fst snd].
        cbn [add_channel_ranged]. rewrite Hc. cbn [bind fst].
        assert (Hfirst : exists first, getitem (done ++ [c]) 0 = Ok first /\
                                       ma.shape first = sh).
        { destruct done as [|c0 done']; cbn [app getitem nth_error].
          - now exists c.
          - exists c0. split; trivial. now apply Forall_cons_iff in Hdone as [? _]. }
        destruct Hfirst as (first & -> & Hsf). cbn [bind].
        rewrite Hsc, Hsf, (proj2 (shape_eqb_eq _ _) eq_refl).
        rewrite length_app in Hloop. cbn [List.length] in Hloop.
        replace (List.length done + 1)%nat with (S (List.length done)) in Hloop by lia.
        cbn [bind]. rewrite Hloop, <- app_assoc. cbn [app]. now destruct todo.
      * cbn [combine]. constructor; trivial. cbn [fst snd]. now repeat split.
Qed.

(** The colour range normalises: a list of arrays of one shape, built
    with a list of as many pairs [(lo, hi)] with [lo] other than [hi],
    gives an image whose channel [i] has the mask of array [i] (none
    masked for an array without a mask) and the values
    [(v - lo) / (hi - lo)] for pair [i], between 0 and 1 for the values of
    the range.  A single pair is accepted for a
    list of arrays, too, but then the loop subscripts a number:
    [TypeError]. *)
Theorem init_normalises_with_the_colour_range
        (l : list (array_like Q)) (ranges : list (Q * Q)) (sh : nat * nat)
        (mode_ : string) (fv : fill_arg Q) (pal : option (list (list (option Q)))) :
  In mode_ modes -> List.length l = count_upper mode_ ->
  Forall (fun a => is_array a = true /\ array_shape a = Ok sh) l ->
  (List.length ranges = List.length l ->
   Forall (fun r => ~ fst r == snd r) ranges ->
   exists img,
     __init__ (H := E) (CSeq l) mode_ (Some (pairs ranges)) fv pal = Ok img /\
     shape img = sh /\
     Forall2 (fun ar c => ma.shape c = sh /\ ma.mask c = mask_of (fst ar) /\
                          Forall2 (normalised (snd ar)) (values_of (fst ar)) (ma.data c))
             (combine l ranges) (channels img)) /\
  (forall lo hi,
      __init__ (H := E) (CSeq l) mode_ (Some (Seq [Num lo; Num hi])) fv pal =
      Raise TypeError).
Proof.
  intros Hm Hlen Harr.
  assert (Hne : exists a0 rest, l = a0 :: rest).
  { pose proof (modes_have_channels mode_ Hm). destruct l as [|a0 rest]; eauto.
    cbn in Hlen. lia. }
  assert (Hall : forallb is_array l = true).
  { apply forallb_forall. intros a Ha. now apply (proj1 (Forall_forall _ _) Harr). }
  apply mode_in_In in Hm.
  split.
  - intros Hr _.
    destruct (init_loop_ranged sh ranges l [] ranges None) as (news & Hloop & Hnews);
      trivial.
    cbn [List.length app] in Hloop.
    destruct Hne as (a0 & rest & ->).
    eexists. split; [|split].
    + unfold __init__. cbn [bind].
      rewrite (proj2 (Nat.eqb_eq _ _) Hlen), Hm. cbn [negb bind].
      assert (Hcheck : check_color_range (Some (pairs ranges))
                         (Some (List.length (a0 :: rest))) mode_ = Ok tt)
        by (rewrite <- Hr; apply pairs_checked; congruence).
      rewrite Hcheck. cbn [bind].
      rewrite Hall, Hloop. cbn [bind snd fst]. reflexivity.
    + reflexivity.
    + exact Hnews.
  - intros lo hi. destruct Hne as (a0 & rest & ->).
    unfold __init__. cbn [bind].
    rewrite (proj2 (Nat.eqb_eq _ _) Hlen), Hm. cbn [negb bind].
    cbn [check_color_range _is_pair is_seq negb andb bind _is_list_of_pairs forallb len
         List.length].
    rewrite andb_false_r. cbn [andb bind].
    cbn [forallb] in Hall. rewrite Hall. reflexivity.
Qed.

End ColourRange.

(** A run of the theorem above: bytes 0 to 255 given as one row. *)
Lemma init_colour_range_witness :
  (exists img,
      __init__ (CSeq [Plain (1, 2)%nat [0; 255]%Q]) "L" (Some (pairs [(0, 255)]%Q))
               FNone None = Ok img /\
      shape img = (1, 2)%nat /\
      Forall2 (fun ar c => ma.shape c = (1, 2)%nat /\ ma.mask c = mask_of (fst ar) /\
                           Forall2 (normalised (snd ar)) (values_of (fst ar)) (ma.data c))
              (combine [Plain (1, 2)%nat [0; 255]%Q] [(0, 255)]%Q) (channels img)) /\
  (forall lo hi,
      __init__ (CSeq [Plain (1, 2)%nat [0; 255]%Q]) "L" (Some (Seq [Num lo; Num hi]))
               FNone None = Raise TypeError).
Proof.
  destruct (init_normalises_with_the_colour_range exact.pow_integral (fun _ => 0%Q)
              [Plain (1, 2)%nat [0; 255]%Q] [(0, 255)]%Q (1, 2)%nat "L" FNone None)
    as [Hpairs Hpair].
  - cbn. tauto.
  - reflexivity.
  - repeat constructor.
  - split; [apply Hpairs; [reflexivity | repeat constructor; discriminate] | exact Hpair].
Defined.

(** ** Conversion to an indexed image *)

Section Quantization.

Context {F : Type} `{Float64 F}.

(** A loop whose body returns and keeps an invariant returns and keeps
    it. *)
Lemma for_each_returns {A S} (P : S -> Prop) (xs : list A) (body : S -> A -> result S) :
  (forall s x, In x xs -> P s -> exists s', body s x = Ok s' /\ P s') ->
  forall s, P s -> exists s', for_each xs body s = Ok s' /\ P s'.
Proof.
  induction xs as [|x xs IH]; intros Hb s Hs; cbn [for_each].
  - now exists s.
  - destruct (Hb s x (or_introl eq_refl) Hs) as (s1 & -> & Hs1). cbn [bind].
    apply IH; trivial. intros s2 y Hy. apply Hb. now right.
Qed.

Lemma item2_grid (h w i j : nat) (c : ma.MaskedArray F) :
  grid h w c -> (i < h)%nat -> (j < w)%nat -> exists v, ma.item2 c i j = Ok v.
Proof.
  intros (Hs & Hd & Hm) Hi Hj. unfold ma.item2. rewrite Hs. cbn [fst snd].
  rewrite (proj2 (Nat.ltb_lt _ _) Hi), (proj2 (Nat.ltb_lt _ _) Hj). cbn [andb].
  unfold ma.item.
  destruct (nth_error (ma.data c) (i * w + j)) as [v|] eqn:Hv;
    [|apply nth_error_None in Hv; nia].
  destruct (nth_error (ma.mask c) (i * w + j)) as [[|]|]; now eexists.
Qed.

Lemma current_colour (h w i j : nat) (chans : list (ma.MaskedArray F)) :
  Forall (grid h w) chans -> (i < h)%nat -> (j < w)%nat ->
  forall acc, exists col,
    for_each chans (fun acc chn => v <- ma.item2 chn i j ;; Ok (acc ++ [v])) acc = Ok col /\
    List.length col = (List.length acc + List.length chans)%nat.
Proof.
  intros Hg Hi Hj. induction Hg as [|c chans Hc _ IH]; intros acc; cbn [for_each].
  - exists acc. split; [reflexivity|cbn; lia].
  - destruct (item2_grid h w i j c Hc Hi Hj) as (v & ->). cbn [bind].
    destruct (IH (acc ++ [v])) as (col & -> & Hl). exists col. split; [reflexivity|].
    rewrite Hl, length_app. cbn. lia.
Qed.

Lemma find_colour_None (pal : list (list (option F))) (col : list (option F)) :
  find_colour pal col = None ->
  forall i e, nth_error pal i = Some e -> tuple_eqb e col = false.
Proof.
  induction pal as [|e0 pal IH]; intros Hf i e He.
  - now destruct i.
  - cbn [find_colour] in Hf. destruct (tuple_eqb e0 col) eqn:Heq; [discriminate|].
    destruct (find_colour pal col) eqn:Hrest; [discriminate|].
    destruct i as [|i]; cbn in He.
    + now injection He as <-.
    + now apply (IH eq_refl i).
Qed.

Lemma find_colour_Some (pal : list (list (option F))) (col : list (option F)) (k : nat) :
  find_colour pal col = Some k -> pal <> [].
Proof. now destruct pal. Qed.

Lemma register_colour_quantizing (h w n : nat) (st : quantizer) (col : list (option F)) :
  quantizing h w n st -> List.length col = n ->
  quantizing h w n (register_colour st col) /\
  q_palette (register_colour st col) <> [] /\
  q_new_chn (register_colour st col) = q_new_chn st.
Proof.
  intros Hst Hcol. pose proof Hst as (Hnb & Hidx & Hdist & Hlen & Hgrid & Hdata).
  unfold register_colour.
  destruct (find_colour (q_palette st) col) as [k|] eqn:Hfind.
  - split; trivial. split; trivial. now apply find_colour_Some in Hfind.
  - cbn [q_palette q_idx q_color_nb q_new_chn]. split; [|split; trivial].
    + unfold quantizing. cbn [q_palette q_idx q_color_nb q_new_chn].
      rewrite length_app. cbn [List.length].
      split; [lia|]. split; [|split; [|split; [|split; trivial]]].
      * intros _. exists (q_color_nb st). split; trivial. lia.
      * intros i j e1 e2 Hij H1 H2.
        destruct (Nat.lt_ge_cases j (List.length (q_palette st))) as [Hj|Hj].
        -- rewrite nth_error_app1 in H1, H2 by lia. now apply (Hdist i j).
        -- rewrite nth_error_app2 in H2 by trivial.
           destruct (j - List.length (q_palette st))%nat as [|d] eqn:Hd;
             [|now destruct d].
           cbn in H2. injection H2 as <-.
           assert (Hi : (i < List.length (q_palette st))%nat) by lia.
           rewrite nth_error_app1 in H1 by trivial.
           now apply (find_colour_None _ _ Hfind i).
      * apply Forall_app. split; trivial. now constructor.
      * eapply Forall_impl; [|exact Hdata].
        cbn. intros v (k & -> & Hk). exists k. split; trivial. lia.
    + now destruct (q_palette st).
Qed.

(** One pixel: the body of the two loops returns and keeps the
    invariant, and leaves a palette that is not empty. *)
Lemma quantize_pixel_quantizing (h w i j : nat) (chans : list (ma.MaskedArray F))
      (st : quantizer) :
  Forall (grid h w) chans -> (i < h)%nat -> (j < w)%nat ->
  quantizing h w (List.length chans) st ->
  exists st', quantize_pixel chans i j st = Ok st' /\
              quantizing h w (List.length chans) st' /\ q_palette st' <> [].
Proof.
  intros Hg Hi Hj Hst. unfold quantize_pixel.
  destruct (current_colour h w i j chans Hg Hi Hj []) as (col & -> & Hcol).
  cbn [bind List.length Nat.add] in Hcol |- *.
  destruct (register_colour_quantizing h w _ st col Hst Hcol) as (Hq & Hne & Hchn).
  destruct Hq as (Hnb & Hidx & Hdist & Hlen & Hgrid & Hdata).
  destruct (Hidx Hne) as (k & Hk & Hklt).
  unfold read_idx. rewrite Hk. cbn [bind].
  destruct Hgrid as (Hs & Hd & Hm).
  unfold ma.setitem2. rewrite Hs. cbn [fst snd].
  rewrite (proj2 (Nat.ltb_lt _ _) Hi), (proj2 (Nat.ltb_lt _ _) Hj). cbn [andb bind].
  eexists. split; [reflexivity|]. split; trivial.
  unfold quantizing, grid. cbn [q_palette q_idx q_color_nb q_new_chn ma.data ma.shape ma.mask].
  rewrite setitem_length.
  split; [exact Hnb|]. split; [intros _; now exists k|]. split; [exact Hdist|].
  split; [exact Hlen|]. split; [tauto|].
  apply setitem_Forall; trivial. exists k. split; trivial. now right.
Qed.

Lemma for_each_establishes {A S} (P Q : S -> Prop) (xs : list A)
      (body : S -> A -> result S) :
  (forall s x, In x xs -> P s -> exists s', body s x = Ok s' /\ P s' /\ Q s') ->
  xs <> [] ->
  forall s, P s -> exists s', for_each xs body s = Ok s' /\ P s' /\ Q s'.
Proof.
  intros Hb Hne s Hs. destruct xs as [|x xs]; [contradiction|]. cbn [for_each].
  destruct (Hb s x (or_introl eq_refl) Hs) as (s1 & -> & Hs1). cbn [bind].
  apply (for_each_returns (fun s => P s /\ Q s)); trivial.
  intros s2 y Hy (Hs2 & _). apply Hb; trivial. now right.
Qed.

Lemma seq_nonempty (n : nat) : (0 < n)%nat -> seq 0 n <> [].
Proof. now destruct n; [lia|]. Qed.

(** The two loops over the pixels. *)
Lemma quantize_all (h w : nat) (chans : list (ma.MaskedArray F)) :
  Forall (grid h w) chans -> (0 < h)%nat -> (0 < w)%nat ->
  exists st,
    for_each (seq 0 h)
      (fun st i => for_each (seq 0 w) (fun st j => quantize_pixel chans i j st) st)
      (mkQuantizer [] None 0 (ma.full (h, w) (lit 0))) = Ok st /\
    quantizing h w (List.length chans) st /\ q_palette st <> [].
Proof.
  intros Hg Hh Hw.
  apply (for_each_establishes (quantizing h w (List.length chans))
                              (fun st => q_palette st <> [])).
  - intros st i Hi Hst. apply in_seq in Hi.
    apply (for_each_establishes (quantizing h w (List.length chans))
                                (fun st => q_palette st <> [])); trivial.
    + intros st' j Hj Hst'. apply in_seq in Hj.
      apply (quantize_pixel_quantizing h w); trivial; lia.
    + now apply seq_nonempty.
  - now apply seq_nonempty.
  - unfold quantizing, grid, ma.full.
    cbn [q_palette q_idx q_color_nb q_new_chn ma.data ma.shape ma.mask fst snd List.length].
    rewrite !repeat_length.
    split; trivial. split; [now intros []|]. split; [now intros [|i] j e1 e2 _ H1|].
    split; [constructor|]. split; [tauto|].
    apply Forall_forall. intros v Hv. apply repeat_spec in Hv. subst v.
    exists 0%nat. split; [reflexivity|now left].
Qed.

(** [chans[0].mask] joined with the masks of [chans[1:]]: an element is
    masked when it is masked in one of the channels. *)
Lemma joined_masks (n : nat) (chans : list (ma.MaskedArray F)) (m : list bool) (k : nat) :
  List.length m = n -> Forall (fun chn => List.length (ma.mask chn) = n) chans ->
  (k < n)%nat ->
  nth_error (fold_left (fun m chn => ma.mask_or m (ma.mask chn)) chans m) k =
  Some (nth k m false || masked_in chans k).
Proof.
  intros Hm Hc Hk. revert m Hm. induction Hc as [|c chans Hc _ IH]; intros m Hm;
    cbn [fold_left masked_in existsb].
  - rewrite orb_false_r. destruct (nth_error m k) as [b|] eqn:Hb.
    + now rewrite (nth_error_nth _ _ _ Hb).
    + apply nth_error_None in Hb. lia.
  - assert (Hor : nth k (ma.mask_or m (ma.mask c)) false =
                   nth k m false || nth k (ma.mask c) false).
    { apply nth_error_nth. unfold ma.mask_or. rewrite zip_with_nth_error.
      rewrite (nth_error_nth' m false), (nth_error_nth' (ma.mask c) false) by lia.
      reflexivity. }
    rewrite IH.
    + now rewrite Hor, orb_assoc.
    + unfold ma.mask_or. rewrite zip_with_length. lia.
Qed.

Lemma joined_masks_length (n : nat) (chans : list (ma.MaskedArray F)) (m : list bool) :
  List.length m = n -> Forall (fun chn => List.length (ma.mask chn) = n) chans ->
  List.length (fold_left (fun m chn => ma.mask_or m (ma.mask chn)) chans m) = n.
Proof.
  intros Hm Hc. revert m Hm. induction Hc as [|c chans Hc _ IH]; intros m Hm;
    cbn [fold_left]; trivial.
  apply IH. unfold ma.mask_or. rewrite zip_with_length. lia.
Qed.

Lemma last_split {A} (xs : list A) :
  xs <> [] ->
  exists front a, xs = front ++ [a] /\ drop_last xs = front /\
                  getitem_int xs (-1) = Ok a /\ last_slice xs = [a].
Proof.
  intros Hne. destruct (exists_last Hne) as (front & a & ->). exists front, a.
  split; trivial. split; [apply drop_last_app|]. split.
  - unfold getitem_int. cbn [Z.leb Z.compare]. rewrite length_app. cbn [List.length].
    destruct (- Z.of_nat (List.length front + 1) <=? -1)%Z eqn:Hle;
      [|apply Z.leb_gt in Hle; lia].
    replace (Z.to_nat (Z.of_nat (List.length front + 1) + -1)) with (List.length front)
      by lia.
    unfold getitem. rewrite nth_error_app2, Nat.sub_diag by lia. reflexivity.
  - unfold last_slice. rewrite length_app. cbn [List.length].
    replace (List.length front + 1 - 1)%nat with (List.length front) by lia.
    rewrite skipn_app, skipn_all, Nat.sub_diag. reflexivity.
Qed.

(** The index channel that [_to_p] ends with. *)
Lemma indexed_channel (h w n : nat) (st : quantizer) (c0 : ma.MaskedArray F)
      (rest : list (ma.MaskedArray F)) :
  quantizing h w n st -> q_palette st <> [] -> Forall (grid h w) (c0 :: rest) ->
  let index := ma.set_mask (q_new_chn st)
                 (fold_left (fun m chn => ma.mask_or m (ma.mask chn)) rest (ma.mask c0)) in
  grid h w index /\ valid_indices (q_palette st) (ma.data index) /\
  (forall k, (k < h * w)%nat ->
             nth_error (ma.mask index) k = Some (masked_in (c0 :: rest) k)).
Proof.
  intros (_ & _ & _ & _ & (Hs & Hd & _) & Hdata) Hne Hg index.
  assert (Hm0 : List.length (ma.mask c0) = (h * w)%nat).
  { inversion Hg as [|? ? (_ & _ & Hm) _]. exact Hm. }
  assert (Hms : Forall (fun chn => List.length (ma.mask chn) = (h * w)%nat) rest).
  { inversion Hg as [|? ? _ Hrest]. eapply Forall_impl; [|exact Hrest].
    now intros c (_ & _ & Hm). }
  assert (Hmask : forall k, (k < h * w)%nat ->
                            nth_error (ma.mask index) k = Some (masked_in (c0 :: rest) k)).
  { intros k Hk. cbn [index ma.set_mask ma.mask masked_in existsb].
    rewrite (joined_masks (h * w)); trivial. }
  split; [|split; trivial].
  - split; [exact Hs|]. split; [exact Hd|]. cbn [index ma.set_mask ma.mask].
    now apply joined_masks_length.
  - eapply Forall_impl; [|exact Hdata]. cbn. intros v (k & -> & [-> | Hk]).
    + exists 0%nat. split; trivial. destruct (q_palette st); [contradiction|cbn; lia].
    + now exists k.
Qed.

End Quantization.

Section IndexedImages.

Context {F : Type} `{Float64 F}.

(** The colour that stands for the fill value is registered like the
    colour of a pixel. *)
Lemma fill_registered (h w n : nat) (st : quantizer) (col : list (option F)) :
  quantizing h w n st -> q_palette st <> [] -> List.length col = n ->
  exists k, read_idx (register_colour st col) = Ok k /\
            (k < List.length (q_palette (register_colour st col)))%nat /\
            quantizing h w n (register_colour st col) /\
            q_palette (register_colour st col) <> [].
Proof.
  intros Hst Hne Hcol.
  destruct (register_colour_quantizing h w n st col Hst Hcol) as (Hq & Hne' & _).
  pose proof Hq as (_ & Hidx & _). destruct (Hidx Hne') as (k & Hk & Hlt).
  exists k. unfold read_idx. now rewrite Hk.
Qed.

Lemma to_p_dispatched (m : string) :
  In m direct_modes -> dispatched m (indexed_mode m) = Some m_to_p.
Proof.
  intros Hm. simpl in Hm. decompose [or] Hm; subst; try contradiction; reflexivity.
Qed.

Lemma colour_channels_nonempty (self : Image F) :
  In (mode self) direct_modes ->
  List.length (channels self) = count_upper (mode self) ->
  channels self <> [] /\ colour_channels self <> [].
Proof.
  intros Hm Hlen. unfold colour_channels.
  assert (Hcount : (1 <= count_upper (mode self))%nat /\
                   (endswith_A (mode self) = true -> 2 <= count_upper (mode self))%nat).
  { simpl in Hm. decompose [or] Hm; try contradiction;
      match goal with E : _ = mode self |- _ => rewrite <- E end;
      vm_compute; split; first [lia | intros _; lia | discriminate]. }
  destruct Hcount as (H1 & H2). split.
  - intros E. rewrite E in Hlen. cbn in Hlen. lia.
  - destruct (endswith_A (mode self)).
    + intros E. pose proof (drop_last_length (channels self)) as Hd.
      rewrite E in Hd. cbn in Hd. specialize (H2 eq_refl). lia.
    + intros E. rewrite E in Hlen. cbn in Hlen. lia.
Qed.

(** Converting an image of at least one pixel to an indexed image
    returns.  The result has the size of the image, remembers the mode of
    the colours, and has the index channel and, if there was one, the
    alpha channel; its palette is not empty, holds no colour twice, and
    every entry has one component for each colour channel; every value of
    the index channel is an index into the palette, and so is the first
    component of the fill value; an element of the index channel is
    masked when it is masked in one of the colour channels. *)
Theorem convert_to_indexed_builds_a_palette (self : Image F) (h w : nat) :
  In (mode self) direct_modes -> consistent self -> gridded h w self ->
  (0 < h)%nat -> (0 < w)%nat ->
  exists p pal index,
    convert self (indexed_mode (mode self)) = Ok p /\
    mode p = indexed_mode (mode self) /\
    _secondary_mode p = colour_mode (mode self) /\
    gridded h w p /\
    channels p = index :: alpha_channel self /\
    palette p = Some pal /\ pal <> [] /\ distinct_colours pal /\
    Forall (fun entry => List.length entry = List.length (colour_channels self)) pal /\
    grid h w index /\ valid_indices pal (ma.data index) /\
    (forall k, (k < h * w)%nat ->
               nth_error (ma.mask index) k = Some (masked_in (colour_channels self) k)) /\
    (forall fv, fill_value p = Some fv ->
                exists k rest, fv = of_nat k :: rest /\ (k < List.length pal)%nat).
Proof.
  intros Hmode (_ & _ & Hlen & Hfill & _) (Hh & Hw & Hsh & Hg) Hh0 Hw0.
  destruct (colour_channels_nonempty self Hmode Hlen) as (Hcne & Hcol).
  assert (Hne : is_empty self = Ok false).
  { apply is_empty_nonempty; trivial. rewrite Hsh.
    destruct h; [lia|]. reflexivity. }
  unfold convert, recursion_limit.
  rewrite (convert_fuel_dispatched _ self _ m_to_p Hne (to_p_dispatched _ Hmode)).
  cbn [call]. clear Hne Hmode.
  assert (Hgc : Forall (grid h w) (colour_channels self)).
  { unfold colour_channels. destruct (endswith_A (mode self)); trivial.
    destruct (last_split (channels self) Hcne) as (front & a & Hc & -> & _).
    rewrite Hc in Hg. now apply Forall_app in Hg. }
  assert (Halpha : (if endswith_A (mode self)
                    then a <- getitem_int (channels self) (-1) ;; Ok (Some a)
                    else Ok None) =
                   Ok (match alpha_channel self with a :: _ => Some a | [] => None end)).
  { unfold alpha_channel. destruct (endswith_A (mode self)); trivial.
    destruct (last_split (channels self) Hcne) as (front & a & _ & _ & -> & ->).
    reflexivity. }
  assert (Hchannels : forall index : ma.MaskedArray F,
            match match alpha_channel self with a :: _ => Some a | [] => None end with
            | None => [index]
            | Some a => [index; a]
            end = index :: alpha_channel self).
  { intros index. unfold alpha_channel. destruct (endswith_A (mode self)); trivial.
    now destruct (last_split (channels self) Hcne) as (front & a & _ & _ & _ & ->). }
  assert (Hga : Forall (grid h w) (alpha_channel self)).
  { unfold alpha_channel. destruct (endswith_A (mode self)); [|constructor].
    now apply skipn_Forall. }
  assert (Hfv : forall fv, fill_value self = Some fv ->
            exists fill_alpha,
              (if endswith_A (mode self)
               then a <- getitem_int fv (-1) ;; Ok [a] else Ok []) = Ok fill_alpha /\
              List.length (map Some (if endswith_A (mode self) then drop_last fv else fv)) =
              List.length (colour_channels self)).
  { intros fv Efv. specialize (Hfill fv Efv). rewrite <- Hlen in Hfill.
    unfold colour_channels. destruct (endswith_A (mode self)).
    - assert (Hfne : fv <> []) by (intros ->; destruct (channels self); [auto|discriminate]).
      destruct (last_split fv Hfne) as (front & a & _ & _ & -> & _).
      exists [a]. split; trivial. now rewrite length_map, !drop_last_length, Hfill.
    - exists []. split; trivial. now rewrite length_map. }
  unfold _to_p. rewrite Halpha. cbn [bind]. fields.
  fold (colour_channels self). rewrite Hh, Hw, Hsh.
  destruct (colour_channels self) as [|c0 rest] eqn:Hchans; [contradiction|].
  cbn [getitem nth_error bind tl].
  destruct (quantize_all h w (c0 :: rest) Hgc Hh0 Hw0) as (st & -> & Hst & Hpal).
  cbn [bind].
  destruct (fill_value self) as [fv|] eqn:Efv.
  - destruct (Hfv fv eq_refl) as (fill_alpha & -> & Hcl). cbn [bind].
    destruct (fill_registered h w _ st _ Hst Hpal Hcl) as (k & -> & Hk & Hst' & Hpal').
    cbn [bind].
    destruct (indexed_channel h w _ _ c0 rest Hst' Hpal' Hgc) as (Hgrid & Hvalid & Hmask).
    eexists _, _, _. split; [reflexivity|]. fields.
    split; trivial. split; [reflexivity|].
    split; [unfold gridded; fields; rewrite Hchannels; auto|].
    split; [apply Hchannels|].
    split; [reflexivity|]. split; trivial.
    pose proof Hst' as (_ & _ & Hdist & Hentries & _).
    split; trivial. split; trivial. split; trivial. split; trivial. split; trivial.
    intros fv' Efv'. returned Efv'. now exists k, fill_alpha.
  - cbn [bind].
    destruct (indexed_channel h w _ _ c0 rest Hst Hpal Hgc) as (Hgrid & Hvalid & Hmask).
    eexists _, _, _. split; [reflexivity|]. fields.
    split; trivial. split; [reflexivity|].
    split; [unfold gridded; fields; rewrite Hchannels; auto|].
    split; [apply Hchannels|].
    split; [reflexivity|]. split; trivial.
    pose proof Hst as (_ & _ & Hdist & Hentries & _).
    split; trivial. split; trivial. split; trivial. split; trivial. split; trivial.
    discriminate.
Qed.

End IndexedImages.

(** A run of the theorem above: the row of three pixels [0, 1, 0] has two
    colours. *)
Lemma convert_to_indexed_witness :
  exists p pal index,
    convert example.l_row (indexed_mode (mode example.l_row)) = Ok p /\
    mode p = indexed_mode (mode example.l_row) /\
    _secondary_mode p = colour_mode (mode example.l_row) /\
    gridded 1 3 p /\
    channels p = index :: alpha_channel example.l_row /\
    palette p = Some pal /\ pal <> [] /\ distinct_colours pal /\
    Forall (fun entry => List.length entry =
                         List.length (colour_channels example.l_row)) pal /\
    grid 1 3 index /\ valid_indices pal (ma.data index) /\
    (forall k, (k < 1 * 3)%nat ->
               nth_error (ma.mask index) k =
               Some (masked_in (colour_channels example.l_row) k)) /\
    (forall fv, fill_value p = Some fv ->
                exists k rest, fv = of_nat k :: rest /\ (k < List.length pal)%nat).
Proof.
  apply (convert_to_indexed_builds_a_palette example.l_row 1 3).
  - cbn. tauto.
  - unfold consistent. cbn. split; [tauto|]. split; [tauto|]. split; [reflexivity|].
    split; discriminate.
  - repeat split. repeat constructor.
  - lia.
  - lia.
Defined.

(** ** Conversion from an indexed image *)

Section Knots.

Variable pow : Q -> Q -> Q.
Variable log : Q -> Q.

Let E : Float64 Q := exactQ pow log.

Open Scope Q_scope.

Lemma of_nat_le (j k : nat) :
  Qle_bool (of_nat (H := E) j) (of_nat (H := E) k) = true <-> (j <= k)%nat.
Proof.
  unfold of_nat. cbn [lit E exactQ]. rewrite Qle_bool_iff, <- Zle_Qle. lia.
Qed.

Lemma of_nat_eq (k : nat) : Qeq_bool (of_nat (H := E) k) (of_nat (H := E) k) = true.
Proof. apply Qeq_bool_iff. reflexivity. Qed.

Lemma of_nat_inj (j k : nat) : of_nat (H := E) j = of_nat (H := E) k -> j = k.
Proof.
  unfold of_nat. cbn [lit E exactQ]. unfold inject_Z. intros Hjk.
  injection Hjk as Hjk. lia.
Qed.

(** [np.interp] at a knot of [np.arange(n)] is the value at the knot. *)
Lemma interp_from_knot (ys : list Q) (j k : nat) (y0 : Q) :
  (j <= k)%nat -> (k - j <= List.length ys)%nat ->
  exact.interp_from (of_nat (H := E) k) (of_nat (H := E) j) y0
    (map (of_nat (H := E)) (seq (S j) (List.length ys))) ys =
  nth (k - j) (y0 :: ys) 0.
Proof.
  revert j y0. induction ys as [|y1 ys IH]; intros j y0 Hjk Hk.
  - cbn in Hk |- *. now replace (k - j)%nat with 0%nat by lia.
  - cbn [List.length seq map exact.interp_from].
    destruct (Qle_bool (of_nat (S j)) (of_nat k)) eqn:Hle.
    + apply of_nat_le in Hle. rewrite IH by (cbn [List.length] in Hk; lia).
      replace (k - j)%nat with (S (k - S j)) by lia. reflexivity.
    + assert (Hkj : k = j).
      { destruct (Nat.eq_dec k j) as [|Hne]; trivial.
        assert (Hlt : (S j <= k)%nat) by lia.
        apply of_nat_le in Hlt. congruence. }
      subst k. rewrite of_nat_eq, Nat.sub_diag. reflexivity.
Qed.

Lemma interp_knot (fp : list Q) (k : nat) :
  (k < List.length fp)%nat ->
  exact.interp1 (arange (H := E) (List.length fp)) fp (of_nat (H := E) k) = nth k fp 0.
Proof.
  destruct fp as [|y0 ys]; cbn [List.length]; [lia|]. intros Hk.
  unfold arange. cbn [seq map exact.interp1].
  destruct (Qle_bool (of_nat k) (of_nat 0)) eqn:Hle.
  - apply of_nat_le in Hle. now replace k with 0%nat by lia.
  - rewrite interp_from_knot by lia. now rewrite Nat.sub_0_r.
Qed.

End Knots.

Section LoopsThatCollect.

Context {A B : Type}.

(** A loop that appends one element in each round collects them. *)
Lemma for_each_collects (g : A -> B) (xs : list A)
      (body : list B -> A -> result (list B)) :
  (forall acc x, In x xs -> body acc x = Ok (acc ++ [g x])) ->
  forall acc, for_each xs body acc = Ok (acc ++ map g xs).
Proof.
  induction xs as [|x xs IH]; intros Hb acc; cbn [for_each map].
  - now rewrite app_nil_r.
  - rewrite (Hb acc x (or_introl eq_refl)). cbn [bind].
    rewrite IH by (intros acc' y Hy; apply Hb; now right).
    now rewrite <- app_assoc.
Qed.

End LoopsThatCollect.

Lemma getitem_int_nat {A} (xs : list A) (k : nat) (d : A) :
  (k < List.length xs)%nat -> getitem_int xs (Z.of_nat k) = Ok (nth k xs d).
Proof.
  intros Hk. unfold getitem_int, getitem.
  destruct (0 <=? Z.of_nat k)%Z eqn:Hle; [|apply Z.leb_gt in Hle; lia].
  now rewrite Nat2Z.id, (nth_error_nth' xs d).
Qed.

Section FromIndexed.

Variable pow : Q -> Q -> Q.
Variable log : Q -> Q.

Let E : Float64 Q := exactQ pow log.

Lemma convert_fuel_same (fuel : nat) (q : Image Q) (m : string) :
  mode q = m -> convert_fuel (H := E) (S fuel) q m = Ok q.
Proof. intros <-. rewrite convert_fuel_unfold. now rewrite String.eqb_refl. Qed.

Lemma from_p_dispatched (p : Image Q) :
  mode_in (mode p) ["P"; "PA"] = true ->
  In (_secondary_mode p) ["L"; "RGB"; "YCbCr"] ->
  dispatched (mode p) (direct_mode p) = Some m_from_p.
Proof.
  intros Hm Hsec. apply mode_in_In in Hm. unfold direct_mode.
  destruct Hm as [<-|[<-|[]]]; destruct Hsec as [<-|[<-|[<-|[]]]]; reflexivity.
Qed.

(** The channel that [_from_p] makes of component [i] of the palette. *)
Lemma looked_up (pal : list (list (option Q))) (index : ma.MaskedArray Q) (i t k : nat) :
  (k < List.length pal)%nat ->
  nth_error (ma.data index) t = Some (of_nat (H := E) k) ->
  nth_error (interp (Float64 := E) (ma.data index) (arange (H := E) (List.length pal))
               (map (fun entry => to_float (H := E) (nth i entry None)) pal)) t =
  Some (component (H := E) pal k i).
Proof.
  intros Hk Ht. cbn [interp E exactQ]. rewrite nth_error_map, Ht. cbn [option_map].
  f_equal. set (f := fun entry => to_float (H := E) (nth i entry None)).
  rewrite <- (length_map f pal). transitivity (nth k (map f pal) 0%Q).
  - apply (interp_knot pow log). now rewrite length_map.
  - rewrite (nth_indep _ 0%Q (f [])) by now rewrite length_map.
    now rewrite map_nth.
Qed.

(** Converting an indexed image back looks the colours up.  Over the
    rationals, for an image in mode P or PA that is not empty, whose
    palette is not empty and has entries of [n] components, whose index
    channel holds indices into the palette and whose fill value, if any,
    starts with such an index, [convert] to the mode the image was made
    from returns an image of that mode with [n] colour channels, followed
    by the alpha channel if there is one.  Colour channel [i] has the
    shape and the mask of the index channel, and where the index channel
    holds [k] it holds component [i] of entry [k] of the palette; the
    fill value becomes the entry that it indexed, followed by its alpha. *)
Theorem convert_from_indexed_looks_colours_up (p : Image Q)
        (pal : list (list (option Q))) (index : ma.MaskedArray Q) (n : nat) :
  mode_in (mode p) ["P"; "PA"] = true ->
  In (_secondary_mode p) ["L"; "RGB"; "YCbCr"] ->
  is_empty p = Ok false ->
  nth_error (channels p) 0 = Some index ->
  palette p = Some pal -> pal <> [] ->
  Forall (fun entry => List.length entry = n) pal ->
  valid_indices (H := E) pal (ma.data index) ->
  (forall fv, fill_value p = Some fv ->
              exists k rest, fv = of_nat (H := E) k :: rest /\ (k < List.length pal)%nat) ->
  exists img,
    convert (H := E) p (direct_mode p) = Ok img /\
    mode img = direct_mode p /\
    List.length (channels img) = (n + List.length (alpha_channel p))%nat /\
    skipn n (channels img) = alpha_channel p /\
    (forall i, (i < n)%nat ->
       exists chn, nth_error (channels img) i = Some chn /\
                   ma.shape chn = ma.shape index /\ ma.mask chn = ma.mask index /\
                   forall t k, nth_error (ma.data index) t = Some (of_nat (H := E) k) ->
                               nth_error (ma.data chn) t = Some (component (H := E) pal k i)) /\
    (forall k rest,
       fill_value p = Some (of_nat (H := E) k :: rest) ->
       fill_value img =
       Some (map (to_float (H := E)) (nth k pal []) ++
             (if endswith_A (mode p) then last_slice (of_nat (H := E) k :: rest) else []))).
Proof.
  intros Hmode Hsec Hne Hidx Hpal Hpne Hlen Hvalid Hfill.
  assert (Hcne : channels p <> []) by (intros E0; now rewrite E0 in Hidx).
  set (g := fun i : nat =>
              ma.with_data index
                (interp (Float64 := E) (ma.data index) (arange (H := E) (List.length pal))
                   (map (fun entry => to_float (H := E) (nth i entry None)) pal))
                (ma.mask index)).
  assert (Halpha : (if endswith_A (mode p)
                    then a <- getitem_int (channels p) (-1) ;; Ok (Some a)
                    else Ok None) =
                   Ok (match alpha_channel p with a :: _ => Some a | [] => None end) /\
                   (List.length (alpha_channel p) <= 1)%nat /\
                   (endswith_A (mode p) = true -> alpha_channel p <> [])).
  { unfold alpha_channel. destruct (endswith_A (mode p)).
    - destruct (last_split (channels p) Hcne) as (front & a & _ & _ & -> & ->).
      cbn. repeat split; [lia | discriminate].
    - cbn. repeat split; [lia | discriminate]. }
  destruct Halpha as (Halpha & Hal & Hsome).
  unfold convert, recursion_limit.
  rewrite (convert_fuel_dispatched _ p _ m_from_p Hne (from_p_dispatched p Hmode Hsec)).
  cbn [call]. unfold _from_p, _check_modes. rewrite Hmode, Halpha. cbn [bind].
  unfold getitem at 1. rewrite Hidx, Hpal. cbn [bind].
  destruct pal as [|entry0 pal']; [contradiction|].
  set (pal := entry0 :: pal') in *.
  cbn [getitem nth_error pal bind]. fold pal.
  assert (H0 : List.length entry0 = n) by now inversion Hlen.
  rewrite H0.
  rewrite (for_each_collects g).
  2:{ intros acc i Hi. apply in_seq in Hi.
      rewrite (for_each_collects (fun entry => to_float (H := E) (nth i entry None))).
      - reflexivity.
      - intros cdf entry Hentry.
        rewrite Forall_forall in Hlen. specialize (Hlen entry Hentry).
        unfold getitem. rewrite (nth_error_nth' entry None) by lia. reflexivity. }
  cbn [app bind].
  assert (Hends : endswith_A (mode p) =
                  match alpha_channel p with [] => false | _ :: _ => true end).
  { destruct (endswith_A (mode p)) eqn:Ea.
    - specialize (Hsome eq_refl). now destruct (alpha_channel p).
    - unfold alpha_channel. now rewrite Ea. }
  assert (Hchannels : forall cs : list (ma.MaskedArray Q),
            cs = map g (seq 0 n) ++ alpha_channel p ->
            List.length cs = (n + List.length (alpha_channel p))%nat /\
            skipn n cs = alpha_channel p /\
            (forall i, (i < n)%nat ->
               exists chn, nth_error cs i = Some chn /\
                 ma.shape chn = ma.shape index /\ ma.mask chn = ma.mask index /\
                 forall t k,
                   nth_error (ma.data index) t = Some (of_nat (H := E) k) ->
                   nth_error (ma.data chn) t = Some (component (H := E) pal k i))).
  { intros cs ->. rewrite length_app, length_map, length_seq. split; trivial. split.
    - rewrite skipn_app, length_map, length_seq, Nat.sub_diag, skipn_all2
        by now rewrite length_map, length_seq.
      reflexivity.
    - intros i Hi. exists (g i). split.
      + rewrite nth_error_app1 by now rewrite length_map, length_seq.
        rewrite nth_error_map, nth_error_seq.
        now rewrite (proj2 (Nat.ltb_lt _ _) Hi).
      + split; trivial. split; trivial. intros t k Ht.
        apply looked_up; trivial.
        unfold valid_indices in Hvalid. rewrite Forall_forall in Hvalid.
        destruct (Hvalid _ (nth_error_In _ _ Ht)) as (k' & Ek & Hk').
        now rewrite (of_nat_inj pow log _ _ Ek). }
  assert (regroup : forall A B C D : Prop, A /\ B /\ C -> D -> A /\ B /\ C /\ D)
    by tauto.
  unfold update_fill, direct_mode. rewrite Hends.
  destruct (fill_value p) as [fv|] eqn:Efv.
  - destruct (Hfill fv eq_refl) as (k & rest & -> & Hk).
    assert (Hint : py_int (Float64 := E) (of_nat (H := E) k) = Ok (Z.of_nat k)).
    { unfold of_nat. cbn [py_int lit E exactQ]. now rewrite trunc_integer. }
    destruct (alpha_channel p) as [|a al] eqn:Eal.
    + cbn [getitem nth_error bind]. rewrite Hint. cbn [bind].
      rewrite (getitem_int_nat pal k []) by trivial. cbn [bind]. fields.
      rewrite convert_fuel_same by reflexivity.
      eexists. split; [reflexivity|]. fields. split; trivial.
      apply regroup; [apply Hchannels; now rewrite app_nil_r|].
      intros k' rest' Efv'. injection Efv' as Ek <-.
      apply Nat2Z.inj in Ek. subst k'. now rewrite app_nil_r.
    + assert (Hfne : of_nat (H := E) k :: rest <> []) by discriminate.
      destruct (last_split _ Hfne) as (front & fill_alpha & _ & _ & Hgi & Hls).
      rewrite Hgi. cbn [getitem nth_error bind]. rewrite Hint. cbn [bind].
      rewrite (getitem_int_nat pal k []) by trivial. cbn [bind]. fields.
      rewrite convert_fuel_same by reflexivity.
      eexists. split; [reflexivity|]. fields. split; trivial.
      assert (Hal1 : al = []) by (destruct al; [trivial | cbn in Hal; lia]).
      subst al.
      apply regroup; [now apply Hchannels|].
      intros k' rest' Efv'. injection Efv' as Ek <-.
      apply Nat2Z.inj in Ek. subst k'. now rewrite Hls.
  - destruct (alpha_channel p) as [|a al] eqn:Eal.
    + fields. cbn [bind]. fields. rewrite convert_fuel_same by reflexivity.
      eexists. split; [reflexivity|]. fields. split; trivial.
      apply regroup; [apply Hchannels; now rewrite app_nil_r|]. discriminate.
    + fields. cbn [bind]. fields. rewrite convert_fuel_same by reflexivity.
      eexists. split; [reflexivity|]. fields. split; trivial.
      assert (Hal1 : al = []) by (destruct al; [trivial | cbn in Hal; lia]).
      subst al.
      apply regroup; [now apply Hchannels|]. discriminate.
Qed.

End FromIndexed.

(** A run of the theorem above: two pixels indexing black and white. *)
Lemma convert_from_indexed_witness :
  exists img,
    convert example.p_pair (direct_mode example.p_pair) = Ok img /\
    mode img = direct_mode example.p_pair /\
    List.length (channels img) = (3 + List.length (alpha_channel example.p_pair))%nat /\
    skipn 3 (channels img) = alpha_channel example.p_pair /\
    (forall i, (i < 3)%nat ->
       exists chn, nth_error (channels img) i = Some chn /\
                   ma.shape chn = (1, 2)%nat /\ ma.mask chn = [false; false] /\
                   forall t k, nth_error [0; 1]%Q t = Some (of_nat k) ->
                               nth_error (ma.data chn) t =
                               Some (component [[Some 0; Some 0; Some 0];
                                                [Some 1; Some 1; Some 1]]%Q k i)) /\
    (forall k rest,
       fill_value example.p_pair = Some (of_nat k :: rest) ->
       fill_value img =
       Some (map to_float (nth k [[Some 0; Some 0; Some 0]; [Some 1; Some 1; Some 1]]%Q [])
             ++ (if endswith_A (mode example.p_pair)
                 then last_slice (of_nat k :: rest) else []))).
Proof.
  apply (convert_from_indexed_looks_colours_up exact.pow_integral (fun _ => 0%Q)
           example.p_pair
           [[Some 0; Some 0; Some 0]; [Some 1; Some 1; Some 1]]%Q
           (ma.array (1, 2)%nat [0; 1]%Q [false; false]) 3).
  - reflexivity.
  - cbn. tauto.
  - reflexivity.
  - reflexivity.
  - reflexivity.
  - discriminate.
  - repeat constructor.
  - constructor; [exists 0%nat; split; [reflexivity | cbn; lia]|].
    constructor; [exists 1%nat; split; [reflexivity | cbn; lia]|]. constructor.
  - discriminate.
Defined.

(** ** Runs of the refusals *)

(** [clip] on an image in mode LA: one flag is too few, two flags clip
    the luminance and leave alpha. *)
Lemma clip_flags_witness :
  clip example.la_half (ISeq [true]) = Raise IndexError /\
  clip example.la_half (ISeq [true; false]) =
  Ok (set_channels example.la_half
        (clip_each (channels example.la_half) [true; false])).
Proof.
  destruct (clip_applies_to_the_flagged_channels example.la_half)
    as (Hflags & Hshort & _).
  split; [apply Hshort | apply Hflags]; cbn; lia.
Defined.

(** [putalpha] on a row of three pixels: an alpha of two pixels is
    refused, an alpha of three is appended. *)
Lemma putalpha_shape_witness :
  putalpha example.l_row (ma.array (1, 2)%nat [1; 1]%Q [false; false]) =
  Raise ValueError /\
  putalpha example.l_row (ma.array (1, 3)%nat [1; 1; 1]%Q [false; false; false]) =
  Ok (set_channels (alpha_added example.l_row)
        (channels example.l_row ++
         [ma.array (1, 3)%nat [1; 1; 1]%Q [false; false; false]])).
Proof.
  split.
  - apply (proj1 (putalpha_sets_the_last_channel example.l_row _)).
    + discriminate.
    + left. discriminate.
  - apply (proj2 (putalpha_sets_the_last_channel example.l_row _)).
    + reflexivity.
    + reflexivity.
    + cbn. tauto.
Defined.

(** [resize] of a row of three pixels: no rows, and two columns. *)
Lemma resize_refuses_witness :
  resize example.l_row (0, 3)%nat = Raise ZeroDivisionError /\
  resize example.l_row (1, 2)%nat = Raise ValueError.
Proof.
  destruct (resize_refuses exact.pow_integral (fun _ => 0%Q) example.l_row (0, 3)%nat)
    as (_ & Hzero & _).
  destruct (resize_refuses exact.pow_integral (fun _ => 0%Q) example.l_row (1, 2)%nat)
    as (_ & _ & Hfactor).
  split.
  - apply Hzero; [reflexivity | now left].
  - apply Hfactor; cbn; try lia; try reflexivity.
    right. intros [[k Hk]|[k Hk]]; cbn in Hk; lia.
Defined.

(** [invert] with one flag for each channel of an image in mode LA, and
    with one flag only. *)
Lemma invert_twice_witness :
  (exists once twice,
      invert example.la_half (ISeq [true; false]) = Ok once /\
      invert once (ISeq [true; false]) = Ok twice /\
      same.valid_image example.la_half twice) /\
  invert example.la_half (ISeq [true]) = Raise ValueError.
Proof.
  destruct (invert_twice_keeps_the_valid_values exact.pow_integral (fun _ => 0%Q)
              example.la_half 1 1) as (_ & Hflags & Hshort & _).
  - repeat split. repeat constructor.
  - split; [apply Hflags; reflexivity | apply Hshort; discriminate].
Defined.

(** [gamma] on a row of three pixels, without numexpr: no exponents, and
    a negative one. *)
Lemma gamma_refuses_witness :
  gamma None example.l_row (GSeq []) = Raise ValueError /\
  gamma None example.l_row (GNum (-1)%Q) = Raise ValueError.
Proof.
  destruct (gamma_refuses None example.l_row) as (Hlength & Hnumbers & _).
  split.
  - apply Hlength. discriminate.
  - apply Hnumbers; [discriminate | reflexivity].
Defined.

(** [stretch] on a row of three pixels: an unknown method, and a keyword
    that the method does not have. *)
Lemma stretch_refuses_witness :
  stretch example.l_row (SStr "cubic") [] = Raise ValueError /\
  stretch example.l_row (SStr "histogram") [("factor", KNum 100%Q)] = Raise TypeError.
Proof.
  split.
  - destruct (stretch_refuses example.l_row []) as (_ & Hname & _).
    apply Hname. cbn. intros Hin. decompose [or] Hin; discriminate || contradiction.
  - destruct (stretch_refuses example.l_row [("factor", KNum 100%Q)])
      as (_ & _ & _ & _ & Hkeyword).
    apply (Hkeyword ltac:(cbn; lia) "histogram" []).
    + cbn. tauto.
    + reflexivity.
Defined.

(** [merge] of images in the modes L and LA, and of an image in mode LA
    with one that has lost its alpha channel. *)
Lemma merge_refuses_witness :
  merge example.l_row example.la_half = Raise ValueError /\
  merge example.la_half (set_channels example.la_half [example.px 0 false]) =
  Raise IndexError.
Proof.
  destruct (merge_refuses example.l_row example.la_half 1 1) as (_ & Hmodes & _).
  destruct (merge_refuses example.la_half
              (set_channels example.la_half [example.px 0 false]) 1 1)
    as (_ & _ & Hchannels & _).
  split.
  - apply Hmodes; [reflexivity | discriminate].
  - apply Hchannels; [reflexivity | reflexivity | | | cbn; lia];
      repeat constructor.
Defined.

(** The constructor with no channel for the mode L, and with two arrays
    of different shapes for the mode LA. *)
Lemma init_refuses_witness :
  __init__ (CSeq []) "L" None FNone None = Raise ValueError /\
  __init__ (CSeq [Plain (1, 1)%nat [0%Q]; Plain (1, 2)%nat [0%Q; 0%Q]]) "LA"
           None FNone None = Raise ValueError.
Proof.
  destruct (init_refuses (F := Q) "L" None FNone None) as (_ & Hlength & _).
  destruct (init_refuses (F := Q) "LA" None FNone None) as (_ & _ & _ & Hknown).
  split.
  - apply Hlength. discriminate.
  - destruct Hknown as (_ & Hshapes & _); [cbn; tauto|].
    apply Hshapes; [reflexivity | reflexivity |]. constructor. discriminate.
Defined.
